(** * primitiv: the host-memory device (src/primitiv/cpu_device.cc)

    A shallow embedding of [CPUDevice]: its block registry, its storage
    life cycle and the tensor kernels, followed by the properties of the
    specification that concern them.

    Conventions of the embedding.
    - [unsigned] values are [N]; every arithmetic operation the source does
      on [unsigned] is reduced modulo 2^32 ([wrap32]).
    - [float] is IEEE-754 binary32, taken from the Standard Library's
      executable specification [SpecFloat] at precision 24 and maximal
      exponent 128; every operation rounds to nearest-even.  [SpecFloat]
      has one NaN: the sign and the payload of a NaN are not represented.
      Two floats of the embedding are equal when they are the same number
      (the two zeros told apart), the same infinity, or both NaN; the
      properties speak of these values, not of the bit pattern a NaN result
      has on a given machine.
    - A block of memory obtained from [malloc] is a [list] of floats; the
      process heap maps the address of each live block to its contents.
      Reading or writing outside a block, dividing by zero and freeing a
      block that is not live are undefined behaviour: kernels then have no
      result ([None], [Undefined]).
    - C++ exceptions are the [Throws] outcome, which carries the state at
      the point of the throw. *)

From Stdlib Require Import ZArith NArith Lia.
From Stdlib Require Import Floats.SpecFloat.
From stdpp Require Import base option list numbers gmap strings.

Open Scope N_scope.

(** ** Machine arithmetic *)

Definition wrap32 (x : N) : N := x mod 2 ^ 32.

Definition uadd (a b : N) : N := wrap32 (a + b).
Definition umul (a b : N) : N := wrap32 (a * b).

(** [a / b] on [unsigned]; division by zero has no defined result. *)
Definition udiv (a b : N) : option N :=
  if b =? 0 then None else Some (a / b).

(** Conversion of a [bool] to [unsigned], as in [(bs > 1) * size]. *)
Definition b2u (b : bool) : N := if b then 1 else 0.

(** [sizeof(float)]. *)
Definition sizeof_float : N := 4.

(** ** binary32 *)

Module F32.
Definition prec : Z := 24.
Definition emax : Z := 128.

(** The values of binary32: the two zeros, the two infinities, the finite
    numbers and one NaN for all NaN bit patterns. *)
Definition float : Type := spec_float.

Definition valid (x : float) : bool := valid_binary prec emax x.

Definition add : float -> float -> float := SFadd prec emax.
Definition sub : float -> float -> float := SFsub prec emax.
Definition mul : float -> float -> float := SFmul prec emax.
Definition div : float -> float -> float := SFdiv prec emax.

Definition eqb : float -> float -> bool := SFeqb.
Definition ltb : float -> float -> bool := SFltb.
Definition leb : float -> float -> bool := SFleb.
(** [x > y] and [x >= y]. *)
Definition gtb (x y : float) : bool :=
  match SFcompare x y with Some Gt => true | _ => false end.
Definition geb (x y : float) : bool :=
  match SFcompare x y with Some (Gt | Eq) => true | _ => false end.

(** The literal [.0f], and the value of [float tmp = 0]. *)
Definition zero : float := S754_zero false.
(** Conversion of an integer to [float]. *)
Definition of_Z (z : Z) : float := binary_normalize prec emax z 0 false.
Definition one : float := of_Z 1.
(** [static_cast<float>(b)] for a [bool]. *)
Definition of_bool (b : bool) : float := if b then one else zero.

Definition is_nan (x : float) : bool :=
  match x with S754_nan => true | _ => false end.

(** [std::max(a, b)], which is [(a < b) ? b : a]. *)
Definition max (a b : float) : float := if ltb a b then b else a.
End F32.

Abbreviation float := F32.float (only parsing).

(** ** Shape *)

(** Modelled from the spec: primitiv/shape.h is not among the sources.  A
    shape is the sequence of its axis extents and a batch size; an axis
    past the declared ones has extent 1; the derived sizes are products.
    The products are the mathematical ones: the device code reduces one
    modulo 2^32 where it stores it in an [unsigned]. *)
Record Shape := mkShape { dims_ : list N; k_ : N }.

(** Modelled from the spec: [Shape::operator[]]. *)
Definition shape_at (s : Shape) (i : N) : N :=
  default 1 (dims_ s !! N.to_nat i).

Definition product (l : list N) : N := foldr N.mul 1 l.

(** Modelled from the spec: [Shape::num_elements_under_rank], the product of
    the extents at axes [0 .. rank-1]. *)
Definition num_elements_under_rank (s : Shape) (rank : N) : N :=
  product (take (N.to_nat rank) (dims_ s)).

(** Modelled from the spec: [Shape::num_elements_per_sample]. *)
Definition num_elements_per_sample (s : Shape) : N := product (dims_ s).

(** Modelled from the spec: [Shape::batch_size]. *)
Definition batch_size (s : Shape) : N := k_ s.

(** Modelled from the spec: [Shape::num_total_elements]. *)
Definition num_total_elements (s : Shape) : N :=
  num_elements_per_sample s * batch_size s.

(** Modelled from the spec: [Shape::resize_dim], the shape with axis [d]
    replaced by [n] (absent axes below [d] have extent 1). *)
Definition resize_dim (s : Shape) (d n : N) : Shape :=
  mkShape
    (<[N.to_nat d := n]>
       (dims_ s ++ replicate (S (N.to_nat d) - length (dims_ s)) 1))
    (k_ s).

(** Modelled from the spec: [Shape::resize_batch]. *)
Definition resize_batch (s : Shape) (n : N) : Shape := mkShape (dims_ s) n.

(** Modelled from the spec: the invariant of a constructed shape, all
    extents and the batch size at least 1. *)
Definition valid_shape (s : Shape) : Prop :=
  Forall (λ d, 1 <= d) (dims_ s) ∧ 1 <= k_ s.

(** ** Loops over buffers *)

(** [REPEAT_OP(i, n, op)] and every [for (unsigned i = 0; i < n; ++i)]:
    the body receives the counter and the loop state. *)
Fixpoint repeat_from {S : Type} (body : N -> S -> option S)
    (i : N) (n : nat) (s : S) : option S :=
  match n with
  | O => Some s
  | S n' => s' ← body i s; repeat_from body (N.succ i) n' s'
  end.

Definition REPEAT_OP {S : Type} (n : N) (body : N -> S -> option S)
    (s : S) : option S :=
  repeat_from body 0 (N.to_nat n) s.

(** A loop whose condition is not a plain counter bound.  [fuel] bounds the
    number of iterations; running out of it yields no result. *)
Fixpoint for_while {S : Type} (fuel : nat) (cond : S -> bool)
    (body : S -> option S) (s : S) : option S :=
  if cond s then
    match fuel with
    | O => None
    | S fuel' => s' ← body s; for_while fuel' cond body s'
    end
  else Some s.

(** [p[i]] for a pointer at offset 0 of the block [buf]. *)
Definition load (buf : list float) (i : N) : option float :=
  buf !! N.to_nat i.

(** [p[i] = v]. *)
Definition store (buf : list float) (i : N) (v : float)
    : option (list float) :=
  if i <? N.of_nat (length buf) then Some (<[N.to_nat i := v]> buf) else None.

(** ** Kernels on buffers

    A value-producing kernel fills the block it has just allocated and
    reads its operands through [const] pointers into other live blocks.
    Each loop nest is therefore written over the operand contents and the
    destination contents; pointers into a block are offsets from its
    start. *)

(** The loop shared by the element-wise unary kernels:
    [REPEAT_OP(i, size, dest[i] = f(src[i]))]. *)
Definition unary_kernel (f : float -> float) (size : N)
    (src dest : list float) : option (list float) :=
  REPEAT_OP size (λ i dest, x ← load src i; store dest i (f x)) dest.

(** The loop nest shared by [add_impl], [subtract_impl], [multiply_impl]
    and [divide_impl] on two tensors. *)
Definition binary_kernel (op : float -> float -> float)
    (size bs skip_a skip_b : N) (src_a src_b dest0 : list float)
    : option (list float) :=
  '(dest, _, _, _) ←
    REPEAT_OP bs (λ _ '(dest, dp, pa, pb),
      dest' ← REPEAT_OP size (λ i dest,
                 va ← load src_a (pa + i);
                 vb ← load src_b (pb + i);
                 store dest (dp + i) (op va vb)) dest;
      Some (dest', dp + size, pa + skip_a, pb + skip_b))
    (dest0, 0, 0, 0);
  Some dest.

(** [REPEAT_OP(j, span, *dest++ = *sp++)]: the state is the destination
    with its cursor and the source cursor. *)
Definition copy_span (span : N) (src : list float)
    (st : list float * N * N) : option (list float * N * N) :=
  REPEAT_OP span (λ _ '(dest, dp, sp),
    v ← load src sp;
    dest' ← store dest dp v;
    Some (dest', dp + 1, sp + 1)) st.

(** The loop nest of [slice_impl]. *)
Definition slice_kernel (base span skip repeat offset : N)
    (src dest0 : list float) : option (list float) :=
  '(dest, _, _) ←
    REPEAT_OP repeat (λ _ '(dest, dp, srcp),
      '(dest', dp', _) ← copy_span span src (dest, dp, srcp);
      Some (dest', dp', srcp + skip))
    (dest0, 0, umul base offset);
  Some dest.

(** The body of [for (const Tensor *x : xs)] in [concat_impl], for one
    operand with shape [sx] and contents [src]. *)
Definition concat_one (dim new_bs base skip repeat : N)
    (sx : Shape) (src : list float) (st : list float * N)
    : option (list float * N) :=
  let '(ret, offset) := st in
  let src_dim := shape_at sx dim in
  let span := umul base src_dim in
  let b_skip := umul (umul (b2u (1 <? batch_size sx)) span) repeat in
  '(ret', _, _) ←
    REPEAT_OP new_bs (λ _ '(ret, dest, srcp),
      '(ret', dest', _) ←
        REPEAT_OP repeat (λ _ '(ret, dest, sp),
          '(ret', _, sp') ← copy_span span src (ret, dest, sp);
          Some (ret', dest + skip, sp'))
        (ret, dest, srcp);
      Some (ret', dest', srcp + b_skip))
    (ret, offset, 0);
  Some (ret', uadd offset span).

(** The loop nest of [concat_impl]. *)
Definition concat_kernel (dim new_bs base skip repeat : N)
    (xs : list (Shape * list float)) (dest0 : list float)
    : option (list float) :=
  '(ret, _) ←
    foldl (λ acc x, st ← acc;
                    concat_one dim new_bs base skip repeat x.1 x.2 st)
          (Some (dest0, 0)) xs;
  Some ret.

(** The loop nest of [dot_impl].  The loop over [ky] leaves when
    [ky >= dest_shift]; it does so after at most [d3] rounds, which is the
    fuel it is given. *)
Definition dot_kernel (d1 d2 d3 bs dest_shift src_a_shift src_b_shift : N)
    (src_a src_b dest0 : list float) : option (list float) :=
  '(dest, _, _, _) ←
    REPEAT_OP bs (λ _ '(dest, dp, pa, pb),
      dest' ←
        REPEAT_OP d1 (λ i dest,
          '(dest', _, _) ←
            for_while (N.to_nat d3)
              (λ '(_, ky, _), ky <? dest_shift)
              (λ '(dest, ky, kb),
                '(tmp, _) ←
                  REPEAT_OP d2 (λ jb '(tmp, ja),
                    va ← load src_a (pa + uadd i ja);
                    vb ← load src_b (pb + uadd jb kb);
                    Some (F32.add tmp (F32.mul va vb), uadd ja d1))
                  (F32.zero, 0);
                dest' ← store dest (dp + uadd i ky) tmp;
                Some (dest', uadd ky d1, uadd kb d2))
              (dest, 0, 0);
          Some dest') dest;
      Some (dest', dp + dest_shift, pa + src_a_shift, pb + src_b_shift))
    (dest0, 0, 0, 0);
  Some dest.


(** The loop of [random_bernoulli_impl]: each round draws from the
    generator, so the state is the destination and the generator. *)
Definition bernoulli_kernel {Rng : Type} (dist : Rng -> bool * Rng)
    (size : N) (st : list float * Rng) : option (list float * Rng) :=
  REPEAT_OP size (λ i '(dest, rng),
    let '(draw, rng') := dist rng in
    dest' ← store dest i (F32.of_bool draw);
    Some (dest', rng')) st.

(** What [random_uniform_impl] stores for the draw [x]:
    [x == lower ? upper : x]. *)
Definition uniform_elem (lower upper x : float) : float :=
  if F32.eqb x lower then upper else x.

(** The loop of [random_uniform_impl]. *)
Definition uniform_kernel {Rng : Type} (dist : Rng -> float * Rng)
    (lower upper : float) (size : N) (st : list float * Rng)
    : option (list float * Rng) :=
  REPEAT_OP size (λ i '(dest, rng),
    let '(x, rng') := dist rng in
    dest' ← store dest i (uniform_elem lower upper x);
    Some (dest', rng')) st.

(** ** Pointers, tensors, errors *)

(** Addresses. *)
Abbreviation ptr := N (only parsing).
Definition nullptr : ptr := 0.

Abbreviation Heap := (gmap N (list float)).

(** [primitiv::Tensor]: the fields of tensor.h. *)
Record Tensor := mkTensor { shape_ : Shape; device_ : ptr; data_ : ptr }.

(** [Tensor::valid]. *)
Definition valid (x : Tensor) : bool := negb (data_ x =? nullptr).

(** What [THROW_ERROR] streams into the message of the exception.  The
    macro and the exception class (primitiv/error.h) are not among the
    sources: an error is represented by the parts that the throwing code
    streams, in their order. *)
Inductive msg_part :=
  | Text (s : string)
  | Num (n : N)
  | Addr (p : ptr).

Record Error := mkError { message : list msg_part }.

(** Modelled from the spec: the members of [CPUDevice] are declared in
    primitiv/cpu_device.h, which is not among the sources.  [blocks_] is the
    handle registry of the device, used by the member functions as a map
    from a handle to the size of its block in bytes with one entry for a
    key; [rng_] is the random generator that the device owns. *)
Record CPUDevice (Rng : Type) := mkCPUDevice {
  blocks_ : gmap N N;
  rng_ : Rng
}.
Arguments mkCPUDevice {Rng} _ _.
Arguments blocks_ {Rng} _.
Arguments rng_ {Rng} _.

(** The state a member function of the device runs in: the heap of the
    process and the device object. *)
Record Process (Rng : Type) := mkProcess {
  heap : Heap;
  dev : CPUDevice Rng
}.
Arguments mkProcess {Rng} _ _.
Arguments heap {Rng} _.
Arguments dev {Rng} _.

Inductive Outcome (St A : Type) :=
  | Returns (a : A) (σ : St)
  | Throws (e : Error) (σ : St)
  | Undefined.
Arguments Returns {St A} _ _.
Arguments Throws {St A} _ _.
Arguments Undefined {St A}.

(** How the process ends when the device is destroyed. *)
Inductive Exit :=
  | Destroyed
  | Aborted (cerr : list (list msg_part)).

(** [std::map::insert]: an existing entry is kept. *)
Definition map_insert (k v : N) (m : gmap N N) : gmap N N :=
  match m !! k with
  | Some _ => m
  | None => <[k := v]> m
  end.

(** ** In-place accumulation on the heap

    [add_gradient_impl] updates the block of its first operand while it
    reads the block of the second, and nothing keeps the two from being the
    same block: its loops run on the heap itself. *)

Definition hload (h : Heap) (p : ptr) (i : N) : option float :=
  blk ← h !! p; load blk i.

Definition hstore (h : Heap) (p : ptr) (i : N) (v : float) : option Heap :=
  blk ← h !! p; blk' ← store blk i v; Some (<[p := blk']> h).

(** The loop nest of [add_gradient_impl]; [dest] and [src] are the offsets
    of the two moving pointers in the blocks [pa] and [pb]. *)
Definition add_gradient_kernel (size bs b_skip_d b_skip_s : N)
    (pa pb : ptr) (h0 : Heap) : option Heap :=
  '(h, _, _) ←
    REPEAT_OP bs (λ _ '(h, dest, src),
      h' ← REPEAT_OP size (λ i h,
              d ← hload h pa (dest + i);
              s ← hload h pb (src + i);
              hstore h pa (dest + i) (F32.add d s)) h;
      Some (h', dest + b_skip_d, src + b_skip_s))
    (h0, 0, 0);
  Some h.

(** The size in bytes that [new_handle] requests for a shape:
    [sizeof(float) * shape.num_total_elements()], stored in an [unsigned]. *)
Definition mem_size_of (shape : Shape) : N :=
  umul sizeof_float (wrap32 (num_total_elements shape)).

(** ** The device *)

Section Device.
Variable Rng : Type.

(** The C library and [<random>] are outside the repository: [malloc]
    returns the address and the indeterminate contents of a new block, or
    nothing for a null pointer; a distribution object applied to the
    generator returns a draw and the advanced generator. *)
Variable malloc : Heap -> N -> option (ptr * list float).
Variable bernoulli_distribution : float -> Rng -> bool * Rng.
Variable uniform_real_distribution : float -> float -> Rng -> float * Rng.

(** The address of the device object, stored in the tensors it makes. *)
Variable this : ptr.

Definition M (A : Type) : Type :=
  Process Rng -> Outcome (Process Rng) A.

Definition ret {A : Type} (a : A) : M A := λ σ, Returns a σ.

Definition bind {A B : Type} (m : M A) (k : A -> M B) : M B :=
  λ σ, match m σ with
       | Returns a σ' => k a σ'
       | Throws e σ' => Throws e σ'
       | Undefined => Undefined
       end.

Notation "x <- m ;; k" := (bind m (λ x, k))
  (at level 100, m at next level, right associativity).
Notation "m ;;; k" := (bind m (λ _, k))
  (at level 100, right associativity).

(** [THROW_ERROR(parts)]. *)
Definition THROW_ERROR {A : Type} (parts : list msg_part) : M A :=
  λ σ, Throws (mkError parts) σ.

(** A step whose result is defined only when [o] is. *)
Definition defined {A : Type} (o : option A) : M A :=
  λ σ, match o with Some a => Returns a σ | None => Undefined end.

Definition get_heap : M Heap := λ σ, Returns (heap σ) σ.
Definition put_heap (h : Heap) : M unit :=
  λ σ, Returns tt (mkProcess h (dev σ)).
Definition get_blocks : M (gmap N N) := λ σ, Returns (blocks_ (dev σ)) σ.
Definition put_blocks (b : gmap N N) : M unit :=
  λ σ, Returns tt (mkProcess (heap σ) (mkCPUDevice b (rng_ (dev σ)))).
Definition get_rng : M Rng := λ σ, Returns (rng_ (dev σ)) σ.
Definition put_rng (g : Rng) : M unit :=
  λ σ, Returns tt (mkProcess (heap σ) (mkCPUDevice (blocks_ (dev σ)) g)).

(** [std::malloc(mem_size)]. *)
Definition std_malloc (mem_size : N) : M (option ptr) :=
  h <- get_heap ;;
  match malloc h mem_size with
  | None => ret None
  | Some (p, contents) => put_heap (<[p := contents]> h) ;;; ret (Some p)
  end.

(** [std::free(data)]: nothing for a null pointer, undefined for an
    address that is not a live block. *)
Definition std_free (data : ptr) : M unit :=
  if data =? nullptr then ret tt
  else
    h <- get_heap ;;
    match h !! data with
    | Some _ => put_heap (delete data h)
    | None => defined None
    end.

(** [CPUDevice::CPUDevice(unsigned rng_seed)], with the generator that the
    seed gives. *)
Definition CPUDevice_new (rng : Rng) : CPUDevice Rng := mkCPUDevice ∅ rng.

(** [CPUDevice::~CPUDevice]. *)
Definition CPUDevice_delete (d : CPUDevice Rng) : Exit :=
  if decide (blocks_ d = ∅) then Destroyed
  else
    Aborted
      ([Text "FATAL ERROR: Detected memory leak on CPUDevice!"]
       :: [Text "Leaked blocks (handle: size):"]
       :: ((λ kv : N * N, [Text "  "; Addr kv.1; Text ": "; Num kv.2])
             <$> map_to_list (blocks_ d))).

(** [CPUDevice::new_handle]. *)
Definition new_handle (shape : Shape) : M ptr :=
  let mem_size := mem_size_of shape in
  data <- std_malloc mem_size ;;
  match data with
  | None =>
      THROW_ERROR
        [Text "Memory allocation failed. Requested size: "; Num mem_size]
  | Some data =>
      b <- get_blocks ;;
      put_blocks (map_insert data mem_size b) ;;;
      ret data
  end.

(** [CPUDevice::delete_tensor_impl]. *)
Definition delete_tensor_impl (x : Tensor) : M unit :=
  let data := data_ x in
  b <- get_blocks ;;
  match b !! data with
  | None =>
      THROW_ERROR
        [Text "Attempted to dispose unknown memory block: "; Addr data]
  | Some _ =>
      put_blocks (delete data b) ;;;
      std_free data
  end.

(** Modelled from the spec: [Device::new_tensor] is defined in device.cc,
    which is not among the sources; it returns a tensor of the given
    shape on this device with freshly allocated, uninitialised storage. *)
Definition new_tensor (shape : Shape) : M Tensor :=
  data <- new_handle shape ;;
  ret (mkTensor shape this data).

(** [CDATA(x)] and [DATA(x)]: the block a tensor points to. *)
Definition CDATA (x : Tensor) : M (list float) :=
  h <- get_heap ;; defined (h !! data_ x).

(** The kernel's writes through [DATA(ret)] reach the heap. *)
Definition commit (x : Tensor) (contents : list float) : M unit :=
  h <- get_heap ;; put_heap (<[data_ x := contents]> h).

(** [CPUDevice::tensor_to_vector_impl].  The vector [ret] lives on the
    caller's side and is not part of the state; its construction is taken
    to succeed ([std::bad_alloc] of the host allocator is not an outcome of
    the embedding). *)
Definition tensor_to_vector_impl (x : Tensor) : M (list float) :=
  let num_elements := wrap32 (num_total_elements (shape_ x)) in
  src <- CDATA x ;;
  if num_elements <=? N.of_nat (length src)
  then ret (take (N.to_nat num_elements) src)
  else defined None.

(** [CPUDevice::random_bernoulli_impl]. *)
Definition random_bernoulli_impl (shape : Shape) (p : float) : M Tensor :=
  let dist := bernoulli_distribution p in
  r <- new_tensor shape ;;
  dest <- CDATA r ;;
  let size := wrap32 (num_total_elements shape) in
  rng <- get_rng ;;
  st <- defined (bernoulli_kernel dist size (dest, rng)) ;;
  commit r st.1 ;;;
  put_rng st.2 ;;;
  ret r.

(** [CPUDevice::random_uniform_impl]. *)
Definition random_uniform_impl (shape : Shape) (lower upper : float)
    : M Tensor :=
  let dist := uniform_real_distribution lower upper in
  r <- new_tensor shape ;;
  dest <- CDATA r ;;
  let size := wrap32 (num_total_elements shape) in
  rng <- get_rng ;;
  st <- defined (uniform_kernel dist lower upper size (dest, rng)) ;;
  commit r st.1 ;;;
  put_rng st.2 ;;;
  ret r.

(** [CPUDevice::slice_impl]. *)
Definition slice_impl (x : Tensor) (dim offset : N) (new_shape : Shape)
    : M Tensor :=
  let base := wrap32 (num_elements_under_rank new_shape dim) in
  let span := umul base (shape_at new_shape dim) in
  let skip := umul base (shape_at (shape_ x) dim) in
  repeat <- defined (udiv (wrap32 (num_total_elements new_shape)) span) ;;
  r <- new_tensor new_shape ;;
  dest <- CDATA r ;;
  src <- CDATA x ;;
  dest' <- defined (slice_kernel base span skip repeat offset src dest) ;;
  commit r dest' ;;;
  ret r.

(** The operands of [concat_impl] as its loop reads them: the shape and
    the block of each. *)
Fixpoint operands (xs : list Tensor) : M (list (Shape * list float)) :=
  match xs with
  | [] => ret []
  | x :: xs' =>
      src <- CDATA x ;;
      rest <- operands xs' ;;
      ret ((shape_ x, src) :: rest)
  end.

(** [CPUDevice::concat_impl]. *)
Definition concat_impl (xs : list Tensor) (dim : N) (new_shape : Shape)
    : M Tensor :=
  let new_bs := batch_size new_shape in
  let base := wrap32 (num_elements_under_rank new_shape dim) in
  let skip := umul base (shape_at new_shape dim) in
  repeat <- defined (udiv (wrap32 (num_elements_per_sample new_shape)) skip) ;;
  r <- new_tensor new_shape ;;
  dest <- CDATA r ;;
  srcs <- operands xs ;;
  dest' <- defined (concat_kernel dim new_bs base skip repeat srcs dest) ;;
  commit r dest' ;;;
  ret r.

(** The body shared by the four element-wise kernels on two tensors. *)
Definition binary_impl (op : float -> float -> float) (a b : Tensor)
    : M Tensor :=
  let sa := shape_ a in
  let sb := shape_ b in
  let size := wrap32 (num_elements_per_sample sa) in
  let bs := N.max (batch_size sa) (batch_size sb) in
  let skip_a := umul (b2u (1 <? batch_size sa)) size in
  let skip_b := umul (b2u (1 <? batch_size sb)) size in
  r <- new_tensor (resize_batch sa bs) ;;
  dest <- CDATA r ;;
  src_a <- CDATA a ;;
  src_b <- CDATA b ;;
  dest' <- defined (binary_kernel op size bs skip_a skip_b src_a src_b dest) ;;
  commit r dest' ;;;
  ret r.

(** [CPUDevice::add_impl(const Tensor &, const Tensor &)] and its
    siblings. *)
Definition add_impl : Tensor -> Tensor -> M Tensor := binary_impl F32.add.
Definition subtract_impl : Tensor -> Tensor -> M Tensor :=
  binary_impl F32.sub.
Definition multiply_impl : Tensor -> Tensor -> M Tensor :=
  binary_impl F32.mul.
Definition divide_impl : Tensor -> Tensor -> M Tensor := binary_impl F32.div.

(** [CPUDevice::dot_impl]. *)
Definition dot_impl (a b : Tensor) : M Tensor :=
  let sa := shape_ a in
  let sb := shape_ b in
  let d1 := shape_at sa 0 in
  let d2 := shape_at sa 1 in
  let d3 := shape_at sb 1 in
  let bs := N.max (batch_size sa) (batch_size sb) in
  let dest_shift := umul d1 d3 in
  let src_a_shift := umul (umul (b2u (1 <? batch_size sa)) d1) d2 in
  let src_b_shift := umul (umul (b2u (1 <? batch_size sb)) d2) d3 in
  r <- new_tensor (mkShape [d1; d3] bs) ;;
  dest <- CDATA r ;;
  src_a <- CDATA a ;;
  src_b <- CDATA b ;;
  dest' <- defined (dot_kernel d1 d2 d3 bs dest_shift src_a_shift src_b_shift
                      src_a src_b dest) ;;
  commit r dest' ;;;
  ret r.

(** The body shared by the element-wise unary kernels. *)
Definition unary_impl (f : float -> float) (x : Tensor) : M Tensor :=
  r <- new_tensor (shape_ x) ;;
  dest <- CDATA r ;;
  src <- CDATA x ;;
  let size := wrap32 (num_total_elements (shape_ x)) in
  dest' <- defined (unary_kernel f size src dest) ;;
  commit r dest' ;;;
  ret r.

(** What [step_impl] and [relu_impl] store for an element. *)
Definition step_elem (x : float) : float :=
  F32.of_bool (F32.gtb x F32.zero).
Definition relu_elem (x : float) : float := F32.max x F32.zero.

(** [CPUDevice::step_impl]. *)
Definition step_impl : Tensor -> M Tensor := unary_impl step_elem.

(** [CPUDevice::relu_impl]. *)
Definition relu_impl : Tensor -> M Tensor := unary_impl relu_elem.

(** [CPUDevice::broadcast_impl]. *)
Definition broadcast_impl (x : Tensor) (dim : N) : M Tensor :=
  THROW_ERROR [Text "not implemented"].

(** [CPUDevice::add_gradient_impl]. *)
Definition add_gradient_impl (a b : Tensor) : M unit :=
  let sa := shape_ a in
  let sb := shape_ b in
  let size := wrap32 (num_elements_per_sample sa) in
  let bs := N.max (batch_size sa) (batch_size sb) in
  let b_skip_d := umul (b2u (1 <? batch_size sa)) size in
  let b_skip_s := umul (b2u (1 <? batch_size sb)) size in
  h <- get_heap ;;
  h' <- defined (add_gradient_kernel size bs b_skip_d b_skip_s
                   (data_ a) (data_ b) h) ;;
  put_heap h'.
End Device.

Arguments M Rng A : assert.
Arguments ret {Rng A} a σ.
Arguments bind {Rng A B} m k σ.
Arguments THROW_ERROR {Rng A} parts σ.
Arguments defined {Rng A} o σ.
Arguments CPUDevice_new {Rng} rng.
Arguments CPUDevice_delete {Rng} d.
Arguments new_handle {Rng} malloc shape σ.
Arguments delete_tensor_impl {Rng} x σ.
Arguments new_tensor {Rng} malloc this shape σ.
Arguments CDATA {Rng} x σ.
Arguments commit {Rng} x contents σ.
Arguments tensor_to_vector_impl {Rng} x σ.
Arguments random_bernoulli_impl {Rng} malloc bernoulli_distribution this shape p σ.
Arguments random_uniform_impl {Rng} malloc uniform_real_distribution this
  shape lower upper σ.
Arguments slice_impl {Rng} malloc this x dim offset new_shape σ.
Arguments operands {Rng} xs σ.
Arguments concat_impl {Rng} malloc this xs dim new_shape σ.
Arguments binary_impl {Rng} malloc this op a b σ.
Arguments add_impl {Rng} malloc this a b σ.
Arguments subtract_impl {Rng} malloc this a b σ.
Arguments multiply_impl {Rng} malloc this a b σ.
Arguments divide_impl {Rng} malloc this a b σ.
Arguments dot_impl {Rng} malloc this a b σ.
Arguments unary_impl {Rng} malloc this f x σ.
Arguments step_impl {Rng} malloc this x σ.
Arguments relu_impl {Rng} malloc this x σ.
Arguments broadcast_impl {Rng} x dim σ.
Arguments add_gradient_impl {Rng} a b σ.

(** ** Contracts and scenarios *)

(** The contract of [malloc]: a block it returns is not null, is distinct
    from every live block, and holds the bytes that were asked for. *)
Definition malloc_spec (malloc : Heap -> N -> option (ptr * list float))
    : Prop :=
  ∀ h n p c, malloc h n = Some (p, c) ->
    p ≠ nullptr ∧ h !! p = None ∧ length c = N.to_nat (n / sizeof_float).

(** Every handle of the registry is the address of a live block. *)
Definition registry_live {Rng : Type} (σ : Process Rng) : Prop :=
  ∀ p, is_Some (blocks_ (dev σ) !! p) -> is_Some (heap σ !! p).

(** The tensor [x] is backed by a live block holding [xs], one float for
    each element of its shape. *)
Definition holds {Rng : Type} (σ : Process Rng) (x : Tensor)
    (xs : list float) : Prop :=
  heap σ !! data_ x = Some xs
  ∧ N.of_nat (length xs) = num_total_elements (shape_ x).

(** The storage of a tensor of this shape can be requested: its size in
    bytes is an [unsigned] value, so that the block [new_handle] asks for
    has room for every element.  For a larger shape [mem_size_of] wraps
    around and the block is too small for the elements; a tensor that the
    device created and that [holds] its elements has a shape that fits. *)
Definition fits (s : Shape) : Prop :=
  sizeof_float * num_total_elements s < 2 ^ 32.

(** Modelled from the spec: two shapes are broadcast-compatible when their
    per-sample shapes are equal, an absent axis counting as extent 1, and
    their batch sizes match or one of them is 1. *)
Definition broadcast_compatible (sa sb : Shape) : Prop :=
  (∀ i, shape_at sa i = shape_at sb i)
  ∧ (batch_size sa = batch_size sb ∨ batch_size sa = 1 ∨ batch_size sb = 1).

(** The sample of an operand that takes part in batch entry [k]: its only
    sample when its batch size is 1. *)
Definition sample (s : Shape) (k : N) : N :=
  if batch_size s =? 1 then 0 else k.

(** Element [i] of the first [n] samples of a buffer, in batch order. *)
Definition column (xs : list float) (size i n : N) : list float :=
  (λ k, default F32.zero (load xs (N.of_nat k * size + i)))
    <$> seq 0 (N.to_nat n).

(** The first [n] draws of a distribution from the generator [g], and the
    generator they leave. *)
Fixpoint draws {A Rng : Type} (dist : Rng -> A * Rng) (n : nat) (g : Rng)
    : list A * Rng :=
  match n with
  | O => ([], g)
  | S n' =>
      let '(x, g') := dist g in
      let '(xs, g'') := draws dist n' g' in
      (x :: xs, g'')
  end.

(** The state after a successful [new_handle], with the new block holding
    [c]; and the same once a random kernel has advanced the generator. *)
Definition allocated {Rng : Type} (σ : Process Rng) (shape : Shape)
    (p : ptr) (c : list float) : Process Rng :=
  mkProcess (<[p := c]> (heap σ))
    (mkCPUDevice (map_insert p (mem_size_of shape) (blocks_ (dev σ)))
                 (rng_ (dev σ))).

Definition drawn {Rng : Type} (σ : Process Rng) (shape : Shape)
    (p : ptr) (c : list float) (g : Rng) : Process Rng :=
  mkProcess (<[p := c]> (heap σ))
    (mkCPUDevice (map_insert p (mem_size_of shape) (blocks_ (dev σ))) g).

(** The heap after [std::free] of the block at [p]. *)
Definition freed (h : Heap) (p : ptr) : Heap :=
  if p =? nullptr then h else delete p h.

(** The product of the extents above axis [dim]. *)
Definition num_elements_over_rank (s : Shape) (dim : N) : N :=
  product (drop (S (N.to_nat dim)) (dims_ s)).

(** What [slice_impl] leaves in a piece cut from a tensor with contents
    [x]: [rows] rows of [base * len] elements, row [r] being the
    [base * len] elements of row [r] of [x] that start at column
    [base * offset]; a row of [x] has [skip] elements. *)
Definition piece_of (x : list float) (dim base skip rows bs : N)
    (range : N * N) (piece : Shape * list float) : Prop :=
  let span := base * range.2 in
  shape_at piece.1 dim = range.2
  ∧ batch_size piece.1 = bs
  ∧ N.of_nat (length piece.2) = rows * span
  ∧ ∀ r j, r < rows -> j < span ->
      load piece.2 (r * span + j) = load x (base * range.1 + r * skip + j).

(** The tensor [t] is such a piece in the state [σ]. *)
Definition piece_in {Rng : Type} (σ : Process Rng) (x : list float)
    (dim base skip rows bs : N) (range : N * N) (t : Tensor) : Prop :=
  ∃ pc, heap σ !! data_ t = Some pc
        ∧ piece_of x dim base skip rows bs range (shape_ t, pc).

(** What a client asks of the device, and what it observes: a thrown error
    is caught and the client goes on. *)
Inductive Request :=
  | Alloc (shape : Shape)
  | Dispose (x : Tensor).

Inductive Event :=
  | Allocated (p : ptr)
  | Disposed (p : ptr)
  | Failed (e : Error).

Definition serve {Rng : Type} (malloc : Heap -> N -> option (ptr * list float))
    (r : Request) : M Rng Event :=
  λ σ,
    match r with
    | Alloc shape =>
        match new_handle malloc shape σ with
        | Returns p σ' => Returns (Allocated p) σ'
        | Throws e σ' => Returns (Failed e) σ'
        | Undefined => Undefined
        end
    | Dispose x =>
        match delete_tensor_impl x σ with
        | Returns _ σ' => Returns (Disposed (data_ x)) σ'
        | Throws e σ' => Returns (Failed e) σ'
        | Undefined => Undefined
        end
    end.

Fixpoint serve_all {Rng : Type}
    (malloc : Heap -> N -> option (ptr * list float))
    (rs : list Request) : M Rng (list Event) :=
  match rs with
  | [] => ret []
  | r :: rs' =>
      bind (serve malloc r) (λ e,
        bind (serve_all malloc rs') (λ es, ret (e :: es)))
  end.

Definition is_allocated (e : Event) : bool :=
  match e with Allocated _ => true | _ => false end.
Definition is_disposed (e : Event) : bool :=
  match e with Disposed _ => true | _ => false end.

(** The number of events of a kind in a trace. *)
Definition count (f : Event -> bool) (es : list Event) : nat :=
  length (filter (λ e, f e = true) es).

(** The handles that are outstanding after an event, and after a trace
    of events on a new device: those allocated and not disposed of
    since. *)
Definition outstanding_after (live : gset N) (e : Event) : gset N :=
  match e with
  | Allocated p => {[p]} ∪ live
  | Disposed p => live ∖ {[p]}
  | Failed _ => live
  end.

Definition outstanding (es : list Event) : gset N :=
  foldl outstanding_after ∅ es.

(** Cutting [x] along [dim] into the ranges [(offset, length)], one
    [slice_impl] call for each. *)
Fixpoint slice_all {Rng : Type}
    (malloc : Heap -> N -> option (ptr * list float)) (this : ptr)
    (x : Tensor) (dim : N) (ranges : list (N * N)) : M Rng (list Tensor) :=
  match ranges with
  | [] => ret []
  | (offset, len) :: ranges' =>
      bind (slice_impl malloc this x dim offset
              (resize_dim (shape_ x) dim len)) (λ piece,
        bind (slice_all malloc this x dim ranges') (λ pieces,
          ret (piece :: pieces)))
  end.

(** The ranges follow one another from [start] to [stop], and none is
    empty. *)
Fixpoint partition (start stop : N) (ranges : list (N * N)) : Prop :=
  match ranges with
  | [] => start = stop
  | (offset, len) :: ranges' =>
      offset = start ∧ 1 <= len ∧ partition (start + len) stop ranges'
  end.

(** ** A concrete runtime

    An allocator that never fails: the new block gets the least address
    that is neither null nor live, and is filled with NaN.  The generator
    is a counter; draws alternate. *)
Definition bump_malloc (h : Heap) (n : N) : option (ptr * list float) :=
  Some (fresh ({[nullptr]} ∪ dom h),
        replicate (N.to_nat (n / sizeof_float)) S754_nan).

Definition coin (p : float) (g : N) : bool * N := (N.odd g, N.succ g).

Definition ends (lower upper : float) (g : N) : float * N :=
  (if N.odd g then upper else lower, N.succ g).

Definition fresh_process : Process N := mkProcess ∅ (CPUDevice_new 0).

(** A process in which [x] is a live, registered tensor with the given
    contents. *)
Definition with_tensor (σ : Process N) (x : Tensor) (xs : list float)
    : Process N :=
  mkProcess (<[data_ x := xs]> (heap σ))
    (mkCPUDevice (<[data_ x := mem_size_of (shape_ x)]> (blocks_ (dev σ)))
                 (rng_ (dev σ))).

(** Tensors at the addresses 1 and 2 of the device at address 7. *)
Definition tensor_at (p : ptr) (dims : list N) (batch : N) : Tensor :=
  mkTensor (mkShape dims batch) 7 p.

Definition floats (zs : list Z) : list float := F32.of_Z <$> zs.

Definition half : float := F32.div F32.one (F32.of_Z 2).




(** A shape with 2^30 elements. *)
Definition shape_2pow30 : Shape := mkShape [2 ^ 30] 1.

(** Two 2x2 matrices. *)
Definition process_2x2 : Process N :=
  with_tensor
    (with_tensor fresh_process (tensor_at 1 [2; 2] 1) (floats [1; 2; 3; 4]%Z))
    (tensor_at 2 [2; 2] 1) (floats [5; 6; 7; 8]%Z).

(** A 2x3 tensor with two samples. *)
Definition process_2x3x2 : Process N :=
  with_tensor fresh_process (tensor_at 1 [2; 3] 2)
    (floats [1; 2; 3; 4; 5; 6; 7; 8; 9; 10; 11; 12]%Z).

(** A vector with two samples and a vector with one. *)
Definition process_batched : Process N :=
  with_tensor
    (with_tensor fresh_process (tensor_at 1 [2] 2) (floats [1; 2; 3; 4]%Z))
    (tensor_at 2 [2] 1) (floats [10; 20]%Z).

(** A vector with a negative, a zero and a positive element; and a vector
    that holds NaN. *)
Definition process_signs : Process N :=
  with_tensor fresh_process (tensor_at 1 [3] 1) (floats [-1; 0; 2]%Z).

Definition process_nan : Process N :=
  with_tensor fresh_process (tensor_at 1 [1] 1) [S754_nan].

(** ** Further kernels on buffers *)

(** [std::memcpy(dest, src, sizeof(float) * n)] between the starts of two
    blocks: the first [n] floats of [src] replace the first [n] floats of
    [dest].  Both blocks must be that long. *)
Definition memcpy (dest src : list float) (n : N) : option (list float) :=
  if (n <=? N.of_nat (length src)) && (n <=? N.of_nat (length dest))
  then Some (take (N.to_nat n) src ++ drop (N.to_nat n) dest)
  else None.

(** The loop of [reset_tensor_impl(Tensor &, float)]:
    [REPEAT_OP(i, size, dest[i] = k)]. *)
Definition fill_kernel (k : float) (size : N) (dest : list float)
    : option (list float) :=
  REPEAT_OP size (λ i dest, store dest i k) dest.

(** What [negate_impl] stores for an element: [-src[i]]. *)
Definition negate_elem (x : float) : float := SFopp x.

(** The loop nest of [transpose_impl]: [dest], [pd] and [ppd] are offsets
    in the destination, [srcp] is the offset of the moving [src]. *)
Definition transpose_kernel (d1 d2 ms bs : N) (src dest0 : list float)
    : option (list float) :=
  '(d, _, _) ←
    REPEAT_OP bs (λ _ '(d, dest, srcp),
      '(d', _, srcp') ←
        REPEAT_OP d2 (λ _ '(d, pd, srcp),
          '(d', _, srcp') ←
            REPEAT_OP d1 (λ _ '(d, ppd, srcp),
              v ← load src srcp;
              d' ← store d ppd v;
              Some (d', ppd + d2, srcp + 1))
            (d, pd, srcp);
          Some (d', pd + 1, srcp'))
        (d, dest, srcp);
      Some (d', dest + ms, srcp'))
    (dest0, 0, 0);
  Some d.

(** The loop nest of [sum_impl]; [i % skip1] and [i / skip1] have no
    defined result when [skip1] is 0. *)
Definition sum_kernel (n repeat skip1 skip2 : N) (src dest0 : list float)
    : option (list float) :=
  REPEAT_OP repeat (λ i dest,
    q ← udiv i skip1;
    let offset := uadd (i mod skip1) (umul q skip2) in
    '(tmp, _) ←
      REPEAT_OP n (λ _ '(tmp, offset),
        v ← load src offset;
        Some (F32.add tmp v, uadd offset skip1))
      (F32.zero, offset);
    store dest i tmp) dest0.

(** The loop nest of [batch_sum_impl]. *)
Definition batch_sum_kernel (bs size : N) (src dest0 : list float)
    : option (list float) :=
  REPEAT_OP size (λ i dest,
    '(temp, _) ←
      REPEAT_OP bs (λ _ '(temp, pos),
        v ← load src pos;
        Some (F32.add temp v, uadd pos size))
      (F32.zero, i);
    store dest i temp) dest0.

(** The loop nest of [add_gradient_offset_impl], on the heap as that of
    [add_gradient_impl]: [dest], [dp] and [ddp] are offsets in the block
    [pa]; [src] and [sp] are offsets in the block [pb]. *)
Definition add_gradient_offset_kernel
    (span skip repeat bs b_skip_d b_skip_s dest0 : N)
    (pa pb : ptr) (h0 : Heap) : option Heap :=
  '(h, _, _) ←
    REPEAT_OP bs (λ _ '(h, dest, src),
      '(h', _, _) ←
        REPEAT_OP repeat (λ _ '(h, dp, sp),
          '(h', _, sp') ←
            REPEAT_OP span (λ _ '(h, ddp, sp),
              d ← hload h pa ddp;
              s ← hload h pb sp;
              h' ← hstore h pa ddp (F32.add d s);
              Some (h', ddp + 1, sp + 1))
            (h, dp, sp);
          Some (h', dp + skip, sp'))
        (h, dest, src);
      Some (h', dest + b_skip_d, src + b_skip_s))
    (h0, dest0, 0);
  Some h.

(** ** Further member functions of the device *)

Section Kernels.
Variable Rng : Type.
Variable malloc : Heap -> N -> option (ptr * list float).
Variable this : ptr.

Notation "x <- m ;; k" := (bind m (λ x, k))
  (at level 100, m at next level, right associativity).
Notation "m ;;; k" := (bind m (λ _, k))
  (at level 100, right associativity).

(** [CPUDevice::reset_tensor_impl(Tensor &, float)]. *)
Definition reset_tensor_impl (x : Tensor) (k : float) : M Rng unit :=
  dest <- CDATA x ;;
  let size := wrap32 (num_total_elements (shape_ x)) in
  dest' <- defined (fill_kernel k size dest) ;;
  commit x dest'.

(** [CPUDevice::reset_tensor_impl(Tensor &, const std::vector<float> &)].
    [&values[0]] has no defined result for an empty vector. *)
Definition reset_tensor_impl_values (x : Tensor) (values : list float)
    : M Rng unit :=
  dest <- CDATA x ;;
  match values with
  | [] => defined None
  | _ =>
      dest' <- defined (memcpy dest values
                          (wrap32 (num_total_elements (shape_ x)))) ;;
      commit x dest'
  end.

(** [CPUDevice::duplicate_impl]. *)
Definition duplicate_impl (x : Tensor) : M Rng Tensor :=
  r <- new_tensor malloc this (shape_ x) ;;
  dest <- CDATA r ;;
  src <- CDATA x ;;
  dest' <- defined (memcpy dest src
                      (wrap32 (num_total_elements (shape_ x)))) ;;
  commit r dest' ;;;
  ret r.

(** [CPUDevice::negate_impl]. *)
Definition negate_impl : Tensor -> M Rng Tensor :=
  unary_impl malloc this negate_elem.

(** [CPUDevice::add_impl(const Tensor &, float)] and the other kernels
    with a scalar operand; [_xk] has the tensor on the left of the
    operator, [_kx] on the right. *)
Definition add_impl_xk (x : Tensor) (k : float) : M Rng Tensor :=
  unary_impl malloc this (λ v, F32.add v k) x.
Definition subtract_impl_xk (x : Tensor) (k : float) : M Rng Tensor :=
  unary_impl malloc this (λ v, F32.sub v k) x.
Definition subtract_impl_kx (k : float) (x : Tensor) : M Rng Tensor :=
  unary_impl malloc this (λ v, F32.sub k v) x.
Definition multiply_impl_xk (x : Tensor) (k : float) : M Rng Tensor :=
  unary_impl malloc this (λ v, F32.mul v k) x.
Definition divide_impl_xk (x : Tensor) (k : float) : M Rng Tensor :=
  unary_impl malloc this (λ v, F32.div v k) x.
Definition divide_impl_kx (k : float) (x : Tensor) : M Rng Tensor :=
  unary_impl malloc this (λ v, F32.div k v) x.

(** [CPUDevice::transpose_impl].  [Shape({d2, d1}, bs)] is the shape with
    these two extents, as in [dot_impl]; the extents of a well-formed
    operand are never 0, which is what the constructor refuses. *)
Definition transpose_impl (x : Tensor) : M Rng Tensor :=
  let s := shape_ x in
  let d1 := shape_at s 0 in
  let d2 := shape_at s 1 in
  let ms := umul d1 d2 in
  let bs := batch_size s in
  r <- new_tensor malloc this (mkShape [d2; d1] bs) ;;
  dest <- CDATA r ;;
  src <- CDATA x ;;
  dest' <- defined (transpose_kernel d1 d2 ms bs src dest) ;;
  commit r dest' ;;;
  ret r.

(** [CPUDevice::sum_impl]. *)
Definition sum_impl (x : Tensor) (dim : N) : M Rng Tensor :=
  let new_shape := resize_dim (shape_ x) dim 1 in
  let n := shape_at (shape_ x) dim in
  let repeat := wrap32 (num_total_elements new_shape) in
  let skip1 := wrap32 (num_elements_under_rank new_shape dim) in
  let skip2 := umul skip1 n in
  r <- new_tensor malloc this new_shape ;;
  dest <- CDATA r ;;
  src <- CDATA x ;;
  dest' <- defined (sum_kernel n repeat skip1 skip2 src dest) ;;
  commit r dest' ;;;
  ret r.

(** [CPUDevice::batch_sum_impl]. *)
Definition batch_sum_impl (x : Tensor) : M Rng Tensor :=
  r <- new_tensor malloc this (resize_batch (shape_ x) 1) ;;
  dest <- CDATA r ;;
  src <- CDATA x ;;
  let bs := batch_size (shape_ x) in
  let size := wrap32 (num_total_elements (shape_ r)) in
  dest' <- defined (batch_sum_kernel bs size src dest) ;;
  commit r dest' ;;;
  ret r.

(** [CPUDevice::add_gradient_offset_impl]. *)
Definition add_gradient_offset_impl (a b : Tensor) (dim offset : N)
    : M Rng unit :=
  let sa := shape_ a in
  let sb := shape_ b in
  let base := wrap32 (num_elements_under_rank sa dim) in
  let span := umul base (shape_at sb dim) in
  let skip := umul base (shape_at sa dim) in
  repeat <- defined (udiv (wrap32 (num_elements_per_sample sa)) skip) ;;
  let bs := N.max (batch_size sa) (batch_size sb) in
  let b_skip_d :=
    umul (b2u (1 <? batch_size sa)) (wrap32 (num_elements_per_sample sa)) in
  let b_skip_s :=
    umul (b2u (1 <? batch_size sb)) (wrap32 (num_elements_per_sample sb)) in
  h <- (get_heap Rng) ;;
  h' <- defined (add_gradient_offset_kernel span skip repeat bs
                   b_skip_d b_skip_s (umul base offset)
                   (data_ a) (data_ b) h) ;;
  put_heap Rng h'.
End Kernels.

Arguments reset_tensor_impl {Rng} x k σ.
Arguments reset_tensor_impl_values {Rng} x values σ.
Arguments duplicate_impl {Rng} malloc this x σ.
Arguments negate_impl {Rng} malloc this x σ.
Arguments add_impl_xk {Rng} malloc this x k σ.
Arguments subtract_impl_xk {Rng} malloc this x k σ.
Arguments subtract_impl_kx {Rng} malloc this k x σ.
Arguments multiply_impl_xk {Rng} malloc this x k σ.
Arguments divide_impl_xk {Rng} malloc this x k σ.
Arguments divide_impl_kx {Rng} malloc this k x σ.
Arguments transpose_impl {Rng} malloc this x σ.
Arguments sum_impl {Rng} malloc this x dim σ.
Arguments batch_sum_impl {Rng} malloc this x σ.
Arguments add_gradient_offset_impl {Rng} a b dim offset σ.

(** The error that [new_handle] throws for a shape. *)
Definition out_of_memory (s : Shape) : Error :=
  mkError [Text "Memory allocation failed. Requested size: ";
           Num (mem_size_of s)].

(** The state after a kernel has written [d] through [DATA(x)]. *)
Definition written {Rng : Type} (σ : Process Rng) (x : Tensor)
    (d : list float) : Process Rng :=
  mkProcess (<[data_ x := d]> (heap σ)) (dev σ).

(** Run in the state [σ], the kernel [m] returns a tensor of shape [s] in
    a block that was not live in [σ]; every block that was live is as it
    was; and the values of the result, as [tensor_to_vector_impl] gives
    them, are [ys]. *)
Definition computes {Rng : Type} (σ : Process Rng) (m : M Rng Tensor)
    (s : Shape) (ys : list float) : Prop :=
  ∃ r σ',
    m σ = Returns r σ'
    ∧ shape_ r = s
    ∧ heap σ !! data_ r = None
    ∧ (∀ q d, heap σ !! q = Some d -> heap σ' !! q = Some d)
    ∧ tensor_to_vector_impl r σ' = Returns ys σ'.

(** The inner product that [dot_impl] stores for row [i] and column [k]:
    the products of the [d2] elements of row [i] of the left matrix, which
    starts at [pa] and has [d1] rows, with those of column [k] of the right
    matrix, which starts at [pb] and has [d2] rows, added one after the
    other to a [float] that starts at 0. *)
Definition dot_element (a b : list float) (pa pb d1 d2 i k : N) : float :=
  fold_left
    (λ tmp j,
       F32.add tmp
         (F32.mul (default F32.zero (load a (pa + (N.of_nat j * d1 + i))))
                  (default F32.zero (load b (pb + (k * d2 + N.of_nat j))))))
    (seq 0 (N.to_nat d2)) F32.zero.

(** Run in the state [σ], the kernel [m] leaves one more handle in the
    registry, that of the tensor it returns, and does not touch the
    generator; until that tensor is disposed of, destroying the device
    aborts; and disposing of it gives back the state [σ]. *)
Definition leaves_its_result {Rng : Type} (σ : Process Rng)
    (m : M Rng Tensor) : Prop :=
  ∃ r σ',
    m σ = Returns r σ'
    ∧ blocks_ (dev σ) !! data_ r = None
    ∧ blocks_ (dev σ')
      = <[data_ r := mem_size_of (shape_ r)]> (blocks_ (dev σ))
    ∧ rng_ (dev σ') = rng_ (dev σ)
    ∧ CPUDevice_delete (dev σ') ≠ Destroyed
    ∧ delete_tensor_impl r σ' = Returns tt σ.

(** ** More of the concrete runtime *)

(** An allocator that has no memory left. *)
Definition no_memory (h : Heap) (n : N) : option (ptr * list float) := None.

(** A 3x2 matrix. *)
Definition process_3x2 : Process N :=
  with_tensor fresh_process (tensor_at 1 [3; 2] 1)
    (floats [1; 2; 3; 4; 5; 6]%Z).

(** A 2x3 tensor with two samples, and a tensor with the shape of two of
    its columns. *)
Definition process_slice : Process N :=
  with_tensor process_2x3x2 (tensor_at 2 [2; 2] 2)
    (floats [10; 20; 30; 40; 50; 60; 70; 80]%Z).

(** * Properties *)

(** ** The concrete runtime meets the contracts *)

Lemma bump_malloc_spec : malloc_spec bump_malloc.
Proof.
  intros h n p c [= <- <-].
  pose proof (is_fresh ({[nullptr]} ∪ dom h)) as Hfresh.
  repeat split.
  - intros Heq. apply Hfresh. rewrite Heq. set_solver.
  - apply not_elem_of_dom. intros Hin. apply Hfresh. set_solver.
  - apply length_replicate.
Qed.

(** ** The registry *)

Section Registry.
Context {Rng : Type}.
Variable malloc : Heap -> N -> option (ptr * list float).
Implicit Types (σ : Process Rng) (x : Tensor) (shape : Shape).

Lemma new_handle_returns σ shape p c :
  malloc (heap σ) (mem_size_of shape) = Some (p, c) ->
  new_handle malloc shape σ = Returns p (allocated σ shape p c).
Proof.
  intros Hm. unfold new_handle, bind, std_malloc, get_heap. cbn.
  rewrite Hm. reflexivity.
Qed.

Lemma new_handle_throws σ shape :
  malloc (heap σ) (mem_size_of shape) = None ->
  new_handle malloc shape σ
  = Throws (mkError [Text "Memory allocation failed. Requested size: ";
                     Num (mem_size_of shape)]) σ.
Proof.
  intros Hm. unfold new_handle, bind, std_malloc, get_heap. cbn.
  rewrite Hm. reflexivity.
Qed.

Lemma delete_tensor_throws σ x :
  blocks_ (dev σ) !! data_ x = None ->
  delete_tensor_impl x σ
  = Throws (mkError [Text "Attempted to dispose unknown memory block: ";
                     Addr (data_ x)]) σ.
Proof.
  intros Hb. unfold delete_tensor_impl, bind, get_blocks. cbn.
  rewrite Hb. reflexivity.
Qed.

Lemma delete_tensor_returns σ x sz :
  blocks_ (dev σ) !! data_ x = Some sz ->
  is_Some (heap σ !! data_ x) ->
  delete_tensor_impl x σ
  = Returns tt (mkProcess (freed (heap σ) (data_ x))
                  (mkCPUDevice (delete (data_ x) (blocks_ (dev σ)))
                               (rng_ (dev σ)))).
Proof.
  intros Hb [c Hc]. unfold delete_tensor_impl, bind, get_blocks. cbn.
  rewrite Hb. unfold put_blocks, std_free, freed. cbn.
  destruct (data_ x =? nullptr); [reflexivity |].
  unfold bind, get_heap. cbn. rewrite Hc. reflexivity.
Qed.

Lemma delete_tensor_registered σ x sz :
  blocks_ (dev σ) !! data_ x = Some sz ->
  ∀ e σ', delete_tensor_impl x σ ≠ Throws e σ'.
Proof.
  intros Hb e σ'. unfold delete_tensor_impl, bind, get_blocks. cbn.
  rewrite Hb. unfold put_blocks, std_free. cbn.
  destruct (data_ x =? nullptr); [discriminate |].
  unfold bind, get_heap. cbn. destruct (heap σ !! data_ x); discriminate.
Qed.

Lemma delete_tensor_returns_inv σ x u σ' :
  delete_tensor_impl x σ = Returns u σ' ->
  is_Some (blocks_ (dev σ) !! data_ x)
  ∧ blocks_ (dev σ') = delete (data_ x) (blocks_ (dev σ))
  ∧ heap σ' = freed (heap σ) (data_ x).
Proof.
  unfold delete_tensor_impl, bind, get_blocks. cbn.
  destruct (blocks_ (dev σ) !! data_ x) as [sz|] eqn:Hb; [| discriminate].
  unfold put_blocks, std_free, freed. cbn.
  destruct (data_ x =? nullptr).
  - intros [= <- <-]. eauto.
  - unfold bind, get_heap. cbn.
    destruct (heap σ !! data_ x); [| discriminate].
    intros [= <- <-]. eauto.
Qed.

Hypothesis malloc_ok : malloc_spec malloc.

Lemma map_insert_fresh (m : gmap N N) k v :
  m !! k = None -> map_insert k v m = <[k := v]> m.
Proof. intros Hk. unfold map_insert. rewrite Hk. reflexivity. Qed.

Lemma malloc_unregistered σ n p c :
  registry_live σ -> malloc (heap σ) n = Some (p, c) ->
  blocks_ (dev σ) !! p = None.
Proof.
  intros Hlive Hm. destruct (malloc_ok _ _ _ _ Hm) as (_ & Hfresh & _).
  destruct (blocks_ (dev σ) !! p) eqn:Hb; [| reflexivity].
  destruct (Hlive p) as [c' Hc']; [by rewrite Hb |]. congruence.
Qed.

Lemma allocated_live σ shape p c :
  registry_live σ -> registry_live (allocated σ shape p c).
Proof.
  intros Hlive q. unfold allocated, map_insert. cbn. intros Hq.
  apply lookup_insert_is_Some'.
  destruct (blocks_ (dev σ) !! p).
  - right. by apply Hlive.
  - apply lookup_insert_is_Some' in Hq as [-> | Hq]; [by left |].
    right. by apply Hlive.
Qed.

Lemma new_handle_returns_inv σ shape p σ' :
  new_handle malloc shape σ = Returns p σ' ->
  ∃ c, malloc (heap σ) (mem_size_of shape) = Some (p, c)
       ∧ σ' = allocated σ shape p c.
Proof.
  destruct (malloc (heap σ) (mem_size_of shape)) as [[q c]|] eqn:Hm.
  - rewrite (new_handle_returns _ _ _ _ Hm). intros [= <- <-]. eauto.
  - rewrite (new_handle_throws _ _ Hm). discriminate.
Qed.

Lemma serve_step σ r :
  registry_live σ ->
  ∃ e σ', serve malloc r σ = Returns e σ'
    ∧ registry_live σ'
    ∧ (size (blocks_ (dev σ)) + (if is_allocated e then 1 else 0)
       = size (blocks_ (dev σ')) + (if is_disposed e then 1 else 0))%nat.
Proof.
  intros Hlive. destruct r as [shape | x]; unfold serve.
  - destruct (malloc (heap σ) (mem_size_of shape)) as [[p c]|] eqn:Hm.
    + rewrite (new_handle_returns _ _ _ _ Hm).
      eexists _, _. split; [reflexivity |].
      split; [by apply allocated_live |]. cbn.
      rewrite map_insert_fresh by eauto using malloc_unregistered.
      rewrite map_size_insert_None by eauto using malloc_unregistered. lia.
    + rewrite (new_handle_throws _ _ Hm).
      eexists _, _. split; [reflexivity |]. split; [done |]. cbn. lia.
  - destruct (blocks_ (dev σ) !! data_ x) as [sz|] eqn:Hb.
    + assert (is_Some (heap σ !! data_ x)) as Hh
        by (apply Hlive; by rewrite Hb).
      rewrite (delete_tensor_returns _ _ _ Hb Hh).
      eexists _, _. split; [reflexivity |]. split.
      * intros q. cbn. rewrite lookup_delete_is_Some. intros [Hne Hq].
        unfold freed. destruct (data_ x =? nullptr); [by apply Hlive |].
        apply lookup_delete_is_Some. split; [done | by apply Hlive].
      * cbn. rewrite map_size_delete_Some by (by rewrite Hb).
        assert (size (blocks_ (dev σ)) ≠ 0%nat)
          by (apply map_size_ne_0_lookup_2 with (data_ x); by rewrite Hb).
        lia.
    + rewrite (delete_tensor_throws _ _ Hb).
      eexists _, _. split; [reflexivity |]. split; [done |]. cbn. lia.
Qed.

Lemma count_cons f e es :
  count f (e :: es) = ((if f e then 1 else 0) + count f es)%nat.
Proof.
  unfold count. rewrite filter_cons.
  destruct (f e); case_decide; cbn; congruence.
Qed.

Lemma serve_all_balance rs : ∀ σ,
  registry_live σ ->
  ∃ es σ', serve_all malloc rs σ = Returns es σ'
    ∧ registry_live σ'
    ∧ (size (blocks_ (dev σ)) + count is_allocated es
       = size (blocks_ (dev σ')) + count is_disposed es)%nat.
Proof.
  induction rs as [| r rs IH]; intros σ Hlive.
  - exists [], σ. cbn. unfold count. cbn. auto.
  - destruct (serve_step σ r Hlive) as (e & σ1 & He & Hlive1 & Hsz1).
    destruct (IH σ1 Hlive1) as (es & σ2 & Hes & Hlive2 & Hsz2).
    exists (e :: es), σ2. simpl serve_all. unfold bind. rewrite He, Hes.
    split; [reflexivity |]. split; [done |].
    rewrite !count_cons. lia.
Qed.

Lemma leak_report (d : CPUDevice Rng) :
  blocks_ d ≠ ∅ ->
  ∃ leaked,
    CPUDevice_delete d
    = Aborted ([Text "FATAL ERROR: Detected memory leak on CPUDevice!"]
               :: [Text "Leaked blocks (handle: size):"] :: leaked)
    ∧ ∀ p sz, blocks_ d !! p = Some sz
              ↔ [Text "  "; Addr p; Text ": "; Num sz] ∈ leaked.
Proof.
  intros Hne. unfold CPUDevice_delete. case_decide; [done |].
  eexists. split; [reflexivity |]. intros p sz.
  rewrite list_elem_of_fmap. split.
  - intros Hp. exists (p, sz). split; [done |].
    by apply elem_of_map_to_list.
  - intros ([q sz'] & [= <- <-] & Hin). by apply elem_of_map_to_list.
Qed.
Lemma serve_alloc σ shape :
  registry_live σ ->
  match malloc (heap σ) (mem_size_of shape) with
  | Some (p, c) =>
      blocks_ (dev σ) !! p = None
      ∧ serve malloc (Alloc shape) σ
        = Returns (Allocated p) (allocated σ shape p c)
  | None =>
      ∃ e, serve malloc (Alloc shape) σ = Returns (Failed e) σ
  end.
Proof.
  intros Hlive. unfold serve.
  destruct (malloc (heap σ) (mem_size_of shape)) as [[p c]|] eqn:Hm.
  - rewrite (new_handle_returns _ _ _ _ Hm).
    eauto using malloc_unregistered.
  - rewrite (new_handle_throws _ _ Hm). eauto.
Qed.

Lemma serve_dispose σ x :
  registry_live σ ->
  match blocks_ (dev σ) !! data_ x with
  | Some _ =>
      serve malloc (Dispose x) σ
      = Returns (Disposed (data_ x))
          (mkProcess (freed (heap σ) (data_ x))
             (mkCPUDevice (delete (data_ x) (blocks_ (dev σ)))
                          (rng_ (dev σ))))
  | None =>
      ∃ e, serve malloc (Dispose x) σ = Returns (Failed e) σ
  end.
Proof.
  intros Hlive. unfold serve.
  destruct (blocks_ (dev σ) !! data_ x) as [sz|] eqn:Hb.
  - assert (is_Some (heap σ !! data_ x)) as Hh
      by (apply Hlive; by rewrite Hb).
    by rewrite (delete_tensor_returns _ _ _ Hb Hh).
  - rewrite (delete_tensor_throws _ _ Hb). eauto.
Qed.

Lemma serve_step_outstanding σ r :
  registry_live σ ->
  ∃ e σ', serve malloc r σ = Returns e σ'
    ∧ registry_live σ'
    ∧ dom (blocks_ (dev σ')) = outstanding_after (dom (blocks_ (dev σ))) e.
Proof.
  intros Hlive. destruct r as [shape | x].
  - pose proof (serve_alloc σ shape Hlive) as Hs.
    destruct (malloc (heap σ) (mem_size_of shape)) as [[p c]|].
    + destruct Hs as [Hp ->]. eexists _, _. split; [done |].
      split; [by apply allocated_live |]. cbn.
      rewrite map_insert_fresh by done. by rewrite dom_insert_L.
    + destruct Hs as [e ->]. by eexists _, _.
  - pose proof (serve_dispose σ x Hlive) as Hs.
    destruct (blocks_ (dev σ) !! data_ x) as [sz|] eqn:Hb.
    + rewrite Hs. eexists _, _. split; [done |]. split.
      * intros q. cbn. rewrite lookup_delete_is_Some. intros [Hne Hq].
        unfold freed. destruct (data_ x =? nullptr); [by apply Hlive |].
        apply lookup_delete_is_Some. split; [done | by apply Hlive].
      * cbn. by rewrite dom_delete_L.
    + destruct Hs as [e ->]. by eexists _, _.
Qed.

Lemma serve_all_outstanding rs : ∀ σ,
  registry_live σ ->
  ∃ es σ', serve_all malloc rs σ = Returns es σ'
    ∧ registry_live σ'
    ∧ dom (blocks_ (dev σ'))
      = foldl outstanding_after (dom (blocks_ (dev σ))) es.
Proof.
  induction rs as [| r rs IH]; intros σ Hlive.
  - by exists [], σ.
  - destruct (serve_step_outstanding σ r Hlive) as (e & σ1 & He & Hlive1 & Hd1).
    destruct (IH σ1 Hlive1) as (es & σ2 & Hes & Hlive2 & Hd2).
    exists (e :: es), σ2. simpl serve_all. unfold bind. rewrite He, Hes.
    split; [reflexivity |]. split; [done |]. cbn. by rewrite <- Hd1.
Qed.
End Registry.

(** C7.  The block registry holds exactly the outstanding handles.
    [new_handle] succeeds exactly when [malloc] returns a block, and then
    adds one entry, keyed by the pointer it returns, which was not there
    before; [delete_tensor_impl] succeeds exactly when the data pointer
    is a key of the registry, and then removes that entry and no other.
    Hence, whatever a client asks of a newly constructed device, every
    request is served, the keys of the registry are the handles that were
    allocated and not disposed of since, and the registry is empty once
    every handle was disposed of.  Destroying the device is silent when
    the registry is empty and otherwise aborts after a report that lists
    exactly the entries of the registry. *)
Theorem registry_tracks_outstanding_handles {Rng : Type}
    (malloc : Heap -> N -> option (ptr * list float))
    (malloc_ok : malloc_spec malloc) :
  (∀ (σ : Process Rng) shape,
     registry_live σ ->
     match malloc (heap σ) (mem_size_of shape) with
     | Some (p, _) =>
         ∃ σ', new_handle malloc shape σ = Returns p σ'
               ∧ blocks_ (dev σ) !! p = None
               ∧ blocks_ (dev σ')
                 = <[p := mem_size_of shape]> (blocks_ (dev σ))
               ∧ registry_live σ'
     | None => ∃ e, new_handle malloc shape σ = Throws e σ
     end)
  ∧ (∀ (σ σ' : Process Rng) shape p,
       registry_live σ ->
       new_handle malloc shape σ = Returns p σ' ->
       blocks_ (dev σ) !! p = None
       ∧ blocks_ (dev σ') = <[p := mem_size_of shape]> (blocks_ (dev σ))
       ∧ registry_live σ')
  ∧ (∀ (σ : Process Rng) x,
       registry_live σ ->
       match blocks_ (dev σ) !! data_ x with
       | Some _ =>
           ∃ σ', delete_tensor_impl x σ = Returns tt σ'
                 ∧ blocks_ (dev σ') = delete (data_ x) (blocks_ (dev σ))
                 ∧ registry_live σ'
       | None => ∃ e, delete_tensor_impl x σ = Throws e σ
       end)
  ∧ (∀ (σ σ' : Process Rng) x u,
       delete_tensor_impl x σ = Returns u σ' ->
       is_Some (blocks_ (dev σ) !! data_ x)
       ∧ blocks_ (dev σ') = delete (data_ x) (blocks_ (dev σ)))
  ∧ (∀ (h : Heap) (rng : Rng) requests,
       ∃ events σ',
         serve_all malloc requests (mkProcess h (CPUDevice_new rng))
         = Returns events σ'
         ∧ dom (blocks_ (dev σ')) = outstanding events
         ∧ count is_allocated events
           = (size (blocks_ (dev σ')) + count is_disposed events)%nat
         ∧ (outstanding events = ∅ ->
            blocks_ (dev σ') = ∅ ∧ CPUDevice_delete (dev σ') = Destroyed)
         ∧ (count is_allocated events = count is_disposed events ->
            blocks_ (dev σ') = ∅))
  ∧ (∀ d : CPUDevice Rng,
       (blocks_ d = ∅ -> CPUDevice_delete d = Destroyed)
       ∧ (blocks_ d ≠ ∅ ->
          ∃ leaked,
            CPUDevice_delete d
            = Aborted ([Text "FATAL ERROR: Detected memory leak on CPUDevice!"]
                       :: [Text "Leaked blocks (handle: size):"] :: leaked)
            ∧ ∀ p sz, blocks_ d !! p = Some sz
                      ↔ [Text "  "; Addr p; Text ": "; Num sz] ∈ leaked)).
Proof.
  assert (∀ d : CPUDevice Rng, blocks_ d = ∅ -> CPUDevice_delete d = Destroyed)
    as Hsilent.
  { intros d Hd. unfold CPUDevice_delete. by case_decide. }
  repeat apply conj.
  - intros σ shape Hlive.
    destruct (malloc (heap σ) (mem_size_of shape)) as [[p c]|] eqn:Hm.
    + pose proof (malloc_unregistered malloc malloc_ok _ _ _ _ Hlive Hm) as Hp.
      exists (allocated σ shape p c).
      split; [by apply new_handle_returns |]. split; [done |].
      split; [| by apply allocated_live]. cbn. by apply map_insert_fresh.
    + eexists. by apply new_handle_throws.
  - intros σ σ' shape p Hlive Hnew.
    destruct (new_handle_returns_inv malloc _ _ _ _ Hnew) as (c & Hm & ->).
    pose proof (malloc_unregistered malloc malloc_ok _ _ _ _ Hlive Hm) as Hp.
    split; [done |]. split; [| by apply allocated_live].
    cbn. by apply map_insert_fresh.
  - intros σ x Hlive.
    destruct (blocks_ (dev σ) !! data_ x) as [sz|] eqn:Hb.
    + assert (is_Some (heap σ !! data_ x)) as Hh
        by (apply Hlive; by rewrite Hb).
      eexists. split; [by apply (delete_tensor_returns _ _ _ Hb Hh) |].
      split; [done |].
      intros q. cbn. rewrite lookup_delete_is_Some. intros [Hne Hq].
      unfold freed. destruct (data_ x =? nullptr); [by apply Hlive |].
      apply lookup_delete_is_Some. split; [done | by apply Hlive].
    + eexists. by apply delete_tensor_throws.
  - intros σ σ' x u Hdel.
    destruct (delete_tensor_returns_inv _ _ _ _ Hdel) as (? & ? & _). done.
  - intros h rng requests.
    assert (registry_live (mkProcess h (CPUDevice_new rng))) as Hlive.
    { intros p. cbn. rewrite lookup_empty. by intros [? ?]. }
    destruct (serve_all_balance malloc malloc_ok requests _ Hlive)
      as (es & σ' & Hrun & _ & Hsz).
    destruct (serve_all_outstanding malloc malloc_ok requests _ Hlive)
      as (es' & σ'' & Hrun' & _ & Hdom).
    rewrite Hrun in Hrun'. injection Hrun' as <- <-.
    exists es, σ'. cbn in Hsz, Hdom. rewrite map_size_empty in Hsz.
    rewrite dom_empty_L in Hdom.
    split; [done |]. split; [done |]. split; [lia |]. split.
    + intros Hnone. unfold outstanding in Hnone. rewrite Hnone in Hdom.
      apply dom_empty_inv_L in Hdom. auto.
    + intros Heq. apply map_size_empty_inv. lia.
  - intros d. split; [apply Hsilent | apply leak_report].
Qed.

(** C8.  [delete_tensor_impl] throws exactly when the data pointer of the
    tensor is not in the registry; the throw leaves the whole state, the
    registry and the heap, as it was. *)
Theorem delete_tensor_throws_iff_unknown {Rng : Type} (σ : Process Rng)
    (x : Tensor) :
  ((∃ e σ', delete_tensor_impl x σ = Throws e σ')
   ↔ blocks_ (dev σ) !! data_ x = None)
  ∧ (∀ e σ', delete_tensor_impl x σ = Throws e σ' ->
       σ' = σ
       ∧ e = mkError [Text "Attempted to dispose unknown memory block: ";
                      Addr (data_ x)]).
Proof.
  destruct (blocks_ (dev σ) !! data_ x) as [sz|] eqn:Hb.
  - split.
    + split; [| discriminate].
      intros (e & σ' & He). by destruct (delete_tensor_registered _ _ _ Hb e σ').
    + intros e σ' He. by destruct (delete_tensor_registered _ _ _ Hb e σ').
  - rewrite (delete_tensor_throws _ _ Hb). split.
    + split; [done | eauto].
    + by intros e σ' [= <- <-].
Qed.

(** C9.  [broadcast_impl] throws "not implemented" for every tensor and
    axis; no tensor is returned and the state, heap and registry, is the
    one it was called in. *)
Theorem broadcast_not_implemented {Rng : Type} (σ : Process Rng)
    (x : Tensor) (dim : N) :
  broadcast_impl x dim σ = Throws (mkError [Text "not implemented"]) σ.
Proof. reflexivity. Qed.

(** ** Loops and buffers *)

Section Loops.
Context {S : Type}.
Implicit Types (body : N -> S -> option S) (I : N -> S -> Prop).

Lemma repeat_from_inv body I n : ∀ i s,
  I i s ->
  (∀ j s, i <= j < i + N.of_nat n -> I j s ->
     ∃ s', body j s = Some s' ∧ I (N.succ j) s') ->
  ∃ s', repeat_from body i n s = Some s' ∧ I (i + N.of_nat n) s'.
Proof.
  induction n as [| n IH]; intros i s Hi Hstep.
  - exists s. split; [done |]. by rewrite N.add_0_r.
  - destruct (Hstep i s) as (s1 & Hb & H1); [lia | done |].
    destruct (IH (N.succ i) s1) as (s2 & Hr & H2); [done | |].
    { intros j t Hj. apply Hstep. lia. }
    exists s2. cbn. rewrite Hb. cbn. split; [done |].
    by replace (i + N.of_nat (Datatypes.S n)) with (N.succ i + N.of_nat n) by lia.
Qed.

(** The rule for a counted loop: an invariant that holds at 0 and is
    carried by every round holds at [n], and the loop has a result. *)
Lemma REPEAT_OP_inv I n body s :
  I 0 s ->
  (∀ j s, j < n -> I j s -> ∃ s', body j s = Some s' ∧ I (N.succ j) s') ->
  ∃ s', REPEAT_OP n body s = Some s' ∧ I n s'.
Proof.
  intros H0 Hstep. unfold REPEAT_OP.
  destruct (repeat_from_inv body I (N.to_nat n) 0 s) as (s' & Hr & Hn);
    [done | |].
  { intros j t Hj. apply Hstep. lia. }
  exists s'. split; [done |]. by rewrite N.add_0_l, N2Nat.id in Hn.
Qed.
End Loops.

Lemma load_lt buf i : i < N.of_nat (length buf) -> is_Some (load buf i).
Proof. intros Hi. apply lookup_lt_is_Some. lia. Qed.

Lemma load_Some_lt buf i v : load buf i = Some v -> i < N.of_nat (length buf).
Proof. intros Hi. apply lookup_lt_Some in Hi. lia. Qed.

Lemma load_ge buf i : N.of_nat (length buf) <= i -> load buf i = None.
Proof. intros Hi. apply lookup_ge_None. lia. Qed.

Lemma store_spec buf i v :
  i < N.of_nat (length buf) ->
  ∃ buf', store buf i v = Some buf'
    ∧ length buf' = length buf
    ∧ load buf' i = Some v
    ∧ ∀ j, j ≠ i -> load buf' j = load buf j.
Proof.
  intros Hi. exists (<[N.to_nat i := v]> buf). unfold store, load.
  apply N.ltb_lt in Hi as Hi'. rewrite Hi'. split; [done |].
  split; [apply length_insert |]. split.
  - apply list_lookup_insert_eq. lia.
  - intros j Hj. apply list_lookup_insert_ne. lia.
Qed.

(** Two buffers with the same length and the same loads are equal. *)
Lemma buffer_eq (b1 b2 : list float) :
  length b1 = length b2 ->
  (∀ i, i < N.of_nat (length b1) -> load b1 i = load b2 i) ->
  b1 = b2.
Proof.
  intros Hlen Hld. apply list_eq. intros k.
  destruct (decide (k < length b1)%nat) as [Hk | Hk].
  - specialize (Hld (N.of_nat k)). unfold load in Hld.
    rewrite Nat2N.id in Hld. apply Hld. lia.
  - rewrite !lookup_ge_None_2 by lia. done.
Qed.

Lemma load_fmap (f : float -> float) buf i :
  load (f <$> buf) i = f <$> load buf i.
Proof. apply list_lookup_fmap. Qed.

(** ** Element-wise kernels *)

Lemma unary_kernel_spec f size src dest :
  N.of_nat (length src) = size -> N.of_nat (length dest) = size ->
  unary_kernel f size src dest = Some (f <$> src).
Proof.
  intros Hsrc Hdest. unfold unary_kernel.
  destruct (REPEAT_OP_inv
    (λ j d, length d = length dest
            ∧ ∀ k, k < j -> load d k = f <$> load src k)
    size (λ i d, x ← load src i; store d i (f x)) dest)
    as (d & Hrun & Hlen & Hd).
  - split; [done |]. intros k Hk. lia.
  - intros j d Hj [Hlen Hd].
    destruct (load_lt src j) as [x Hx]; [lia |].
    destruct (store_spec d j (f x)) as (d' & Hst & Hlen' & Hjj & Hother);
      [lia |].
    exists d'. rewrite Hx. cbn. split; [done |]. split; [congruence |].
    intros k Hk. destruct (decide (k = j)) as [-> | Hne].
    + by rewrite Hjj, Hx.
    + rewrite Hother by done. apply Hd. lia.
  - rewrite Hrun. f_equal. apply buffer_eq.
    + rewrite length_fmap. lia.
    + intros i Hi. rewrite load_fmap. apply Hd. lia.
Qed.

Lemma wrap32_add_l a b : wrap32 (wrap32 a + b) = wrap32 (a + b).
Proof. unfold wrap32. apply N.Div0.add_mod_idemp_l. Qed.

(** A loop that advances its counter by [d1] modulo 2^32 from 0 and leaves
    when the counter is no longer below [d1 * d3] modulo 2^32 makes at
    most [d3] rounds: the fuel given to the middle loop of [dot_kernel]
    never runs out. *)
Lemma for_while_fuel_suffices {S : Type} (ky : S -> N)
    (body : S -> option S) (d1 d3 : N) :
  (∀ s, ∃ s', body s = Some s' ∧ ky s' = uadd (ky s) d1) ->
  ∀ s, ky s = 0 ->
    is_Some (for_while (N.to_nat d3) (λ s, ky s <? umul d1 d3) body s).
Proof.
  intros Hbody.
  assert (∀ fuel k s,
            N.of_nat fuel + k = d3 -> ky s = wrap32 (k * d1) ->
            is_Some (for_while fuel (λ s, ky s <? umul d1 d3) body s))
    as Hgen.
  { induction fuel as [| fuel IH]; intros k s Hk Hky.
    - cbn. assert (k = d3) as -> by lia.
      unfold umul. rewrite Hky, (N.mul_comm d1 d3), N.ltb_irrefl. eauto.
    - cbn. destruct (ky s <? umul d1 d3); [| eauto].
      destruct (Hbody s) as (s' & Hs' & Hky'). rewrite Hs'. cbn.
      apply (IH (N.succ k)); [lia |].
      rewrite Hky', Hky. unfold uadd. rewrite wrap32_add_l. f_equal. lia. }
  intros s Hs. apply (Hgen (N.to_nat d3) 0); [lia |]. by rewrite Hs.
Qed.

Lemma wrap32_small x : x < 2 ^ 32 -> wrap32 x = x.
Proof. apply N.mod_small. Qed.

Lemma fits_total s : fits s -> wrap32 (num_total_elements s) = num_total_elements s.
Proof. unfold fits, sizeof_float. intros H. apply wrap32_small. lia. Qed.

Lemma fits_mem_size_of s :
  fits s -> mem_size_of s / sizeof_float = num_total_elements s.
Proof.
  intros H. unfold mem_size_of, umul. rewrite fits_total by done.
  rewrite wrap32_small by done. unfold sizeof_float.
  rewrite N.mul_comm. by apply N.div_mul.
Qed.

(** ** Allocate, compute, store back *)

Section Storage.
Context {Rng : Type}.
Variable malloc : Heap -> N -> option (ptr * list float).
Variable this : ptr.
Hypothesis malloc_ok : malloc_spec malloc.
Implicit Types (σ : Process Rng) (x : Tensor) (s : Shape).

Lemma new_tensor_returns σ s p c :
  malloc (heap σ) (mem_size_of s) = Some (p, c) ->
  new_tensor malloc this s σ = Returns (mkTensor s this p) (allocated σ s p c).
Proof.
  intros Hm. unfold new_tensor, bind.
  by rewrite (new_handle_returns _ _ _ _ _ Hm).
Qed.

Lemma fresh_block σ s p c :
  fits s -> malloc (heap σ) (mem_size_of s) = Some (p, c) ->
  heap σ !! p = None ∧ N.of_nat (length c) = num_total_elements s.
Proof.
  intros Hfit Hm. destruct (malloc_ok _ _ _ _ Hm) as (_ & Hfresh & Hlen).
  split; [done |]. rewrite Hlen, fits_mem_size_of by done. lia.
Qed.

Lemma CDATA_new σ s p c :
  CDATA (mkTensor s this p) (allocated σ s p c)
  = Returns c (allocated σ s p c).
Proof.
  unfold CDATA, bind, get_heap, defined. cbn.
  by rewrite lookup_insert_eq.
Qed.

Lemma CDATA_old σ s p c x xs :
  heap σ !! p = None -> heap σ !! data_ x = Some xs ->
  CDATA x (allocated σ s p c) = Returns xs (allocated σ s p c).
Proof.
  intros Hp Hx. unfold CDATA, bind, get_heap, defined. cbn.
  rewrite lookup_insert_ne by congruence. by rewrite Hx.
Qed.

Lemma commit_new σ s p c d :
  commit (mkTensor s this p) d (allocated σ s p c)
  = Returns tt (allocated σ s p d).
Proof.
  unfold commit, bind, get_heap, put_heap, allocated. cbn.
  by rewrite insert_insert_eq.
Qed.

Lemma to_vector_new σ s p d :
  fits s -> N.of_nat (length d) = num_total_elements s ->
  tensor_to_vector_impl (mkTensor s this p) (allocated σ s p d)
  = Returns d (allocated σ s p d).
Proof.
  intros Hfit Hlen. unfold tensor_to_vector_impl, bind. cbn [shape_].
  rewrite CDATA_new, fits_total by done.
  rewrite <- Hlen, N.leb_refl. unfold ret. f_equal.
  rewrite Nat2N.id. apply firstn_all.
Qed.

Lemma unary_impl_returns f σ x xs p c :
  holds σ x xs -> fits (shape_ x) ->
  malloc (heap σ) (mem_size_of (shape_ x)) = Some (p, c) ->
  unary_impl malloc this f x σ
  = Returns (mkTensor (shape_ x) this p) (allocated σ (shape_ x) p (f <$> xs)).
Proof.
  intros [Hx Hlen] Hfit Hm.
  destruct (fresh_block _ _ _ _ Hfit Hm) as [Hp Hc].
  unfold unary_impl, bind.
  rewrite (new_tensor_returns _ _ _ _ Hm), CDATA_new.
  rewrite (CDATA_old _ _ _ _ _ _ Hp Hx), fits_total by done.
  rewrite unary_kernel_spec by done. cbn [defined].
  by rewrite commit_new.
Qed.
End Storage.

(** ** [relu] and [step] on one element *)

Lemma relu_elem_nonneg x :
  F32.is_nan x = false -> F32.geb (relu_elem x) F32.zero = true.
Proof. by destruct x as [[]|[]| |[] m e]. Qed.

Lemma relu_elem_nan x : F32.is_nan x = true -> relu_elem x = S754_nan.
Proof. by destruct x as [[]|[]| |[] m e]. Qed.

Lemma relu_elem_zero_iff x :
  F32.eqb (relu_elem x) F32.zero = true ↔ F32.leb x F32.zero = true.
Proof. by destruct x as [[]|[]| |[] m e]. Qed.

Lemma step_elem_cases x : step_elem x = F32.zero ∨ step_elem x = F32.one.
Proof. destruct x as [[]|[]| |[] m e]; by (left + right). Qed.

Lemma step_elem_one_iff x :
  step_elem x = F32.one ↔ F32.gtb x F32.zero = true.
Proof. by destruct x as [[]|[]| |[] m e]. Qed.

Lemma draws_length {A Rng : Type} (dist : Rng -> A * Rng) n : ∀ g,
  length (draws dist n g).1 = n.
Proof.
  induction n as [| n IH]; intros g; [done |]. cbn.
  destruct (dist g) as [x g']. specialize (IH g').
  destruct (draws dist n g') as [xs g'']. cbn in *. by rewrite IH.
Qed.

Lemma draws_Forall {A Rng : Type} (dist : Rng -> A * Rng) (P : A -> Prop) n :
  (∀ g, P (dist g).1) -> ∀ g, Forall P (draws dist n g).1.
Proof.
  intros HP. induction n as [| n IH]; intros g; [by constructor |]. cbn.
  specialize (HP g). destruct (dist g) as [x g']. specialize (IH g').
  destruct (draws dist n g') as [xs g'']. by constructor.
Qed.

Lemma fill_from {A Rng : Type} (dist : Rng -> A * Rng) (F : A -> float) n :
  ∀ i dest g,
    (N.to_nat i + n <= length dest)%nat ->
    repeat_from (λ i '(dest, rng),
                   let '(x, rng') := dist rng in
                   dest' ← store dest i (F x);
                   Some (dest', rng')) i n (dest, g)
    = Some (take (N.to_nat i) dest ++ (F <$> (draws dist n g).1)
              ++ drop (N.to_nat i + n) dest,
            (draws dist n g).2).
Proof.
  induction n as [| n IH]; intros i dest g Hlen.
  - cbn. by rewrite Nat.add_0_r, take_drop.
  - cbn. destruct (dist g) as [x g'].
    destruct (store_spec dest i (F x)) as (d' & Hst & Hlen' & _); [lia |].
    rewrite Hst. cbn. rewrite IH by lia.
    destruct (draws dist n g') as [xs g'']. cbn. f_equal. f_equal.
    unfold store in Hst. case_match; [| done]. injection Hst as <-.
    rewrite N2Nat.inj_succ.
    rewrite (take_S_r _ _ (F x)) by (apply list_lookup_insert_eq; lia).
    rewrite take_insert_ge by lia.
    rewrite drop_insert_lt by lia.
    rewrite <- app_assoc. cbn.
    by replace (N.to_nat i + S n)%nat with (S (N.to_nat i + n)) by lia.
Qed.

Lemma fill_all {A Rng : Type} (dist : Rng -> A * Rng) (F : A -> float)
    size dest g :
  N.of_nat (length dest) = size ->
  REPEAT_OP size (λ i '(dest, rng),
                    let '(x, rng') := dist rng in
                    dest' ← store dest i (F x);
                    Some (dest', rng')) (dest, g)
  = Some (F <$> (draws dist (N.to_nat size) g).1,
          (draws dist (N.to_nat size) g).2).
Proof.
  intros Hlen. unfold REPEAT_OP. rewrite fill_from by lia.
  cbn. rewrite drop_ge by lia. by rewrite app_nil_r.
Qed.

(** A counted loop whose body fails in round [m] has no result. *)
Lemma repeat_from_fails {S : Type} (body : N -> S -> option S)
    (I : N -> S -> Prop) (m : N) (n : nat) : ∀ i s,
  i <= m < i + N.of_nat n ->
  I i s ->
  (∀ j s, i <= j < m -> I j s ->
     ∃ s', body j s = Some s' ∧ I (N.succ j) s') ->
  (∀ s, I m s -> body m s = None) ->
  repeat_from body i n s = None.
Proof.
  induction n as [| n IH]; intros i s Hm Hi Hstep Hfail; [lia |].
  cbn. destruct (decide (i = m)) as [-> | Hne].
  - by rewrite Hfail.
  - destruct (Hstep i s) as (s' & -> & Hs'); [lia | done |]. cbn.
    apply (IH (N.succ i)); [lia | done | | done].
    intros j t Hj. apply Hstep. lia.
Qed.

Lemma REPEAT_OP_fails {S : Type} (body : N -> S -> option S)
    (I : N -> S -> Prop) (m n : N) (s : S) :
  m < n ->
  I 0 s ->
  (∀ j s, j < m -> I j s -> ∃ s', body j s = Some s' ∧ I (N.succ j) s') ->
  (∀ s, I m s -> body m s = None) ->
  REPEAT_OP n body s = None.
Proof.
  intros Hm H0 Hstep Hfail. unfold REPEAT_OP.
  apply (repeat_from_fails body I m); [lia | done | | done].
  intros j t Hj. apply Hstep. lia.
Qed.

Lemma store_overrun buf i v :
  N.of_nat (length buf) <= i -> store buf i v = None.
Proof. intros Hi. unfold store. by apply N.ltb_ge in Hi as ->. Qed.

Lemma fill_kernel_overrun k size dest :
  N.of_nat (length dest) < size -> fill_kernel k size dest = None.
Proof.
  intros Hshort. unfold fill_kernel.
  apply (REPEAT_OP_fails _ (λ _ d, length d = length dest)
           (N.of_nat (length dest))); [done | done | |].
  - intros j d Hj Hlen.
    destruct (store_spec d j k) as (d' & Hst & Hlen' & _); [lia |].
    exists d'. split; [done | congruence].
  - intros d Hlen. apply store_overrun. lia.
Qed.

Lemma random_fill_overrun {A Rng : Type} (dist : Rng -> A * Rng)
    (F : A -> float) size dest g :
  N.of_nat (length dest) < size ->
  REPEAT_OP size (λ i '(dest, rng),
      let '(x, rng') := dist rng in
      dest' ← store dest i (F x);
      Some (dest', rng')) (dest, g)
  = None.
Proof.
  intros Hshort.
  apply (REPEAT_OP_fails _ (λ _ '(d, _), length d = length dest)
           (N.of_nat (length dest))); [done | done | |].
  - intros j [d g'] Hj Hlen. destruct (dist g') as [x g''].
    destruct (store_spec d j (F x)) as (d' & Hst & Hlen' & _); [lia |].
    rewrite Hst. cbn. eexists. split; [reflexivity | congruence].
  - intros [d g'] Hlen. destruct (dist g') as [x g''].
    rewrite store_overrun by lia. done.
Qed.

Section Random.
Context {Rng : Type}.
Variable malloc : Heap -> N -> option (ptr * list float).
Variable this : ptr.
Hypothesis malloc_ok : malloc_spec malloc.
Implicit Types (σ : Process Rng) (s : Shape).

Lemma to_vector_drawn σ s p d g :
  fits s -> N.of_nat (length d) = num_total_elements s ->
  tensor_to_vector_impl (mkTensor s this p) (drawn σ s p d g)
  = Returns d (drawn σ s p d g).
Proof.
  intros Hfit Hlen. unfold tensor_to_vector_impl, bind, CDATA, get_heap.
  cbn. rewrite lookup_insert_eq. cbn. rewrite fits_total by done.
  rewrite <- Hlen, N.leb_refl. unfold ret. f_equal.
  rewrite Nat2N.id. apply firstn_all.
Qed.

Lemma random_bernoulli_returns dist σ s prob p c :
  fits s -> malloc (heap σ) (mem_size_of s) = Some (p, c) ->
  let n := N.to_nat (num_total_elements s) in
  let g := rng_ (dev σ) in
  random_bernoulli_impl malloc dist this s prob σ
  = Returns (mkTensor s this p)
      (drawn σ s p (F32.of_bool <$> (draws (dist prob) n g).1)
         (draws (dist prob) n g).2).
Proof.
  intros Hfit Hm n g.
  destruct (fresh_block _ malloc_ok _ _ _ _ Hfit Hm) as [Hp Hc].
  unfold random_bernoulli_impl, bind.
  rewrite (new_tensor_returns _ this _ _ _ _ Hm), CDATA_new.
  rewrite fits_total by done. cbn [get_rng].
  unfold bernoulli_kernel.
  rewrite (fill_all (dist prob) F32.of_bool) by done. cbn [defined].
  rewrite commit_new. reflexivity.
Qed.

Lemma random_uniform_returns dist σ s lower upper p c :
  fits s -> malloc (heap σ) (mem_size_of s) = Some (p, c) ->
  let n := N.to_nat (num_total_elements s) in
  let g := rng_ (dev σ) in
  random_uniform_impl malloc dist this s lower upper σ
  = Returns (mkTensor s this p)
      (drawn σ s p
         (uniform_elem lower upper <$> (draws (dist lower upper) n g).1)
         (draws (dist lower upper) n g).2).
Proof.
  intros Hfit Hm n g.
  destruct (fresh_block _ malloc_ok _ _ _ _ Hfit Hm) as [Hp Hc].
  unfold random_uniform_impl, bind.
  rewrite (new_tensor_returns _ this _ _ _ _ Hm), CDATA_new.
  rewrite fits_total by done. cbn [get_rng].
  unfold uniform_kernel.
  rewrite (fill_all (dist lower upper) (uniform_elem lower upper)) by done.
  cbn [defined]. rewrite commit_new. reflexivity.
Qed.

Lemma random_bernoulli_overruns dist σ s prob p c :
  malloc (heap σ) (mem_size_of s) = Some (p, c) ->
  N.of_nat (length c) < wrap32 (num_total_elements s) ->
  random_bernoulli_impl malloc dist this s prob σ = Undefined.
Proof.
  intros Hm Hshort. unfold random_bernoulli_impl, bind.
  rewrite (new_tensor_returns _ this _ _ _ _ Hm), CDATA_new.
  cbn [get_rng]. unfold bernoulli_kernel.
  by rewrite (random_fill_overrun (dist prob) F32.of_bool).
Qed.

End Random.

(** ** Comparison of binary32 values *)







(** C10, as the code has it.  For a shape whose storage size is an
    [unsigned] value and a successful allocation, [random_bernoulli_impl]
    returns a tensor of the requested shape whose elements are each
    exactly 0.0 or exactly 1.0, whatever the probability: they are the
    draws of the distribution, converted. *)
Theorem random_bernoulli_zero_or_one {Rng : Type}
    (malloc : Heap -> N -> option (ptr * list float))
    (malloc_ok : malloc_spec malloc)
    (bernoulli_distribution : float -> Rng -> bool * Rng) (this : ptr)
    (σ : Process Rng) (shape : Shape) (prob : float) (p : ptr)
    (c : list float) :
  fits shape ->
  malloc (heap σ) (mem_size_of shape) = Some (p, c) ->
  ∃ r σ' ys,
    random_bernoulli_impl malloc bernoulli_distribution this shape prob σ
    = Returns r σ'
    ∧ shape_ r = shape
    ∧ tensor_to_vector_impl r σ' = Returns ys σ'
    ∧ N.of_nat (length ys) = num_total_elements shape
    ∧ ys = F32.of_bool
             <$> (draws (bernoulli_distribution prob)
                    (N.to_nat (num_total_elements shape)) (rng_ (dev σ))).1
    ∧ Forall (λ y, y = F32.zero ∨ y = F32.one) ys.
Proof.
  intros Hfit Hm.
  eexists _, _, _. split.
  { eapply (random_bernoulli_returns malloc this malloc_ok); eassumption. }
  assert (N.of_nat (length (F32.of_bool
            <$> (draws (bernoulli_distribution prob)
                   (N.to_nat (num_total_elements shape)) (rng_ (dev σ))).1))
          = num_total_elements shape) as Hlen.
  { rewrite length_fmap, draws_length. lia. }
  split; [done |]. split; [by apply to_vector_drawn |].
  split; [done |]. split; [done |].
  apply Forall_fmap, Forall_true. intros []; by (left + right).
Qed.


(** C6, as the code has it.  For every element [x] of the operand,
    [relu_impl] stores [y] with: [y >= 0] unless [x] is NaN, in which case
    [y] is NaN; [y == 0] exactly when [x <= 0]; and [step_impl] stores 0.0
    or 1.0, 1.0 exactly when [x > 0]. *)
Theorem relu_step_elements {Rng : Type}
    (malloc : Heap -> N -> option (ptr * list float))
    (malloc_ok : malloc_spec malloc) (this : ptr)
    (σ : Process Rng) (x : Tensor) (xs : list float) (p : ptr)
    (c : list float) :
  holds σ x xs ->
  fits (shape_ x) ->
  malloc (heap σ) (mem_size_of (shape_ x)) = Some (p, c) ->
  ∃ r σr σs ys zs,
    relu_impl malloc this x σ = Returns r σr
    ∧ step_impl malloc this x σ = Returns r σs
    ∧ shape_ r = shape_ x
    ∧ tensor_to_vector_impl r σr = Returns ys σr
    ∧ tensor_to_vector_impl r σs = Returns zs σs
    ∧ Forall2 (λ xi yi,
                 (F32.is_nan xi = false -> F32.geb yi F32.zero = true)
                 ∧ (F32.is_nan xi = true -> F32.is_nan yi = true)
                 ∧ (F32.eqb yi F32.zero = true ↔ F32.leb xi F32.zero = true))
        xs ys
    ∧ Forall2 (λ xi zi,
                 (zi = F32.zero ∨ zi = F32.one)
                 ∧ (zi = F32.one ↔ F32.gtb xi F32.zero = true))
        xs zs.
Proof.
  intros Hx Hfit Hm.
  assert (∀ f : float -> float,
            N.of_nat (length (f <$> xs)) = num_total_elements (shape_ x))
    as Hlen.
  { intros f. rewrite length_fmap. apply Hx. }
  eexists _, _, _, _, _. split.
  { eapply (unary_impl_returns malloc this malloc_ok); eassumption. }
  split.
  { eapply (unary_impl_returns malloc this malloc_ok); eassumption. }
  split; [done |].
  split; [by apply to_vector_new |]. split; [by apply to_vector_new |].
  split.
  - apply Forall2_fmap_r, Forall_Forall2_diag, Forall_true. intros xi.
    split; [apply relu_elem_nonneg |]. split.
    + intros Hnan. by rewrite relu_elem_nan.
    + apply relu_elem_zero_iff.
  - apply Forall2_fmap_r, Forall_Forall2_diag, Forall_true. intros xi.
    split; [apply step_elem_cases | apply step_elem_one_iff].
Qed.

(** C1.  With [a] holding 1, 2, 3, 4 and [b] holding 5, 6, 7, 8, both of
    shape {2,2} and batch 1, [dot_impl] returns a tensor of shape {2,2}
    whose values, as [tensor_to_vector_impl] gives them, are
    23, 34, 31, 46. *)
Theorem dot_2x2_example {Rng : Type}
    (malloc : Heap -> N -> option (ptr * list float))
    (malloc_ok : malloc_spec malloc) (this : ptr)
    (σ : Process Rng) (a b : Tensor) (p : ptr) (c : list float) :
  shape_ a = mkShape [2; 2] 1 ->
  shape_ b = mkShape [2; 2] 1 ->
  holds σ a (F32.of_Z <$> [1; 2; 3; 4]%Z) ->
  holds σ b (F32.of_Z <$> [5; 6; 7; 8]%Z) ->
  malloc (heap σ) (mem_size_of (mkShape [2; 2] 1)) = Some (p, c) ->
  ∃ r σ',
    dot_impl malloc this a b σ = Returns r σ'
    ∧ shape_ r = mkShape [2; 2] 1
    ∧ tensor_to_vector_impl r σ'
      = Returns (F32.of_Z <$> [23; 34; 31; 46]%Z) σ'.
Proof.
  intros Hsa Hsb [Ha _] [Hb _] Hm.
  assert (fits (mkShape [2; 2] 1)) as Hfit by done.
  destruct (fresh_block _ malloc_ok _ _ _ _ Hfit Hm) as [Hp Hc].
  assert (length c = 4%nat) as Hlen by (apply Nat2N.inj; by rewrite Hc).
  destruct c as [| j0 [| j1 [| j2 [| j3 [| ? ?]]]]]; try discriminate Hlen.
  exists (mkTensor (mkShape [2; 2] 1) this p),
         (allocated σ (mkShape [2; 2] 1) p (F32.of_Z <$> [23; 34; 31; 46]%Z)).
  split; [| split; [done | by apply to_vector_new]].
  unfold dot_impl, bind. rewrite Hsa, Hsb.
  change (mkShape [shape_at (mkShape [2; 2] 1) 0; shape_at (mkShape [2; 2] 1) 1]
            (N.max (batch_size (mkShape [2; 2] 1)) (batch_size (mkShape [2; 2] 1))))
    with (mkShape [2; 2] 1).
  rewrite (new_tensor_returns _ this _ _ _ _ Hm), CDATA_new.
  rewrite (CDATA_old _ _ _ _ _ _ Hp Ha), (CDATA_old _ _ _ _ _ _ Hp Hb).
  match goal with
  | |- context [defined ?k] =>
      replace k with (Some (F32.of_Z <$> [23; 34; 31; 46]%Z))
        by (vm_compute; reflexivity)
  end.
  cbn [defined]. by rewrite commit_new.
Qed.

(** ** The element-wise kernels on two tensors *)

(** An element of an earlier row lies before the start of a later row. *)
Lemma row_lt k' k i size : k' < k -> i < size -> k' * size + i < k * size.
Proof. nia. Qed.

Lemma row_bound k bs i size : k < bs -> i < size -> k * size + i < size * bs.
Proof. nia. Qed.

Lemma binary_kernel_spec op size bs skip_a skip_b src_a src_b dest0 :
  N.of_nat (length dest0) = size * bs ->
  (∀ k i, k < bs -> i < size -> k * skip_a + i < N.of_nat (length src_a)) ->
  (∀ k i, k < bs -> i < size -> k * skip_b + i < N.of_nat (length src_b)) ->
  ∃ dest,
    binary_kernel op size bs skip_a skip_b src_a src_b dest0 = Some dest
    ∧ length dest = length dest0
    ∧ ∀ k i, k < bs -> i < size ->
        ∃ va vb, load src_a (k * skip_a + i) = Some va
                 ∧ load src_b (k * skip_b + i) = Some vb
                 ∧ load dest (k * size + i) = Some (op va vb).
Proof.
  intros Hdest Ha Hb. unfold binary_kernel.
  set (row_done (d : list float) k i :=
         ∃ va vb, load src_a (k * skip_a + i) = Some va
                  ∧ load src_b (k * skip_b + i) = Some vb
                  ∧ load d (k * size + i) = Some (op va vb)).
  match goal with
  | |- context [REPEAT_OP bs ?body ?s0] =>
      destruct (REPEAT_OP_inv
        (λ k '(d, dp, pa, pb),
           dp = k * size ∧ pa = k * skip_a ∧ pb = k * skip_b
           ∧ length d = length dest0
           ∧ ∀ k' i, k' < k -> i < size -> row_done d k' i)
        bs body s0) as ([[[d dp] pa] pb] & Hrun & _ & _ & _ & Hlen & Hd)
  end.
  - repeat split; lia.
  - intros k [[[d dp] pa] pb] Hk (-> & -> & -> & Hlen & Hd).
    match goal with
    | |- context [REPEAT_OP size ?body ?s0] =>
        destruct (REPEAT_OP_inv
          (λ i d', length d' = length dest0
                   ∧ (∀ k' i', k' < k -> i' < size -> row_done d' k' i')
                   ∧ ∀ i', i' < i -> row_done d' k i')
          size body s0) as (d' & Hrun & Hlen' & Hd' & Hrow)
    end.
    + split; [done |]. split; [done |]. intros i' Hi'. lia.
    + intros i d' Hi (Hlen' & Hd' & Hrow).
      destruct (load_lt src_a (k * skip_a + i)) as [va Hva]; [by apply Ha |].
      destruct (load_lt src_b (k * skip_b + i)) as [vb Hvb]; [by apply Hb |].
      pose proof (row_bound k bs i size Hk Hi) as Hin.
      destruct (store_spec d' (k * size + i) (op va vb))
        as (d'' & Hst & Hlen'' & Hnew & Hold); [lia |].
      exists d''. rewrite Hva, Hvb. cbn. split; [done |].
      split; [congruence |]. split.
      * intros k' i' Hk' Hi'. destruct (Hd' k' i' Hk' Hi') as (wa & wb & ? & ? & ?).
        exists wa, wb. rewrite Hold; [done |].
        pose proof (row_lt k' k i' size Hk' Hi'). lia.
      * intros i' Hi'. destruct (decide (i' = i)) as [-> | Hne].
        -- by exists va, vb.
        -- destruct (Hrow i') as (wa & wb & ? & ? & ?); [lia |].
           exists wa, wb. rewrite Hold; [done | lia].
    + exists (d', k * size + size, k * skip_a + skip_a, k * skip_b + skip_b).
      rewrite Hrun. cbn. split; [done |].
      repeat split; try lia. intros k' i Hk' Hi.
      destruct (decide (k' = k)) as [-> | Hne]; [by apply Hrow |].
      apply Hd'; [lia | done].
  - exists d. rewrite Hrun. cbn. split; [done |]. split; [done |]. exact Hd.
Qed.

Lemma product_ones (l : list N) :
  (∀ i : nat, default 1 (l !! i) = 1) -> product l = 1.
Proof.
  induction l as [| a l IH]; intros Hl; [done |].
  change (product (a :: l)) with (a * product l).
  rewrite IH by (intros i; apply (Hl (S i))).
  specialize (Hl O). cbn in Hl. lia.
Qed.

Lemma product_same_extents (l1 : list N) : ∀ l2 : list N,
  (∀ i : nat, default 1 (l1 !! i) = default 1 (l2 !! i)) ->
  product l1 = product l2.
Proof.
  induction l1 as [| a l1 IH]; intros l2 Hl.
  - symmetry. apply product_ones. intros i. by rewrite <- Hl.
  - destruct l2 as [| b l2].
    + apply (product_ones (a :: l1)). intros i. by rewrite Hl.
    + change (a * product l1 = b * product l2).
      rewrite (IH l2) by (intros i; apply (Hl (S i))).
      specialize (Hl O). cbn in Hl. by subst.
Qed.

Lemma compatible_per_sample sa sb :
  broadcast_compatible sa sb ->
  num_elements_per_sample sa = num_elements_per_sample sb.
Proof.
  intros [Hd _]. apply product_same_extents. intros i.
  specialize (Hd (N.of_nat i)). unfold shape_at in Hd.
  by rewrite Nat2N.id in Hd.
Qed.

Lemma total_resize_batch s n :
  num_total_elements (resize_batch s n) = num_elements_per_sample s * n.
Proof. reflexivity. Qed.

Lemma skip_of_batch bs size :
  size < 2 ^ 32 ->
  umul (b2u (1 <? bs)) size = if bs =? 1 then 0 else if bs =? 0 then 0 else size.
Proof.
  intros Hsize. unfold umul, b2u.
  destruct (N.ltb_spec 1 bs), (N.eqb_spec bs 1), (N.eqb_spec bs 0);
    try lia; rewrite wrap32_small; lia.
Qed.

Section Binary.
Context {Rng : Type}.
Variable malloc : Heap -> N -> option (ptr * list float).
Variable this : ptr.
Hypothesis malloc_ok : malloc_spec malloc.
Implicit Types (σ : Process Rng) (a b : Tensor).

Lemma binary_impl_returns op σ a b xa xb p c :
  let sa := shape_ a in
  let sb := shape_ b in
  let size := num_elements_per_sample sa in
  let bs := N.max (batch_size sa) (batch_size sb) in
  holds σ a xa -> holds σ b xb ->
  valid_shape sa -> valid_shape sb ->
  broadcast_compatible sa sb ->
  fits (resize_batch sa bs) ->
  malloc (heap σ) (mem_size_of (resize_batch sa bs)) = Some (p, c) ->
  ∃ ys,
    binary_impl malloc this op a b σ
    = Returns (mkTensor (resize_batch sa bs) this p)
        (allocated σ (resize_batch sa bs) p ys)
    ∧ N.of_nat (length ys) = size * bs
    ∧ ∀ k i, k < bs -> i < size ->
        ∃ va vb, load xa (sample sa k * size + i) = Some va
                 ∧ load xb (sample sb k * size + i) = Some vb
                 ∧ load ys (k * size + i) = Some (op va vb).
Proof.
  intros sa sb size bs [Ha Hla] [Hb Hlb] [_ Hka] [_ Hkb] Hcompat Hfit Hm.
  destruct (fresh_block _ malloc_ok _ _ _ _ Hfit Hm) as [Hp Hc].
  pose proof (compatible_per_sample _ _ Hcompat) as Hsize.
  destruct Hcompat as [_ Hbatch].
  unfold fits in Hfit. rewrite total_resize_batch in Hfit, Hc.
  unfold num_total_elements, batch_size in *.
  fold sa in Hla, Hka, Hsize, Hbatch. fold sb in Hlb, Hkb, Hsize, Hbatch.
  fold size in Hla, Hc, Hsize, Hfit. rewrite <- Hsize in Hlb.
  assert (size < 2 ^ 32) as Hsmall.
  { unfold sizeof_float in Hfit. assert (1 <= bs) by (unfold bs; lia). nia. }
  destruct (binary_kernel_spec op size bs
              (umul (b2u (1 <? k_ sa)) size) (umul (b2u (1 <? k_ sb)) size)
              xa xb c) as (ys & Hker & Hlen & Hys).
  - done.
  - intros k i Hk Hi. rewrite skip_of_batch, Hla by done.
    destruct (N.eqb_spec (k_ sa) 1), (N.eqb_spec (k_ sa) 0); try lia.
    assert (bs = k_ sa) as <- by lia. nia.
  - intros k i Hk Hi. rewrite skip_of_batch, Hlb by done.
    destruct (N.eqb_spec (k_ sb) 1), (N.eqb_spec (k_ sb) 0); try lia.
    assert (bs = k_ sb) as <- by lia. nia.
  - exists ys. split; [| split; [lia |]].
    + unfold binary_impl, bind, batch_size. fold sa sb. fold bs size.
      rewrite (new_tensor_returns _ this _ _ _ _ Hm), CDATA_new.
      rewrite (CDATA_old _ _ _ _ _ _ Hp Ha), (CDATA_old _ _ _ _ _ _ Hp Hb).
      rewrite wrap32_small by done.
      rewrite Hker. cbn [defined]. by rewrite commit_new.
    + intros k i Hk Hi. destruct (Hys k i Hk Hi) as (va & vb & Hva & Hvb & Hy).
      exists va, vb. rewrite !skip_of_batch in Hva, Hvb by done.
      unfold sample, batch_size. split; [| split; [| done]].
      * rewrite <- Hva. f_equal.
        destruct (N.eqb_spec (k_ sa) 1), (N.eqb_spec (k_ sa) 0); lia.
      * rewrite <- Hvb. f_equal.
        destruct (N.eqb_spec (k_ sb) 1), (N.eqb_spec (k_ sb) 0); lia.
Qed.
End Binary.

(** The result of an element-wise kernel is as large as the larger
    operand. *)
Lemma fits_broadcast sa sb :
  broadcast_compatible sa sb -> fits sa -> fits sb ->
  fits (resize_batch sa (N.max (batch_size sa) (batch_size sb))).
Proof.
  intros Hcompat Ha Hb. pose proof (compatible_per_sample _ _ Hcompat) as Hs.
  unfold fits in *. rewrite total_resize_batch.
  unfold num_total_elements in Ha, Hb. rewrite <- Hs in Hb.
  destruct (N.max_spec (batch_size sa) (batch_size sb)) as [[_ ->] | [_ ->]];
    done.
Qed.

Lemma holds_allocated {Rng : Type} (σ : Process Rng) s p c x xs :
  heap σ !! p = None -> holds σ x xs -> holds (allocated σ s p c) x xs.
Proof.
  intros Hp [Hx Hlen]. split; [| done]. cbn.
  rewrite lookup_insert_ne by congruence. done.
Qed.

(** C3.  For broadcast-compatible operands, each of [add_impl],
    [subtract_impl], [multiply_impl] and [divide_impl] returns a tensor in
    a block that was not live before, with the extents of [a] and batch
    size [max(batch_a, batch_b)]; its element [i] of batch entry [k] is the
    operation applied to element [i] of sample [k] of each operand, an
    operand of batch size 1 giving its only sample for every [k].  The
    operands are left as they were. *)
Theorem elementwise_binary_broadcast {Rng : Type}
    (malloc : Heap -> N -> option (ptr * list float))
    (malloc_ok : malloc_spec malloc) (this : ptr)
    (σ : Process Rng) (a b : Tensor) (xa xb : list float) (p : ptr)
    (c : list float) :
  let size := num_elements_per_sample (shape_ a) in
  let bs := N.max (batch_size (shape_ a)) (batch_size (shape_ b)) in
  let s := resize_batch (shape_ a) bs in
  holds σ a xa -> holds σ b xb ->
  valid_shape (shape_ a) -> valid_shape (shape_ b) ->
  broadcast_compatible (shape_ a) (shape_ b) ->
  fits (shape_ a) -> fits (shape_ b) ->
  malloc (heap σ) (mem_size_of s) = Some (p, c) ->
  ∀ (impl : Tensor -> Tensor -> M Rng Tensor) (op : float -> float -> float),
    (impl, op) ∈ [(add_impl malloc this, F32.add);
                  (subtract_impl malloc this, F32.sub);
                  (multiply_impl malloc this, F32.mul);
                  (divide_impl malloc this, F32.div)] ->
    ∃ r σ' ys,
      impl a b σ = Returns r σ'
      ∧ data_ r = p ∧ heap σ !! p = None
      ∧ dims_ (shape_ r) = dims_ (shape_ a) ∧ batch_size (shape_ r) = bs
      ∧ holds σ' a xa ∧ holds σ' b xb
      ∧ tensor_to_vector_impl r σ' = Returns ys σ'
      ∧ N.of_nat (length ys) = size * bs
      ∧ ∀ k i, k < bs -> i < size ->
          ∃ va vb, load xa (sample (shape_ a) k * size + i) = Some va
                   ∧ load xb (sample (shape_ b) k * size + i) = Some vb
                   ∧ load ys (k * size + i) = Some (op va vb).
Proof.
  intros size bs s Ha Hb Hva Hvb Hcompat Hfa Hfb Hm impl op Hin.
  pose proof (fits_broadcast _ _ Hcompat Hfa Hfb) as Hfit.
  assert (impl = binary_impl malloc this op) as ->.
  { repeat (apply elem_of_cons in Hin as [[= -> ->] | Hin]; [done |]).
    by apply elem_of_nil in Hin. }
  destruct (binary_impl_returns malloc this malloc_ok op σ a b xa xb p c
              Ha Hb Hva Hvb Hcompat Hfit Hm) as (ys & Hrun & Hlen & Hys).
  destruct (fresh_block _ malloc_ok _ _ _ _ Hfit Hm) as [Hp _].
  eexists _, _, ys. split; [exact Hrun |].
  repeat (split; [by auto using holds_allocated |]).
  split; [| done]. apply to_vector_new; [done |].
  by rewrite total_resize_batch.
Qed.

(** ** In-place accumulation *)

Lemma hload_insert_eq (h : Heap) p d i : hload (<[p := d]> h) p i = load d i.
Proof. unfold hload. by rewrite lookup_insert_eq. Qed.

Lemma hload_insert_ne (h : Heap) p q d i :
  p ≠ q -> hload (<[p := d]> h) q i = hload h q i.
Proof. intros Hne. unfold hload. by rewrite lookup_insert_ne. Qed.

Lemma hstore_insert (h : Heap) p d i v d' :
  store d i v = Some d' ->
  hstore (<[p := d]> h) p i v = Some (<[p := d']> h).
Proof.
  intros Hst. unfold hstore. rewrite lookup_insert_eq. cbn. rewrite Hst.
  cbn. by rewrite insert_insert_eq.
Qed.

(** One round of the inner loop of [add_gradient_impl], on the rows that
    start at [dest] and [src].  The two blocks may be the same block when
    the rows are the same row. *)
Lemma add_row (h : Heap) pa pb d s size dest src :
  h !! pa = Some d -> h !! pb = Some s ->
  pa ≠ pb ∨ src = dest ->
  dest + size <= N.of_nat (length d) ->
  src + size <= N.of_nat (length s) ->
  ∃ d',
    REPEAT_OP size (λ i h,
        dv ← hload h pa (dest + i);
        sv ← hload h pb (src + i);
        hstore h pa (dest + i) (F32.add dv sv)) h
    = Some (<[pa := d']> h)
    ∧ length d' = length d
    ∧ (∀ i, i < size ->
         ∃ dv sv, load d (dest + i) = Some dv ∧ load s (src + i) = Some sv
                  ∧ load d' (dest + i) = Some (F32.add dv sv))
    ∧ (∀ j, j < dest ∨ dest + size <= j -> load d' j = load d j).
Proof.
  intros Hd Hs Halias Hdlen Hslen.
  match goal with
  | |- context [REPEAT_OP size ?body h] =>
      destruct (REPEAT_OP_inv
        (λ n h',
           ∃ d', h' = <[pa := d']> h
             ∧ length d' = length d
             ∧ (∀ i, i < n ->
                  ∃ dv sv, load d (dest + i) = Some dv
                           ∧ load s (src + i) = Some sv
                           ∧ load d' (dest + i) = Some (F32.add dv sv))
             ∧ (∀ j, j < dest ∨ dest + n <= j -> load d' j = load d j))
        size body h) as (h' & Hrun & d' & -> & Hlen & Hdone & Hrest)
  end.
  - exists d. split; [by rewrite insert_id |]. split; [done |].
    split; [intros i Hi; lia | done].
  - intros n h' Hn (d' & -> & Hlen & Hdone & Hrest).
    destruct (load_lt d (dest + n)) as [dv Hdv]; [lia |].
    destruct (load_lt s (src + n)) as [sv Hsv]; [lia |].
    destruct (store_spec d' (dest + n) (F32.add dv sv))
      as (d'' & Hst & Hlen' & Hnew & Hold); [lia |].
    exists (<[pa := d'']> h).
    rewrite hload_insert_eq, Hrest, Hdv by lia. cbn.
    assert (hload (<[pa := d']> h) pb (src + n) = Some sv) as ->.
    { destruct (decide (pa = pb)) as [<- | Hne].
      - destruct Halias as [? | ->]; [done |].
        rewrite hload_insert_eq, Hrest by lia. congruence.
      - rewrite hload_insert_ne by done. unfold hload. by rewrite Hs. }
    cbn. split; [by apply hstore_insert |].
    exists d''. split; [done |]. split; [congruence |]. split.
    + intros i Hi. destruct (decide (i = n)) as [-> | Hne].
      * by exists dv, sv.
      * destruct (Hdone i) as (dv' & sv' & ? & ? & ?); [lia |].
        exists dv', sv'. rewrite Hold by lia. done.
    + intros j Hj. rewrite Hold by lia. apply Hrest. lia.
  - exists d'. done.
Qed.

(** The loop nest when each round has a row of its own in the destination
    ([b_skip_d = size]). *)
Lemma add_rows (h : Heap) pa pb d0 s0 size bs skip_s :
  h !! pa = Some d0 -> h !! pb = Some s0 ->
  pa ≠ pb ∨ skip_s = size ->
  N.of_nat (length d0) = size * bs ->
  (∀ k, k < bs -> k * skip_s + size <= N.of_nat (length s0)) ->
  ∃ d',
    add_gradient_kernel size bs size skip_s pa pb h = Some (<[pa := d']> h)
    ∧ length d' = length d0
    ∧ ∀ k i, k < bs -> i < size ->
        ∃ dv sv, load d0 (k * size + i) = Some dv
                 ∧ load s0 (k * skip_s + i) = Some sv
                 ∧ load d' (k * size + i) = Some (F32.add dv sv).
Proof.
  intros Hd Hs Halias Hdlen Hslen. unfold add_gradient_kernel.
  match goal with
  | |- context [REPEAT_OP bs ?body ?st] =>
      destruct (REPEAT_OP_inv
        (λ k '(h', dest, src),
           dest = k * size ∧ src = k * skip_s
           ∧ ∃ d', h' = <[pa := d']> h
               ∧ length d' = length d0
               ∧ (∀ k' i, k' < k -> i < size ->
                    ∃ dv sv, load d0 (k' * size + i) = Some dv
                             ∧ load s0 (k' * skip_s + i) = Some sv
                             ∧ load d' (k' * size + i) = Some (F32.add dv sv))
               ∧ (∀ j, k * size <= j -> load d' j = load d0 j))
        bs body st)
        as ([[h' dest] src] & Hrun & _ & _ & d' & -> & Hlen & Hdone & _)
  end.
  - split; [lia |]. split; [lia |]. exists d0.
    split; [by rewrite insert_id |]. split; [done |]. split; [| done].
    intros k' i Hk'. lia.
  - intros k [[h' dest] src] Hk (-> & -> & d' & -> & Hlen & Hdone & Hrest).
    assert (k * size + size <= N.of_nat (length d')) as Hfit by nia.
    assert (∃ s, <[pa := d']> h !! pb = Some s
                 ∧ k * skip_s + size <= N.of_nat (length s)
                 ∧ ∀ i, i < size -> load s (k * skip_s + i)
                                    = load s0 (k * skip_s + i))
      as (s & Hs' & Hslen' & Hsame).
    { destruct (decide (pa = pb)) as [<- | Hne].
      - destruct Halias as [? | ->]; [done |]. exists d'.
        rewrite lookup_insert_eq. split; [done |]. split; [done |].
        intros i Hi. rewrite Hrest by lia. congruence.
      - exists s0. rewrite lookup_insert_ne by done. auto. }
    destruct (add_row (<[pa := d']> h) pa pb d' s size (k * size) (k * skip_s))
      as (d'' & Hrow & Hlen' & Hnew & Hold);
      [by rewrite lookup_insert_eq | done | | done | done |].
    { destruct Halias as [? | ->]; auto. }
    rewrite Hrow. cbn. eexists. split; [reflexivity |].
    split; [lia |]. split; [lia |]. exists d''.
    split; [by rewrite insert_insert_eq |]. split; [congruence |]. split.
    + intros k' i Hk' Hi. destruct (decide (k' = k)) as [-> | Hne].
      * destruct (Hnew i Hi) as (dv & sv & Hdv & Hsv & Hv).
        exists dv, sv. rewrite <- Hrest, <- Hsame by (done || lia). done.
      * destruct (Hdone k' i) as (dv & sv & ? & ? & ?); [lia | done |].
        exists dv, sv. rewrite Hold; [done |].
        left. apply row_lt; [lia | done].
    + intros j Hj. rewrite Hold by lia. apply Hrest. lia.
  - exists d'. rewrite Hrun. done.
Qed.

Lemma column_succ xs size i k :
  column xs size i (N.succ k)
  = column xs size i k ++ [default F32.zero (load xs (k * size + i))].
Proof.
  unfold column. rewrite N2Nat.inj_succ, seq_S, fmap_app. cbn.
  by rewrite N2Nat.id.
Qed.

Lemma column_length xs size i n : length (column xs size i n) = N.to_nat n.
Proof. unfold column. by rewrite length_fmap, length_seq. Qed.

(** The loop nest when every round adds into the same row of the
    destination ([b_skip_d = 0]) from a row of its own of the source. *)
Lemma add_accumulate (h : Heap) pa pb d0 s0 size bs :
  h !! pa = Some d0 -> h !! pb = Some s0 ->
  pa ≠ pb ->
  size <= N.of_nat (length d0) ->
  N.of_nat (length s0) = size * bs ->
  ∃ d',
    add_gradient_kernel size bs 0 size pa pb h = Some (<[pa := d']> h)
    ∧ length d' = length d0
    ∧ ∀ i, i < size ->
        ∃ dv, load d0 i = Some dv
              ∧ load d' i = Some (fold_left F32.add (column s0 size i bs) dv).
Proof.
  intros Hd Hs Hne Hdlen Hslen. unfold add_gradient_kernel.
  match goal with
  | |- context [REPEAT_OP bs ?body ?st] =>
      destruct (REPEAT_OP_inv
        (λ k '(h', dest, src),
           dest = 0 ∧ src = k * size
           ∧ ∃ d', h' = <[pa := d']> h
               ∧ length d' = length d0
               ∧ ∀ i, i < size ->
                   ∃ dv, load d0 i = Some dv
                         ∧ load d' i
                           = Some (fold_left F32.add (column s0 size i k) dv))
        bs body st)
        as ([[h' dest] src] & Hrun & _ & _ & d' & -> & Hlen & Hdone)
  end.
  - split; [done |]. split; [lia |]. exists d0.
    split; [by rewrite insert_id |]. split; [done |].
    intros i Hi. destruct (load_lt d0 i) as [dv Hdv]; [lia |]. by exists dv.
  - intros k [[h' dest] src] Hk (-> & -> & d' & -> & Hlen & Hdone).
    destruct (add_row (<[pa := d']> h) pa pb d' s0 size 0 (k * size))
      as (d'' & Hrow & Hlen' & Hnew & Hold);
      [by rewrite lookup_insert_eq | by rewrite lookup_insert_ne | auto
      | lia | nia |].
    rewrite Hrow. cbn. eexists. split; [reflexivity |].
    split; [done |]. split; [lia |]. exists d''.
    split; [by rewrite insert_insert_eq |]. split; [congruence |].
    intros i Hi. destruct (Hdone i Hi) as (dv & Hdv & Hacc).
    destruct (Hnew i Hi) as (dv' & sv & Hdv' & Hsv & Hv).
    exists dv. split; [done |]. rewrite N.add_0_l in Hdv', Hv.
    rewrite column_succ, fold_left_app, Hsv. cbn. congruence.
  - exists d'. rewrite Hrun. done.
Qed.

Lemma product_pos (l : list N) : Forall (λ d, 1 <= d) l -> 1 <= product l.
Proof.
  induction 1 as [| d l Hd _ IH]; [done |].
  change (1 <= d * product l). nia.
Qed.

Lemma index_split j size bs :
  j < size * bs -> ∃ k i, k < bs ∧ i < size ∧ j = k * size + i.
Proof.
  intros Hj. assert (size ≠ 0) as Hsize by lia.
  exists (j / size), (j mod size). split; [| split].
  - apply N.Div0.div_lt_upper_bound; done.
  - by apply N.mod_lt.
  - rewrite (N.div_mod j size) at 1 by done. lia.
Qed.

Lemma add_gradient_kernel_once size sd ss sd' ss' pa pb h :
  add_gradient_kernel size 1 sd ss pa pb h
  = add_gradient_kernel size 1 sd' ss' pa pb h.
Proof.
  unfold add_gradient_kernel, REPEAT_OP.
  change (N.to_nat 1) with 1%nat. cbn [repeat_from].
  match goal with |- context [repeat_from ?b 0 (N.to_nat size) h] =>
    destruct (repeat_from b 0 (N.to_nat size) h) end; reflexivity.
Qed.

(** C4.  [add_gradient_impl] updates the block of [a] in place and leaves
    everything else, the shape of [a] included, as it was.  With equal
    batch sizes every element of [b] is added to the element of [a] at the
    same place.  When [a] has batch size 1, the samples of [b] are added
    into the single sample of [a] one after the other in batch order, each
    addition rounded.  When [b] has batch size 1, its single sample is
    added into every sample of [a]. *)
Theorem add_gradient_broadcast {Rng : Type} (σ : Process Rng)
    (a b : Tensor) (xa xb : list float) :
  let size := num_elements_per_sample (shape_ a) in
  let na := batch_size (shape_ a) in
  let nb := batch_size (shape_ b) in
  holds σ a xa -> holds σ b xb ->
  valid_shape (shape_ a) -> valid_shape (shape_ b) ->
  broadcast_compatible (shape_ a) (shape_ b) ->
  fits (shape_ a) ->
  ∃ ya σ',
    add_gradient_impl a b σ = Returns tt σ'
    ∧ σ' = mkProcess (<[data_ a := ya]> (heap σ)) (dev σ)
    ∧ holds σ' a ya
    ∧ (na = nb ->
       ∀ j x y, load xa j = Some x -> load xb j = Some y ->
                load ya j = Some (F32.add x y))
    ∧ (na = 1 ->
       ∀ i x, i < size -> load xa i = Some x ->
              load ya i = Some (fold_left F32.add (column xb size i nb) x))
    ∧ (nb = 1 ->
       ∀ k i x y, k < na -> i < size ->
                  load xa (k * size + i) = Some x -> load xb i = Some y ->
                  load ya (k * size + i) = Some (F32.add x y)).
Proof.
  intros size na nb [Ha Hla] [Hb Hlb] [Hda Hka] [_ Hkb] Hcompat Hfit.
  pose proof (compatible_per_sample _ _ Hcompat) as Hsize.
  destruct Hcompat as [_ Hbatch].
  pose proof (product_pos _ Hda) as Hpos.
  unfold fits, sizeof_float in Hfit.
  unfold num_total_elements in Hla, Hlb, Hfit. rewrite <- Hsize in Hlb.
  fold (num_elements_per_sample (shape_ a)) in Hpos.
  fold size in Hla, Hlb, Hfit, Hpos. fold na in Hla, Hfit, Hbatch.
  fold nb in Hlb, Hbatch. unfold batch_size in na, nb.
  fold na in Hka. fold nb in Hkb.
  assert (size < 2 ^ 32) as Hsmall by nia.
  (* the result of the loop nest, in the form of one of the two lemmas *)
  assert (∃ ya,
    add_gradient_kernel size (N.max na nb)
      (umul (b2u (1 <? na)) size) (umul (b2u (1 <? nb)) size)
      (data_ a) (data_ b) (heap σ) = Some (<[data_ a := ya]> (heap σ))
    ∧ length ya = length xa
    ∧ ((na = nb ∧ ∀ k i, k < na -> i < size ->
          ∃ dv sv, load xa (k * size + i) = Some dv
                   ∧ load xb (k * size + i) = Some sv
                   ∧ load ya (k * size + i) = Some (F32.add dv sv))
       ∨ (na = 1 ∧ nb ≠ 1 ∧ ∀ i, i < size ->
            ∃ dv, load xa i = Some dv
                  ∧ load ya i
                    = Some (fold_left F32.add (column xb size i nb) dv))
       ∨ (nb = 1 ∧ na ≠ 1 ∧ ∀ k i, k < na -> i < size ->
            ∃ dv sv, load xa (k * size + i) = Some dv
                     ∧ load xb (0 * 0 + i) = Some sv
                     ∧ load ya (k * size + i) = Some (F32.add dv sv))))
    as (ya & Hker & Hlen & Hcases).
  { rewrite !skip_of_batch by done.
    destruct (N.eqb_spec na 1) as [Hna | Hna],
             (N.eqb_spec nb 1) as [Hnb | Hnb];
      destruct (N.eqb_spec na 0), (N.eqb_spec nb 0); try lia.
    - (* both of batch size 1: one round *)
      replace (N.max na nb) with 1 by lia.
      rewrite (add_gradient_kernel_once size 0 0 size size).
      destruct (add_rows (heap σ) (data_ a) (data_ b) xa xb size 1 size)
        as (ya & Hker & Hlen & Hrows); [done | done | auto | lia | |].
      { intros k Hk. nia. }
      exists ya. split; [done |]. split; [done |]. left.
      split; [lia |]. intros k i Hk. apply Hrows. lia.
    - (* [a] of batch size 1, [b] of more *)
      replace (N.max na nb) with nb by lia.
      destruct (add_accumulate (heap σ) (data_ a) (data_ b) xa xb size nb)
        as (ya & Hker & Hlen & Hacc); [done | done | | lia | lia |].
      { intros Heq. rewrite Heq, Hb in Ha. injection Ha as ->. nia. }
      exists ya. split; [done |]. split; [done |]. right. left. auto.
    - (* [b] of batch size 1, [a] of more *)
      replace (N.max na nb) with na by lia.
      destruct (add_rows (heap σ) (data_ a) (data_ b) xa xb size na 0)
        as (ya & Hker & Hlen & Hrows); [done | done | | lia | |].
      { left. intros Heq. rewrite Heq, Hb in Ha. injection Ha as ->. nia. }
      { intros k Hk. nia. }
      exists ya. split; [done |]. split; [done |]. right. right.
      split; [done |]. split; [done |]. intros k i Hk Hi.
      destruct (Hrows k i Hk Hi) as (dv & sv & ? & Hsv & ?).
      exists dv, sv. split; [done |]. split; [| done].
      rewrite <- Hsv. f_equal. lia.
    - (* equal batch sizes, more than 1 *)
      assert (na = nb) as Heq by lia.
      replace (N.max na nb) with na by lia.
      destruct (add_rows (heap σ) (data_ a) (data_ b) xa xb size na size)
        as (ya & Hker & Hlen & Hrows); [done | done | auto | lia | |].
      { intros k Hk. nia. }
      exists ya. split; [done |]. split; [done |]. left. auto. }
  exists ya, (mkProcess (<[data_ a := ya]> (heap σ)) (dev σ)).
  split.
  { unfold add_gradient_impl, bind, get_heap. cbn [defined].
    rewrite wrap32_small by done. fold size.
    unfold batch_size. fold na nb. rewrite Hker. reflexivity. }
  split; [done |]. split.
  { split; [cbn; by rewrite lookup_insert_eq |].
    unfold num_total_elements. fold size. unfold batch_size. fold na.
    rewrite Hlen. done. }
  split; [| split].
  - intros Heq j x y Hx Hy.
    destruct Hcases as [[_ Hrows] | [(? & ? & _) | (? & ? & _)]]; try lia.
    apply load_Some_lt in Hx as Hj. rewrite Hla in Hj.
    destruct (index_split j size na Hj) as (k & i & Hk & Hi & ->).
    destruct (Hrows k i Hk Hi) as (dv & sv & ? & ? & ?). congruence.
  - intros H1 i x Hi Hx.
    destruct Hcases as [[Heq Hrows] | [(_ & _ & Hacc) | (? & ? & _)]];
      try lia.
    + destruct (Hrows 0 i) as (dv & sv & Hdv & Hsv & Hv); [lia | done |].
      rewrite N.mul_0_l, N.add_0_l in Hdv, Hsv, Hv.
      replace nb with (N.succ 0) by lia.
      rewrite column_succ. change (column xb size i 0) with (@nil float).
      cbn. rewrite N.add_0_l, Hsv. cbn. congruence.
    + destruct (Hacc i Hi) as (dv & ? & ?). congruence.
  - intros H1 k i x y Hk Hi Hx Hy.
    destruct Hcases as [[Heq Hrows] | [(? & ? & _) | (_ & _ & Hrows)]];
      try lia.
    + assert (k = 0) as -> by lia.
      destruct (Hrows 0 i) as (dv & sv & Hdv & Hsv & Hv); [lia | done |].
      rewrite N.mul_0_l, N.add_0_l in Hsv. congruence.
    + destruct (Hrows k i Hk Hi) as (dv & sv & Hdv & Hsv & Hv).
      rewrite N.mul_0_l, N.add_0_l in Hsv. congruence.
Qed.

(** ** [slice] and [concat] *)

Lemma copy_span_spec span src dest dp sp :
  sp + span <= N.of_nat (length src) ->
  dp + span <= N.of_nat (length dest) ->
  ∃ dest',
    copy_span span src (dest, dp, sp) = Some (dest', dp + span, sp + span)
    ∧ length dest' = length dest
    ∧ (∀ j, j < span -> load dest' (dp + j) = load src (sp + j))
    ∧ (∀ idx, idx < dp ∨ dp + span <= idx -> load dest' idx = load dest idx).
Proof.
  intros Hsrc Hdest. unfold copy_span.
  match goal with
  | |- context [REPEAT_OP span ?body ?st] =>
      destruct (REPEAT_OP_inv
        (λ n '(d, dp', sp'),
           dp' = dp + n ∧ sp' = sp + n ∧ length d = length dest
           ∧ (∀ j, j < n -> load d (dp + j) = load src (sp + j))
           ∧ (∀ idx, idx < dp ∨ dp + n <= idx -> load d idx = load dest idx))
        span body st)
        as ([[d dp'] sp'] & Hrun & -> & -> & Hlen & Hnew & Hold)
  end.
  - repeat split; lia.
  - intros n [[d dp'] sp'] Hn (-> & -> & Hlen & Hnew & Hold).
    destruct (load_lt src (sp + n)) as [v Hv]; [lia |].
    destruct (store_spec d (dp + n) v) as (d' & Hst & Hlen' & Hat & Hother);
      [lia |].
    rewrite Hv. cbn. rewrite Hst. cbn. eexists. split; [reflexivity |].
    split; [lia |]. split; [lia |]. split; [congruence |]. split.
    + intros j Hj. destruct (decide (j = n)) as [-> | Hne]; [congruence |].
      rewrite Hother by lia. apply Hnew. lia.
    + intros idx Hidx. rewrite Hother by lia. apply Hold. lia.
  - exists d. done.
Qed.

Lemma slice_kernel_spec base span skip repeat offset src dest0 :
  base * offset < 2 ^ 32 ->
  N.of_nat (length dest0) = repeat * span ->
  (∀ r, r < repeat ->
     base * offset + r * skip + span <= N.of_nat (length src)) ->
  ∃ dest,
    slice_kernel base span skip repeat offset src dest0 = Some dest
    ∧ length dest = length dest0
    ∧ ∀ r j, r < repeat -> j < span ->
        load dest (r * span + j) = load src (base * offset + r * skip + j).
Proof.
  intros Hoff Hdest Hsrc. unfold slice_kernel, umul.
  rewrite wrap32_small by done.
  match goal with
  | |- context [REPEAT_OP repeat ?body ?st] =>
      destruct (REPEAT_OP_inv
        (λ n '(d, dp, srcp),
           dp = n * span ∧ srcp = base * offset + n * skip
           ∧ length d = length dest0
           ∧ ∀ r j, r < n -> j < span ->
               load d (r * span + j)
               = load src (base * offset + r * skip + j))
        repeat body st)
        as ([[d dp] srcp] & Hrun & _ & _ & Hlen & Hd)
  end.
  - repeat split; lia.
  - intros n [[d dp] srcp] Hn (-> & -> & Hlen & Hd).
    destruct (copy_span_spec span src d (n * span)
                (base * offset + n * skip))
      as (d' & Hcp & Hlen' & Hnew & Hold); [by apply Hsrc | nia |].
    rewrite Hcp. cbn. eexists. split; [reflexivity |].
    split; [lia |]. split; [lia |]. split; [congruence |].
    intros r j Hr Hj. destruct (decide (r = n)) as [-> | Hne].
    + by rewrite Hnew.
    + rewrite Hold by (left; apply row_lt; lia). apply Hd; lia.
  - exists d. rewrite Hrun. done.
Qed.

(** Row [b' * repeat + i'] comes before row [b * repeat + i]. *)
Lemma earlier_row b' i' b i repeat :
  b' < b ∨ (b' = b ∧ i' < i) -> i' < repeat ->
  b' * repeat + i' + 1 <= b * repeat + i.
Proof. intros [Hb | [-> Hi]] Hi'; nia. Qed.

Lemma outside_span idx dest span :
  (∀ j, j < span -> idx ≠ dest + j) -> idx < dest ∨ dest + span <= idx.
Proof.
  intros Hne. destruct (N.lt_ge_cases idx dest) as [? | Hge]; [by left |].
  right. destruct (N.lt_ge_cases idx (dest + span)) as [Hlt | ?]; [| done].
  destruct (Hne (idx - dest)); lia.
Qed.

Lemma concat_one_spec dim new_bs base skip repeat sx src ret offset :
  let span := base * shape_at sx dim in
  let b_skip := if 1 <? batch_size sx then span * repeat else 0 in
  span < 2 ^ 32 -> span * repeat < 2 ^ 32 -> offset + span < 2 ^ 32 ->
  N.of_nat (length ret) = new_bs * repeat * skip ->
  offset + span <= skip ->
  (∀ b i, b < new_bs -> i < repeat ->
     b * b_skip + i * span + span <= N.of_nat (length src)) ->
  ∃ ret',
    concat_one dim new_bs base skip repeat sx src (ret, offset)
    = Some (ret', offset + span)
    ∧ length ret' = length ret
    ∧ (∀ b i j, b < new_bs -> i < repeat -> j < span ->
         load ret' (offset + (b * repeat + i) * skip + j)
         = load src (b * b_skip + i * span + j))
    ∧ (∀ idx,
         (∀ r j, r < new_bs * repeat -> j < span ->
            idx ≠ offset + r * skip + j) ->
         load ret' idx = load ret idx).
Proof.
  intros span b_skip Hspan Hsr Hoff Hret Hfit Hsrc.
  unfold concat_one, umul, uadd. fold span.
  rewrite (wrap32_small span) by done.
  assert (wrap32 (wrap32 (b2u (1 <? batch_size sx) * span) * repeat) = b_skip)
    as ->.
  { unfold b_skip, b2u. destruct (1 <? batch_size sx).
    - rewrite N.mul_1_l, (wrap32_small span), wrap32_small by done. done.
    - by rewrite N.mul_0_l. }
  rewrite (wrap32_small (offset + span)) by done.
  match goal with
  | |- context [REPEAT_OP new_bs ?body ?st] =>
      destruct (REPEAT_OP_inv
        (λ b '(r', dest, srcp),
           dest = offset + b * repeat * skip ∧ srcp = b * b_skip
           ∧ length r' = length ret
           ∧ (∀ b' i j, b' < b -> i < repeat -> j < span ->
                load r' (offset + (b' * repeat + i) * skip + j)
                = load src (b' * b_skip + i * span + j))
           ∧ (∀ idx,
                (∀ r j, r < b * repeat -> j < span ->
                   idx ≠ offset + r * skip + j) ->
                load r' idx = load ret idx))
        new_bs body st)
        as ([[r' dest] srcp] & Hrun & _ & _ & Hlen & Hnew & Hold)
  end.
  - repeat split; try lia; try done.
  - intros b [[r0 dest0] srcp0] Hb (-> & -> & Hlen0 & Hnew0 & Hold0).
    match goal with
    | |- context [REPEAT_OP repeat ?body ?st] =>
        destruct (REPEAT_OP_inv
          (λ i '(r', dest, sp),
             dest = offset + (b * repeat + i) * skip
             ∧ sp = b * b_skip + i * span
             ∧ length r' = length ret
             ∧ (∀ b' i' j, b' < b ∨ (b' = b ∧ i' < i) ->
                  i' < repeat -> j < span ->
                  load r' (offset + (b' * repeat + i') * skip + j)
                  = load src (b' * b_skip + i' * span + j))
             ∧ (∀ idx,
                  (∀ r j, r < b * repeat + i -> j < span ->
                     idx ≠ offset + r * skip + j) ->
                  load r' idx = load ret idx))
          repeat body st)
          as ([[r1 dest1] sp1] & Hrun1 & -> & -> & Hlen1 & Hnew1 & Hold1)
    end.
    + split; [lia |]. split; [lia |]. split; [done |]. split.
      * intros b' i' j [Hb' | [_ Hi']]; [by apply Hnew0 | lia].
      * intros idx Hidx. apply Hold0. intros r j Hr. apply Hidx. lia.
    + intros i [[r1 dest1] sp1] Hi (-> & -> & Hlen1 & Hnew1 & Hold1).
      assert (b * repeat + i + 1 <= new_bs * repeat) as Hrows by nia.
      destruct (copy_span_spec span src r1
                  (offset + (b * repeat + i) * skip)
                  (b * b_skip + i * span))
        as (r2 & Hcp & Hlen2 & Hnew2 & Hold2); [by apply Hsrc | nia |].
      rewrite Hcp. cbn. eexists. split; [reflexivity |].
      split; [lia |]. split; [lia |]. split; [congruence |]. split.
      * intros b' i' j Hrow Hi' Hj.
        destruct (decide (b' = b ∧ i' = i)) as [[-> ->] | Hne].
        -- by rewrite Hnew2.
        -- assert (b' < b ∨ (b' = b ∧ i' < i)) as Hrow' by lia.
           pose proof (earlier_row _ _ _ _ _ Hrow' Hi').
           rewrite Hold2 by (left; nia). by apply Hnew1.
      * intros idx Hidx. rewrite Hold2.
        -- apply Hold1. intros r j Hr. apply Hidx. lia.
        -- apply outside_span. intros j Hj. apply Hidx; [lia | done].
    + rewrite Hrun1. cbn. eexists. split; [reflexivity |].
      split; [lia |]. split; [lia |]. split; [done |]. split.
      * intros b' i j Hb' Hi Hj. apply Hnew1; [lia | done | done].
      * intros idx Hidx. apply Hold1. intros r j Hr. apply Hidx. lia.
  - rewrite Hrun. cbn. exists r'. split; [done |]. split; [done |].
    split; [done |]. intros idx Hidx. apply Hold. intros r j Hr.
    apply Hidx. lia.
Qed.

Lemma row_col_unique r c r' c' skip :
  c < skip -> c' < skip -> r * skip + c = r' * skip + c' -> r = r' ∧ c = c'.
Proof. intros Hc Hc' Heq. assert (r = r') by nia. subst. lia. Qed.

Lemma rows_fit b i bs rest span :
  b < bs -> i < rest -> (b * rest + i) * span + span <= bs * rest * span.
Proof. intros Hb Hi. assert (b * rest + i + 1 <= bs * rest) by nia. nia. Qed.

Lemma partition_le ranges : ∀ start stop,
  partition start stop ranges -> start <= stop.
Proof.
  induction ranges as [| [o l] ranges IH]; intros start stop; cbn.
  - lia.
  - intros (_ & Hl & Hrest). apply IH in Hrest. lia.
Qed.

Section Roundtrip.
Variables (x : list float) (dim base n rest bs : N).
Let skip := base * n.
Let rows := bs * rest.
Hypothesis batch_min : 1 <= bs.
Hypothesis rest_min : 1 <= rest.
Hypothesis total_fit : rows * skip < 2 ^ 32.

Lemma concat_pieces_roundtrip ranges : ∀ pieces start ret,
  partition start n ranges ->
  Forall2 (piece_of x dim base skip rows bs) ranges pieces ->
  N.of_nat (length ret) = rows * skip ->
  (∀ r c, r < rows -> c < base * start ->
     load ret (r * skip + c) = load x (r * skip + c)) ->
  ∃ ret',
    foldl (λ acc p, st ← acc;
                    concat_one dim bs base skip rest p.1 p.2 st)
          (Some (ret, base * start)) pieces
    = Some (ret', base * n)
    ∧ length ret' = length ret
    ∧ ∀ r c, r < rows -> c < skip ->
        load ret' (r * skip + c) = load x (r * skip + c).
Proof.
  induction ranges as [| [o l] ranges IH];
    intros pieces start ret Hpart Hpieces Hlen Hdone.
  - apply Forall2_nil_inv_l in Hpieces as ->. cbn in Hpart. subst start.
    exists ret. cbn. auto.
  - apply Forall2_cons_inv_l in Hpieces
      as ([sx pc] & pieces' & (Hat & Hbs & Hpclen & Hpc) & Hpieces & ->).
    cbn in Hpart. destruct Hpart as (-> & Hl & Hpart).
    pose proof (partition_le _ _ _ Hpart) as Hle.
    cbn [fst snd] in *.
    assert (base * start + base * l <= skip) as Hcol by (unfold skip; nia).
    assert (skip <= rows * skip) as Hrow.
    { assert (1 <= rows) by (unfold rows; nia). nia. }
    destruct (concat_one_spec dim bs base skip rest sx pc ret (base * start))
      as (ret1 & Hone & Hlen1 & Hnew & Hold).
    + rewrite Hat. lia.
    + rewrite Hat. unfold rows in *. nia.
    + rewrite Hat. lia.
    + unfold rows in Hlen. lia.
    + rewrite Hat. lia.
    + rewrite Hat, Hbs, Hpclen. intros b i Hb Hi. unfold rows.
      pose proof (rows_fit b i bs rest (base * l) Hb Hi).
      destruct (N.ltb_spec 1 bs); [lia |].
      assert (b = 0) as -> by lia. lia.
    + rewrite Hat in Hone, Hnew, Hold.
      destruct (IH pieces' (start + l) ret1) as (ret' & Hfold & Hlen' & Hall).
      * done.
      * done.
      * lia.
      * intros r c Hr Hc.
        destruct (N.lt_ge_cases c (base * start)) as [Hlt | Hge].
        -- rewrite Hold; [by apply Hdone |].
           intros r' j Hr' Hj Heq.
           destruct (row_col_unique r c r' (base * start + j) skip);
             lia.
        -- assert (rest ≠ 0) as Hrest by lia.
           pose proof (N.div_mod r rest Hrest) as Hdiv.
           pose proof (N.mod_lt r rest Hrest) as Hmod.
           assert (r / rest < bs) as Hb
             by (apply N.Div0.div_lt_upper_bound; unfold rows in Hr; lia).
           specialize (Hnew (r / rest) (r mod rest) (c - base * start) Hb Hmod).
           set (q := r / rest) in *. set (m := r mod rest) in *.
           assert (q * rest + m = r) as Hqm by lia.
           rewrite Hqm in Hnew.
           replace (base * start + r * skip + (c - base * start))
             with (r * skip + c) in Hnew by lia.
           rewrite Hnew by lia. rewrite Hbs.
           assert (q * (if 1 <? bs then base * l * rest else 0)
                   + m * (base * l) = r * (base * l)) as ->.
           { rewrite <- Hqm. destruct (N.ltb_spec 1 bs); [lia |].
             assert (q = 0) as -> by lia. lia. }
           rewrite Hpc by lia. f_equal. lia.
      * exists ret'. cbn [foldl mbind option_bind fst snd].
        rewrite Hone.
        replace (base * start + base * l) with (base * (start + l)) by lia.
        rewrite Hfold. split; [done |]. split; [congruence | done].
Qed.
End Roundtrip.

(** ** Shapes cut along an axis *)

Lemma product_cons a l : product (a :: l) = a * product l.
Proof. reflexivity. Qed.

Lemma product_app l1 l2 : product (l1 ++ l2) = product l1 * product l2.
Proof.
  induction l1 as [| a l1 IH]; cbn [app].
  - change (product []) with 1. lia.
  - rewrite !product_cons, IH. lia.
Qed.

Lemma product_replicate_1 k : product (replicate k 1) = 1.
Proof.
  induction k as [| k IH]; [done |].
  cbn [replicate]. rewrite product_cons, IH. done.
Qed.

Lemma product_split (l : list N) : ∀ d : nat,
  product l = product (take d l) * default 1 (l !! d) * product (drop (S d) l).
Proof.
  induction l as [| a l IH]; intros d.
  - by destruct d.
  - destruct d as [| d].
    + rewrite product_cons.
      change (product (take 0 (a :: l))) with 1.
      change (default 1 ((a :: l) !! 0%nat)) with a.
      change (drop 1 (a :: l)) with l. lia.
    + change (take (S d) (a :: l)) with (a :: take d l).
      change ((a :: l) !! S d) with (l !! d).
      change (drop (S (S d)) (a :: l)) with (drop (S d) l).
      rewrite !product_cons, (IH d). lia.
Qed.

Lemma per_sample_split s dim :
  num_elements_per_sample s
  = num_elements_under_rank s dim * shape_at s dim
    * num_elements_over_rank s dim.
Proof. apply product_split. Qed.

Section ResizeDim.
Variables (s : Shape) (dim len : N).
Let d := N.to_nat dim.
Let padded := dims_ s ++ replicate (S d - length (dims_ s)) 1.

Lemma padded_length : (d < length padded)%nat.
Proof. unfold padded. rewrite length_app, length_replicate. lia. Qed.

Lemma shape_at_resize_dim : shape_at (resize_dim s dim len) dim = len.
Proof.
  unfold shape_at, resize_dim. cbn [dims_]. fold d padded.
  by rewrite list_lookup_insert_eq by apply padded_length.
Qed.

Lemma under_rank_resize_dim :
  num_elements_under_rank (resize_dim s dim len) dim
  = num_elements_under_rank s dim.
Proof.
  unfold num_elements_under_rank, resize_dim. cbn [dims_]. fold d padded.
  rewrite take_insert_ge by lia. unfold padded.
  rewrite take_app, product_app, take_replicate, product_replicate_1. lia.
Qed.

Lemma over_rank_resize_dim :
  num_elements_over_rank (resize_dim s dim len) dim
  = num_elements_over_rank s dim.
Proof.
  unfold num_elements_over_rank, resize_dim. cbn [dims_]. fold d padded.
  rewrite drop_insert_lt by lia. unfold padded.
  rewrite drop_app, product_app, drop_replicate, product_replicate_1. lia.
Qed.

Lemma per_sample_resize_dim :
  num_elements_per_sample (resize_dim s dim len)
  = num_elements_under_rank s dim * len * num_elements_over_rank s dim.
Proof.
  rewrite (per_sample_split _ dim), shape_at_resize_dim,
    under_rank_resize_dim, over_rank_resize_dim. done.
Qed.
End ResizeDim.

Lemma under_rank_pos s dim :
  valid_shape s -> 1 <= num_elements_under_rank s dim.
Proof. intros [Hd _]. by apply product_pos, Forall_take. Qed.

Lemma over_rank_pos s dim :
  valid_shape s -> 1 <= num_elements_over_rank s dim.
Proof. intros [Hd _]. by apply product_pos, Forall_drop. Qed.

Lemma to_vector_holds {Rng : Type} (σ : Process Rng) x xs :
  holds σ x xs -> fits (shape_ x) ->
  tensor_to_vector_impl x σ = Returns xs σ.
Proof.
  intros [Hx Hlen] Hfit. unfold tensor_to_vector_impl, bind, CDATA, get_heap.
  cbn [bind]. rewrite Hx. cbn [defined]. rewrite fits_total by done.
  rewrite <- Hlen, N.leb_refl. unfold ret. f_equal.
  rewrite Nat2N.id. apply firstn_all.
Qed.

Lemma partition_in_range ranges : ∀ start stop,
  partition start stop ranges ->
  Forall (λ r : N * N, 1 <= r.2 ∧ r.1 + r.2 <= stop) ranges.
Proof.
  induction ranges as [| [o l] ranges IH]; intros start stop; cbn.
  - constructor.
  - intros (-> & Hl & Hrest). constructor.
    + cbn. apply partition_le in Hrest. lia.
    + by apply IH in Hrest.
Qed.

Section SliceConcat.
Context {Rng : Type}.
Variable malloc : Heap -> N -> option (ptr * list float).
Variable this : ptr.
Hypothesis malloc_ok : malloc_spec malloc.

Variables (x : Tensor) (xs : list float) (dim : N).
Let sx := shape_ x.
Let base := num_elements_under_rank sx dim.
Let n := shape_at sx dim.
Let rest := num_elements_over_rank sx dim.
Let bs := batch_size sx.
Let skip := base * n.
Let rows := bs * rest.
Hypothesis x_valid : valid_shape sx.
Hypothesis x_fits : fits sx.

Implicit Types (σ : Process Rng).

Lemma total_rows : num_total_elements sx = rows * skip.
Proof.
  unfold num_total_elements. rewrite (per_sample_split sx dim).
  fold base n rest bs. unfold rows, skip. lia.
Qed.

Lemma total_small : rows * skip < 2 ^ 32.
Proof.
  pose proof x_fits as Hfit. unfold fits, sizeof_float in Hfit.
  rewrite total_rows in Hfit. lia.
Qed.

Lemma base_pos : 1 <= base.
Proof. by apply under_rank_pos. Qed.

Lemma rest_pos : 1 <= rest.
Proof. by apply over_rank_pos. Qed.

Lemma bs_pos : 1 <= bs.
Proof. apply x_valid. Qed.

Lemma piece_total len :
  num_total_elements (resize_dim sx dim len) = rows * (base * len).
Proof.
  unfold num_total_elements. rewrite per_sample_resize_dim.
  fold base rest. change (batch_size (resize_dim sx dim len)) with bs.
  unfold rows. lia.
Qed.

Lemma piece_fits len : len <= n -> fits (resize_dim sx dim len).
Proof.
  intros Hlen. pose proof total_small. unfold fits, sizeof_float.
  pose proof x_fits as Hfit. unfold fits, sizeof_float in Hfit.
  rewrite total_rows in Hfit. rewrite piece_total. unfold skip in *.
  assert (rows * (base * len) <= rows * (base * n))
    by (by apply N.mul_le_mono_l, N.mul_le_mono_l).
  lia.
Qed.

Lemma slice_impl_returns σ offset len p c :
  holds σ x xs ->
  1 <= len -> offset + len <= n ->
  malloc (heap σ) (mem_size_of (resize_dim sx dim len)) = Some (p, c) ->
  ∃ pc,
    slice_impl malloc this x dim offset (resize_dim sx dim len) σ
    = Returns (mkTensor (resize_dim sx dim len) this p)
        (allocated σ (resize_dim sx dim len) p pc)
    ∧ heap σ !! p = None
    ∧ piece_of xs dim base skip rows bs (offset, len)
        (resize_dim sx dim len, pc).
Proof.
  intros [Hx Hxlen] Hlen Hoff Hm. fold sx in Hxlen.
  rewrite total_rows in Hxlen.
  pose proof total_small as Hsmall. pose proof base_pos as Hbase.
  pose proof rest_pos as Hrest. pose proof bs_pos as Hbs.
  assert (fits (resize_dim sx dim len)) as Hfit by (apply piece_fits; lia).
  destruct (fresh_block _ malloc_ok _ _ _ _ Hfit Hm) as [Hp Hc].
  rewrite piece_total in Hc.
  assert (1 <= rows) as Hrows by (unfold rows; nia).
  assert (base * len <= skip) as Hspan by (unfold skip; nia).
  assert (skip <= rows * skip) as Hskip by nia.
  destruct (slice_kernel_spec base (base * len) skip rows offset xs c)
    as (pc & Hker & Hpclen & Hpc).
  { unfold skip in *. nia. }
  { lia. }
  { intros r Hr. rewrite Hxlen.
    assert (base * offset + base * len <= skip) by (unfold skip; nia).
    assert (r * skip + skip <= rows * skip) by nia. lia. }
  exists pc. split; [| split; [done |]].
  - unfold slice_impl, bind. fold sx.
    rewrite under_rank_resize_dim, shape_at_resize_dim. fold base n.
    rewrite (wrap32_small base) by lia. unfold umul.
    rewrite (wrap32_small (base * len)), (wrap32_small (base * n)) by lia.
    fold skip. rewrite fits_total, piece_total by done.
    unfold udiv. destruct (N.eqb_spec (base * len) 0) as [? | _]; [nia |].
    cbn [defined]. rewrite N.div_mul by nia.
    rewrite (new_tensor_returns _ this _ _ _ _ Hm), CDATA_new.
    rewrite (CDATA_old _ _ _ _ _ _ Hp Hx).
    fold (umul base offset). fold (slice_kernel base (base * len) skip rows offset xs c).
    rewrite Hker. cbn [defined]. by rewrite commit_new.
  - split; [apply shape_at_resize_dim |]. split; [done |].
    cbn [fst snd]. split; [lia | done].
Qed.

Lemma piece_in_later σ σ' range t :
  heap σ ⊆ heap σ' ->
  piece_in σ xs dim base skip rows bs range t ->
  piece_in σ' xs dim base skip rows bs range t.
Proof.
  intros Hsub (pc & Hpc & Hpiece). exists pc. split; [| done].
  by eapply lookup_weaken.
Qed.

Lemma operands_returns pieces : ∀ σ srcs,
  Forall2 (λ t (sp : Shape * list float),
             sp.1 = shape_ t ∧ heap σ !! data_ t = Some sp.2) pieces srcs ->
  operands pieces σ = Returns srcs σ.
Proof.
  induction pieces as [| t pieces IH]; intros σ srcs Hall.
  - by apply Forall2_nil_inv_l in Hall as ->.
  - apply Forall2_cons_inv_l in Hall
      as ([s c] & srcs' & [Hs Hc] & Hall & ->).
    cbn [fst snd] in *. subst s. cbn [operands]. unfold bind at 1.
    unfold CDATA, bind at 1, get_heap. rewrite Hc. cbn [defined].
    unfold bind. by rewrite (IH σ srcs').
Qed.

Hypothesis malloc_total : ∀ h size, is_Some (malloc h size).

Lemma slice_all_returns ranges : ∀ σ,
  holds σ x xs ->
  Forall (λ r : N * N, 1 <= r.2 ∧ r.1 + r.2 <= n) ranges ->
  ∃ pieces σ',
    slice_all malloc this x dim ranges σ = Returns pieces σ'
    ∧ heap σ ⊆ heap σ'
    ∧ Forall2 (piece_in σ' xs dim base skip rows bs) ranges pieces.
Proof.
  induction ranges as [| [o l] ranges IH]; intros σ Hx Hranges.
  - exists [], σ. split; [done |]. split; [done | constructor].
  - apply Forall_cons in Hranges as [[Hl Ho] Hranges]. cbn in Hl, Ho.
    destruct (malloc_total (heap σ) (mem_size_of (resize_dim sx dim l)))
      as [[p c] Hm].
    destruct (slice_impl_returns σ o l p c Hx Hl Ho Hm)
      as (pc & Hslice & Hp & Hpiece).
    set (σ1 := allocated σ (resize_dim sx dim l) p pc) in *.
    assert (heap σ ⊆ heap σ1) as Hsub by (by apply insert_subseteq).
    destruct (IH σ1) as (pieces & σ' & Hrest & Hsub' & Hpieces);
      [by apply holds_allocated | done |].
    exists (mkTensor (resize_dim sx dim l) this p :: pieces), σ'.
    split; [| split].
    + cbn [slice_all]. unfold bind. fold sx. rewrite Hslice, Hrest. done.
    + by etrans.
    + constructor; [| done]. apply (piece_in_later σ1); [done |].
      exists pc. split; [| done]. cbn. by rewrite lookup_insert_eq.
Qed.

Lemma concat_impl_returns σ ranges pieces p c :
  holds σ x xs ->
  partition 0 n ranges ->
  Forall2 (piece_in σ xs dim base skip rows bs) ranges pieces ->
  malloc (heap σ) (mem_size_of sx) = Some (p, c) ->
  concat_impl malloc this pieces dim sx σ
  = Returns (mkTensor sx this p) (allocated σ sx p xs)
  ∧ heap σ !! p = None.
Proof.
  intros [Hx Hxlen] Hpart Hpieces Hm. fold sx in Hxlen.
  pose proof total_small as Hsmall. pose proof base_pos as Hbase.
  pose proof rest_pos as Hrest. pose proof bs_pos as Hbs.
  destruct (fresh_block _ malloc_ok _ _ _ _ x_fits Hm) as [Hp Hc].
  rewrite total_rows in Hxlen, Hc.
  assert (1 <= n) as Hn.
  { destruct x_valid as [Hd _]. unfold n, shape_at.
    destruct (dims_ sx !! N.to_nat dim) as [e|] eqn:He; cbn; [| lia].
    by apply (Forall_lookup_1 _ _ _ _ Hd He). }
  assert (1 <= rows) as Hrows by (unfold rows; nia).
  assert (skip <= rows * skip) as Hskip by nia.
  (* the operands as the loop reads them *)
  assert (∃ srcs,
    Forall2 (λ t (sp : Shape * list float),
               sp.1 = shape_ t
               ∧ heap (allocated σ sx p c) !! data_ t = Some sp.2)
      pieces srcs
    ∧ Forall2 (piece_of xs dim base skip rows bs) ranges srcs)
    as (srcs & Hsrcs & Hpieces').
  { clear Hpart. induction Hpieces as [| r t ranges pieces Ht _ IH].
    - exists []. split; constructor.
    - destruct IH as (srcs & Hsrcs & Hpieces').
      destruct Ht as (pc & Hpc & Hpiece).
      exists ((shape_ t, pc) :: srcs). split; constructor; try done.
      split; [done |]. cbn.
      rewrite lookup_insert_ne by congruence. done. }
  destruct (concat_pieces_roundtrip xs dim base n rest bs Hbs Hrest Hsmall
              ranges srcs 0 c Hpart Hpieces')
    as (ret & Hfold & Hlen & Hret).
  { lia. }
  { intros r col _ Hcol. lia. }
  rewrite N.mul_0_r in Hfold.
  assert (ret = xs) as ->.
  { apply buffer_eq; [lia |]. intros i Hi.
    assert (i < skip * rows) as Hi' by lia.
    destruct (index_split i skip rows Hi') as (r & col & Hr & Hcol & ->).
    by apply Hret. }
  split; [| done].
  unfold concat_impl, bind. fold sx base n bs. unfold umul.
  rewrite (wrap32_small base), (wrap32_small (base * n)) by (unfold skip in *; lia).
  fold skip. rewrite (per_sample_split sx dim). fold base n rest.
  rewrite wrap32_small by (unfold rows, skip in *; nia).
  unfold udiv. destruct (N.eqb_spec skip 0) as [? | _]; [unfold skip in *; nia |].
  cbn [defined]. fold skip.
  rewrite (N.mul_comm skip rest), N.div_mul by (unfold skip; nia).
  rewrite (new_tensor_returns _ this _ _ _ _ Hm), CDATA_new.
  rewrite (operands_returns pieces _ srcs Hsrcs).
  unfold concat_kernel, skip. rewrite Hfold.
  cbn [mbind option_bind defined].
  by rewrite commit_new.
Qed.
End SliceConcat.

(** C2.  Cut a tensor [x] along any axis into consecutive, non-empty
    ranges that cover the extent of the axis, one [slice_impl] call for
    each, and hand the pieces to [concat_impl] with the same axis and the
    shape of [x]: the tensor that comes back has the shape of [x] and the
    values of [x], and [x] still has them. *)
Theorem slice_concat_roundtrip {Rng : Type}
    (malloc : Heap -> N -> option (ptr * list float))
    (malloc_ok : malloc_spec malloc)
    (malloc_total : ∀ h size, is_Some (malloc h size))
    (this : ptr) (σ : Process Rng) (x : Tensor) (xs : list float)
    (dim : N) (ranges : list (N * N)) :
  holds σ x xs ->
  valid_shape (shape_ x) ->
  fits (shape_ x) ->
  partition 0 (shape_at (shape_ x) dim) ranges ->
  ∃ pieces σ1 y σ2,
    slice_all malloc this x dim ranges σ = Returns pieces σ1
    ∧ concat_impl malloc this pieces dim (shape_ x) σ1 = Returns y σ2
    ∧ shape_ y = shape_ x
    ∧ tensor_to_vector_impl y σ2 = Returns xs σ2
    ∧ tensor_to_vector_impl x σ2 = Returns xs σ2.
Proof.
  intros Hx Hvalid Hfit Hpart.
  destruct (slice_all_returns malloc this malloc_ok x xs dim Hvalid Hfit
              malloc_total ranges σ Hx (partition_in_range _ _ _ Hpart))
    as (pieces & σ1 & Hslices & Hsub & Hpieces).
  assert (holds σ1 x xs) as Hx1.
  { destruct Hx as [Hx Hlen]. split; [| done]. by eapply lookup_weaken. }
  destruct (malloc_total (heap σ1) (mem_size_of (shape_ x))) as [[p c] Hm].
  destruct (concat_impl_returns malloc this malloc_ok x xs dim Hvalid Hfit
              σ1 ranges pieces p c Hx1 Hpart Hpieces Hm) as [Hconcat Hp].
  eexists pieces, σ1, _, _. split; [done |]. split; [exact Hconcat |].
  split; [done |]. split.
  - apply to_vector_new; [done | apply Hx].
  - apply to_vector_holds; [| done]. by apply holds_allocated.
Qed.

(** ** The properties at concrete inputs *)

Lemma bump_malloc_total : ∀ h size, is_Some (bump_malloc h size).
Proof. intros h size. by eexists. Qed.

Lemma dot_2x2_witness :
  ∃ r σ',
    dot_impl bump_malloc 7 (tensor_at 1 [2; 2] 1) (tensor_at 2 [2; 2] 1)
      process_2x2 = Returns r σ'
    ∧ shape_ r = mkShape [2; 2] 1
    ∧ tensor_to_vector_impl r σ'
      = Returns (F32.of_Z <$> [23; 34; 31; 46]%Z) σ'.
Proof.
  eapply (dot_2x2_example bump_malloc bump_malloc_spec 7 process_2x2).
  - reflexivity.
  - reflexivity.
  - split; vm_compute; reflexivity.
  - split; vm_compute; reflexivity.
  - reflexivity.
Defined.

Lemma slice_concat_witness :
  ∃ pieces σ1 y σ2,
    slice_all bump_malloc 7 (tensor_at 1 [2; 3] 2) 1 [(0, 1); (1, 2)]
      process_2x3x2 = Returns pieces σ1
    ∧ concat_impl bump_malloc 7 pieces 1 (mkShape [2; 3] 2) σ1 = Returns y σ2
    ∧ shape_ y = mkShape [2; 3] 2
    ∧ tensor_to_vector_impl y σ2
      = Returns (floats [1; 2; 3; 4; 5; 6; 7; 8; 9; 10; 11; 12]%Z) σ2
    ∧ tensor_to_vector_impl (tensor_at 1 [2; 3] 2) σ2
      = Returns (floats [1; 2; 3; 4; 5; 6; 7; 8; 9; 10; 11; 12]%Z) σ2.
Proof.
  apply (slice_concat_roundtrip bump_malloc bump_malloc_spec bump_malloc_total
           7 process_2x3x2 (tensor_at 1 [2; 3] 2)).
  - split; vm_compute; reflexivity.
  - split; [repeat (apply Forall_cons; split; [done |]); by apply Forall_nil | done].
  - vm_compute. reflexivity.
  - cbn; repeat split; vm_compute; congruence.
Defined.

Lemma elementwise_binary_witness :
  Forall
    (λ io : (Tensor -> Tensor -> M N Tensor) * (float -> float -> float),
       ∃ r σ' ys,
         io.1 (tensor_at 1 [2] 2) (tensor_at 2 [2] 1) process_batched
         = Returns r σ'
         ∧ data_ r = 3 ∧ heap process_batched !! 3 = None
         ∧ dims_ (shape_ r) = [2] ∧ batch_size (shape_ r) = 2
         ∧ holds σ' (tensor_at 1 [2] 2) (floats [1; 2; 3; 4]%Z)
         ∧ holds σ' (tensor_at 2 [2] 1) (floats [10; 20]%Z)
         ∧ tensor_to_vector_impl r σ' = Returns ys σ'
         ∧ N.of_nat (length ys) = 2 * 2
         ∧ ∀ k i, k < 2 -> i < 2 ->
             ∃ va vb,
               load (floats [1; 2; 3; 4]%Z)
                 (sample (mkShape [2] 2) k * 2 + i) = Some va
               ∧ load (floats [10; 20]%Z)
                   (sample (mkShape [2] 1) k * 2 + i) = Some vb
               ∧ load ys (k * 2 + i) = Some (io.2 va vb))
    [(add_impl bump_malloc 7, F32.add);
     (subtract_impl bump_malloc 7, F32.sub);
     (multiply_impl bump_malloc 7, F32.mul);
     (divide_impl bump_malloc 7, F32.div)].
Proof.
  apply Forall_forall. intros [impl op]. cbn [fst snd]. revert impl op.
  eapply (elementwise_binary_broadcast bump_malloc bump_malloc_spec 7
            process_batched (tensor_at 1 [2] 2) (tensor_at 2 [2] 1)).
  - split; vm_compute; reflexivity.
  - split; vm_compute; reflexivity.
  - split; [repeat (apply Forall_cons; split; [done |]); by apply Forall_nil
           | done].
  - split; [repeat (apply Forall_cons; split; [done |]); by apply Forall_nil
           | done].
  - split; [| by right; right]. intros i. unfold shape_at. cbn.
    by destruct (N.to_nat i) as [| []].
  - vm_compute. reflexivity.
  - vm_compute. reflexivity.
  - reflexivity.
Defined.

Lemma add_gradient_witness :
  ∃ ya σ',
    add_gradient_impl (tensor_at 2 [2] 1) (tensor_at 1 [2] 2) process_batched
    = Returns tt σ'
    ∧ σ' = mkProcess (<[2 := ya]> (heap process_batched))
             (dev process_batched)
    ∧ holds σ' (tensor_at 2 [2] 1) ya
    ∧ ((1 : N) = 2 ->
       ∀ j x y, load (floats [10; 20]%Z) j = Some x ->
                load (floats [1; 2; 3; 4]%Z) j = Some y ->
                load ya j = Some (F32.add x y))
    ∧ ((1 : N) = 1 ->
       ∀ i x, i < 2 -> load (floats [10; 20]%Z) i = Some x ->
              load ya i
              = Some (fold_left F32.add
                        (column (floats [1; 2; 3; 4]%Z) 2 i 2) x))
    ∧ ((2 : N) = 1 ->
       ∀ k i x y, k < 1 -> i < 2 ->
                  load (floats [10; 20]%Z) (k * 2 + i) = Some x ->
                  load (floats [1; 2; 3; 4]%Z) i = Some y ->
                  load ya (k * 2 + i) = Some (F32.add x y)).
Proof.
  apply (add_gradient_broadcast process_batched (tensor_at 2 [2] 1)
           (tensor_at 1 [2] 2)).
  - split; vm_compute; reflexivity.
  - split; vm_compute; reflexivity.
  - split; [repeat (apply Forall_cons; split; [done |]); by apply Forall_nil
           | done].
  - split; [repeat (apply Forall_cons; split; [done |]); by apply Forall_nil
           | done].
  - split; [| by right; left]. intros i. unfold shape_at. cbn.
    by destruct (N.to_nat i) as [| []].
  - vm_compute. reflexivity.
Defined.


Lemma random_bernoulli_witness :
  ∃ r σ' ys,
    random_bernoulli_impl bump_malloc coin 7 (mkShape [2; 3] 1) half
      fresh_process = Returns r σ'
    ∧ shape_ r = mkShape [2; 3] 1
    ∧ tensor_to_vector_impl r σ' = Returns ys σ'
    ∧ N.of_nat (length ys) = num_total_elements (mkShape [2; 3] 1)
    ∧ ys = F32.of_bool
             <$> (draws (coin half)
                    (N.to_nat (num_total_elements (mkShape [2; 3] 1)))
                    (rng_ (dev fresh_process))).1
    ∧ Forall (λ y, y = F32.zero ∨ y = F32.one) ys.
Proof.
  eapply (random_bernoulli_zero_or_one bump_malloc bump_malloc_spec coin 7
            fresh_process (mkShape [2; 3] 1) half).
  - vm_compute. reflexivity.
  - reflexivity.
Defined.

Lemma relu_step_witness :
  ∃ r σr σs ys zs,
    relu_impl bump_malloc 7 (tensor_at 1 [3] 1) process_signs = Returns r σr
    ∧ step_impl bump_malloc 7 (tensor_at 1 [3] 1) process_signs
      = Returns r σs
    ∧ shape_ r = mkShape [3] 1
    ∧ tensor_to_vector_impl r σr = Returns ys σr
    ∧ tensor_to_vector_impl r σs = Returns zs σs
    ∧ Forall2 (λ xi yi,
                 (F32.is_nan xi = false -> F32.geb yi F32.zero = true)
                 ∧ (F32.is_nan xi = true -> F32.is_nan yi = true)
                 ∧ (F32.eqb yi F32.zero = true ↔ F32.leb xi F32.zero = true))
        (floats [-1; 0; 2]%Z) ys
    ∧ Forall2 (λ xi zi,
                 (zi = F32.zero ∨ zi = F32.one)
                 ∧ (zi = F32.one ↔ F32.gtb xi F32.zero = true))
        (floats [-1; 0; 2]%Z) zs.
Proof.
  eapply (relu_step_elements bump_malloc bump_malloc_spec 7 process_signs
            (tensor_at 1 [3] 1)).
  - split; vm_compute; reflexivity.
  - vm_compute. reflexivity.
  - reflexivity.
Defined.

(** The claim C6 as the specification words it fails on NaN: [relu_impl]
    stores NaN for a NaN element, and NaN is not at least 0. *)
Lemma relu_nan_counterexample :
  ∃ r σ' y,
    relu_impl bump_malloc 7 (tensor_at 1 [1] 1) process_nan = Returns r σ'
    ∧ tensor_to_vector_impl r σ' = Returns [y] σ'
    ∧ F32.geb y F32.zero = false.
Proof.
  eexists _, _, _. split; [vm_compute; reflexivity |].
  split; [vm_compute; reflexivity | reflexivity].
Qed.

(** A client of a new device allocates two blocks and disposes of them:
    both allocations and both disposals are served, the registry is empty
    afterwards and the device is destroyed silently; had the client kept
    the second block, the destructor would abort and report it. *)
Lemma registry_witness :
  malloc_spec bump_malloc
  ∧ (∃ σ',
       serve_all bump_malloc
         [Alloc (mkShape [2; 2] 1); Alloc (mkShape [3] 2);
          Dispose (tensor_at 1 [2; 2] 1); Dispose (tensor_at 2 [3] 2)]
         fresh_process
       = Returns [Allocated 1; Allocated 2; Disposed 1; Disposed 2] σ'
       ∧ blocks_ (dev σ') = ∅
       ∧ heap σ' = ∅
       ∧ CPUDevice_delete (dev σ') = Destroyed)
  ∧ (∃ σ',
       serve_all bump_malloc
         [Alloc (mkShape [2; 2] 1); Alloc (mkShape [3] 2);
          Dispose (tensor_at 1 [2; 2] 1)]
         fresh_process
       = Returns [Allocated 1; Allocated 2; Disposed 1] σ'
       ∧ blocks_ (dev σ') = {[2 := 24]}
       ∧ CPUDevice_delete (dev σ')
         = Aborted [[Text "FATAL ERROR: Detected memory leak on CPUDevice!"];
                    [Text "Leaked blocks (handle: size):"];
                    [Text "  "; Addr 2; Text ": "; Num 24]])
  ∧ (∃ e σ',
       serve_all bump_malloc
         [Alloc (mkShape [2; 2] 1); Dispose (tensor_at 1 [2; 2] 1);
          Dispose (tensor_at 1 [2; 2] 1)]
         fresh_process
       = Returns [Allocated 1; Disposed 1; Failed e] σ'
       ∧ blocks_ (dev σ') = ∅).
Proof.
  pose proof (registry_tracks_outstanding_handles (Rng := N) bump_malloc
                bump_malloc_spec) as (_ & _ & _ & _ & Hall & Hend).
  split; [exact bump_malloc_spec |]. split; [| split].
  - destruct (Hall ∅ 0
                [Alloc (mkShape [2; 2] 1); Alloc (mkShape [3] 2);
                 Dispose (tensor_at 1 [2; 2] 1); Dispose (tensor_at 2 [3] 2)])
      as (events & σ' & Hrun & _ & _ & Hnone & _).
    assert (events = [Allocated 1; Allocated 2; Disposed 1; Disposed 2]
            ∧ heap σ' = ∅) as [-> Hheap].
    { vm_compute in Hrun. injection Hrun as <- <-. split; reflexivity. }
    exists σ'. split; [exact Hrun |].
    destruct Hnone as [Hb Hd]; [vm_compute; reflexivity |]. done.
  - destruct (Hall ∅ 0
                [Alloc (mkShape [2; 2] 1); Alloc (mkShape [3] 2);
                 Dispose (tensor_at 1 [2; 2] 1)])
      as (events & σ' & Hrun & _ & _ & _ & _).
    assert (events = [Allocated 1; Allocated 2; Disposed 1]
            ∧ blocks_ (dev σ') = {[2 := 24]}) as [-> Hb].
    { vm_compute in Hrun. injection Hrun as <- <-. split; reflexivity. }
    exists σ'. split; [exact Hrun |]. split; [done |].
    unfold CPUDevice_delete. rewrite Hb. vm_compute. reflexivity.
  - destruct (Hall ∅ 0
                [Alloc (mkShape [2; 2] 1); Dispose (tensor_at 1 [2; 2] 1);
                 Dispose (tensor_at 1 [2; 2] 1)])
      as (events & σ' & Hrun & _ & _ & Hnone & _).
    assert (∃ e, events = [Allocated 1; Disposed 1; Failed e]) as [e ->].
    { vm_compute in Hrun. injection Hrun as <- <-. by eexists. }
    exists e, σ'. split; [exact Hrun |].
    destruct Hnone as [Hb Hd]; [vm_compute; reflexivity |]. done.
Defined.


(** The claim C10 as the specification words it, for every shape, fails
    for a shape with 2^30 elements: the size of its block in bytes wraps
    around to 0, [new_handle] registers the empty block that [malloc]
    returns for it, and the first store of the kernel is outside the
    block. *)
Lemma random_bernoulli_counterexample :
  num_total_elements shape_2pow30 = 2 ^ 30
  ∧ mem_size_of shape_2pow30 = 0
  ∧ new_tensor bump_malloc 7 shape_2pow30 fresh_process
    = Returns (mkTensor shape_2pow30 7 1)
        (allocated fresh_process shape_2pow30 1 [])
  ∧ F32.leb F32.zero half && F32.leb half F32.one = true
  ∧ random_bernoulli_impl bump_malloc coin 7 shape_2pow30 half fresh_process
    = Undefined.
Proof.
  split; [reflexivity |]. split; [reflexivity |].
  split; [by apply new_tensor_returns |]. split; [reflexivity |].
  by apply (random_bernoulli_overruns _ _ _ _ _ _ 1 []).
Qed.

(** * Further properties of the device *)

(** ** Storage life cycle *)

Lemma dispose_allocated {Rng : Type}
    (malloc : Heap -> N -> option (ptr * list float))
    (malloc_ok : malloc_spec malloc) (this : ptr)
    (σ : Process Rng) (s : Shape) (p : ptr) (c ys : list float) :
  registry_live σ ->
  malloc (heap σ) (mem_size_of s) = Some (p, c) ->
  blocks_ (dev σ) !! p = None
  ∧ blocks_ (dev (allocated σ s p ys))
    = <[p := mem_size_of s]> (blocks_ (dev σ))
  ∧ delete_tensor_impl (mkTensor s this p) (allocated σ s p ys)
    = Returns tt σ.
Proof.
  intros Hlive Hm.
  destruct (malloc_ok _ _ _ _ Hm) as (Hnull & Hfresh & _).
  pose proof (malloc_unregistered malloc malloc_ok _ _ _ _ Hlive Hm) as Hp.
  assert (blocks_ (dev (allocated σ s p ys))
          = <[p := mem_size_of s]> (blocks_ (dev σ))) as Hreg.
  { cbn. by rewrite map_insert_fresh. }
  split; [done |]. split; [done |].
  rewrite (delete_tensor_returns _ (mkTensor s this p) (mem_size_of s)).
  - f_equal. rewrite Hreg. destruct σ as [h [b g]]. cbn in *. unfold freed.
    apply N.eqb_neq in Hnull as ->. by rewrite !delete_insert_id.
  - rewrite Hreg. apply lookup_insert_eq.
  - cbn. rewrite lookup_insert_eq. eauto.
Qed.

(** X1.  A tensor that [new_tensor] returns is valid and is registered
    under the byte size of its shape; disposing of it at once gives back
    the state in which it was requested, heap and registry. *)
Theorem new_tensor_then_delete_restores {Rng : Type}
    (malloc : Heap -> N -> option (ptr * list float))
    (malloc_ok : malloc_spec malloc) (this : ptr)
    (σ : Process Rng) (s : Shape) (p : ptr) (c : list float) :
  registry_live σ ->
  malloc (heap σ) (mem_size_of s) = Some (p, c) ->
  ∃ r σ',
    new_tensor malloc this s σ = Returns r σ'
    ∧ valid r = true
    ∧ shape_ r = s ∧ device_ r = this
    ∧ blocks_ (dev σ') !! data_ r = Some (mem_size_of s)
    ∧ delete_tensor_impl r σ' = Returns tt σ.
Proof.
  intros Hlive Hm.
  destruct (malloc_ok _ _ _ _ Hm) as (Hnull & _ & _).
  destruct (dispose_allocated malloc malloc_ok this σ s p c c Hlive Hm)
    as (_ & Hreg & Hdel).
  exists (mkTensor s this p), (allocated σ s p c).
  split; [by apply new_tensor_returns |].
  split; [unfold valid; cbn; by apply negb_true_iff, N.eqb_neq |].
  split; [done |]. split; [done |]. split; [| done].
  rewrite Hreg. apply lookup_insert_eq.
Qed.

(** X2.  A second [delete_tensor_impl] of a tensor that was disposed of
    throws, and leaves the state that the first one made. *)
Theorem delete_tensor_twice_throws {Rng : Type} (σ σ' : Process Rng)
    (x : Tensor) :
  delete_tensor_impl x σ = Returns tt σ' ->
  delete_tensor_impl x σ'
  = Throws (mkError [Text "Attempted to dispose unknown memory block: ";
                     Addr (data_ x)]) σ'.
Proof.
  intros Hdel.
  destruct (delete_tensor_returns_inv _ _ _ _ Hdel) as (_ & Hb & _).
  apply delete_tensor_throws. rewrite Hb. apply lookup_delete_eq.
Qed.

(** ** Memory that cannot be had *)

Section OutOfMemory.
Context {Rng : Type}.
Variable malloc : Heap -> N -> option (ptr * list float).
Variable this : ptr.
Implicit Types (σ : Process Rng) (s : Shape).

Lemma new_tensor_throws σ s :
  malloc (heap σ) (mem_size_of s) = None ->
  new_tensor malloc this s σ
  = Throws (mkError [Text "Memory allocation failed. Requested size: ";
                     Num (mem_size_of s)]) σ.
Proof.
  intros Hm. unfold new_tensor, bind. by rewrite new_handle_throws.
Qed.
End OutOfMemory.

(** X3.  When [malloc] returns a null pointer for the block of the result,
    each kernel that starts by allocating its result throws the error of
    [new_handle], which names the size that was asked for, and leaves the
    state as it was: nothing is registered and no block is touched.  The
    kernels that build the shape of their result do so from well-formed
    operands. *)
Theorem allocation_failure_throws {Rng : Type}
    (malloc : Heap -> N -> option (ptr * list float)) (this : ptr)
    (σ : Process Rng) (s : Shape) :
  malloc (heap σ) (mem_size_of s) = None ->
  (∀ x f, shape_ x = s ->
     unary_impl malloc this f x σ = Throws (out_of_memory s) σ)
  ∧ (∀ x, shape_ x = s ->
       duplicate_impl malloc this x σ = Throws (out_of_memory s) σ)
  ∧ (∀ a b op, valid_shape (shape_ a) -> valid_shape (shape_ b) ->
       resize_batch (shape_ a)
         (N.max (batch_size (shape_ a)) (batch_size (shape_ b))) = s ->
       binary_impl malloc this op a b σ = Throws (out_of_memory s) σ)
  ∧ (∀ a b, valid_shape (shape_ a) -> valid_shape (shape_ b) ->
       mkShape [shape_at (shape_ a) 0; shape_at (shape_ b) 1]
         (N.max (batch_size (shape_ a)) (batch_size (shape_ b))) = s ->
       dot_impl malloc this a b σ = Throws (out_of_memory s) σ)
  ∧ (∀ x, valid_shape (shape_ x) ->
       mkShape [shape_at (shape_ x) 1; shape_at (shape_ x) 0]
         (batch_size (shape_ x)) = s ->
       transpose_impl malloc this x σ = Throws (out_of_memory s) σ)
  ∧ (∀ x dim, valid_shape (shape_ x) -> resize_dim (shape_ x) dim 1 = s ->
       sum_impl malloc this x dim σ = Throws (out_of_memory s) σ)
  ∧ (∀ x, valid_shape (shape_ x) -> resize_batch (shape_ x) 1 = s ->
       batch_sum_impl malloc this x σ = Throws (out_of_memory s) σ)
  ∧ (∀ dist prob,
       random_bernoulli_impl malloc dist this s prob σ
       = Throws (out_of_memory s) σ)
  ∧ (∀ dist lower upper,
       random_uniform_impl malloc dist this s lower upper σ
       = Throws (out_of_memory s) σ).
Proof.
  intros Hm. pose proof (new_tensor_throws malloc this σ s Hm) as Hnew.
  repeat apply conj.
  - intros x f <-. unfold unary_impl, bind. by rewrite Hnew.
  - intros x <-. unfold duplicate_impl, bind. by rewrite Hnew.
  - intros a b op _ _ <-. unfold binary_impl, bind. by rewrite Hnew.
  - intros a b _ _ <-. unfold dot_impl, bind. by rewrite Hnew.
  - intros x _ <-. unfold transpose_impl, bind. by rewrite Hnew.
  - intros x dim _ <-. unfold sum_impl, bind. by rewrite Hnew.
  - intros x _ <-. unfold batch_sum_impl, bind. by rewrite Hnew.
  - intros dist prob. unfold random_bernoulli_impl, bind. by rewrite Hnew.
  - intros dist lower upper. unfold random_uniform_impl, bind.
    by rewrite Hnew.
Qed.

(** ** Writing and reading the values of a tensor *)

Lemma memcpy_spec dest src n :
  n <= N.of_nat (length src) -> n <= N.of_nat (length dest) ->
  memcpy dest src n = Some (take (N.to_nat n) src ++ drop (N.to_nat n) dest).
Proof.
  intros Hs Hd. unfold memcpy.
  apply N.leb_le in Hs as ->. apply N.leb_le in Hd as ->. done.
Qed.

Lemma memcpy_all dest src n :
  n <= N.of_nat (length src) -> n = N.of_nat (length dest) ->
  memcpy dest src n = Some (take (N.to_nat n) src).
Proof.
  intros Hs Hd. rewrite memcpy_spec by lia.
  rewrite drop_ge by lia. by rewrite app_nil_r.
Qed.

Lemma memcpy_short dest src n :
  N.of_nat (length src) < n -> memcpy dest src n = None.
Proof.
  intros Hs. unfold memcpy. apply N.leb_gt in Hs as ->. done.
Qed.

Lemma fill_kernel_spec k size dest :
  N.of_nat (length dest) = size ->
  fill_kernel k size dest = Some (replicate (N.to_nat size) k).
Proof.
  intros Hdest. unfold fill_kernel.
  destruct (REPEAT_OP_inv
    (λ j d, length d = length dest ∧ ∀ i, i < j -> load d i = Some k)
    size (λ i d, store d i k) dest) as (d & Hrun & Hlen & Hd).
  - split; [done |]. intros i Hi. lia.
  - intros j d Hj [Hlen Hd].
    destruct (store_spec d j k) as (d' & Hst & Hlen' & Hjj & Hother); [lia |].
    exists d'. split; [done |]. split; [congruence |].
    intros i Hi. destruct (decide (i = j)) as [-> | Hne]; [done |].
    rewrite Hother by done. apply Hd. lia.
  - rewrite Hrun. f_equal. apply buffer_eq.
    + rewrite length_replicate. lia.
    + intros i Hi. rewrite Hd by lia. symmetry.
      apply lookup_replicate_2. lia.
Qed.

Section InPlace.
Context {Rng : Type}.
Implicit Types (σ : Process Rng) (x : Tensor).

Lemma CDATA_holds σ x xs :
  heap σ !! data_ x = Some xs -> CDATA x σ = Returns xs σ.
Proof.
  intros Hx. unfold CDATA, bind, get_heap, defined. cbn. by rewrite Hx.
Qed.

Lemma to_vector_written σ x d :
  num_total_elements (shape_ x) < 2 ^ 32 ->
  N.of_nat (length d) = num_total_elements (shape_ x) ->
  tensor_to_vector_impl x (written σ x d) = Returns d (written σ x d).
Proof.
  intros Hfit Hlen. unfold tensor_to_vector_impl, bind.
  rewrite (CDATA_holds _ _ d) by (cbn; apply lookup_insert_eq).
  rewrite wrap32_small by done.
  rewrite <- Hlen, N.leb_refl. unfold ret. f_equal.
  rewrite Nat2N.id. apply firstn_all.
Qed.

Lemma to_vector_unwritten σ x y d ys :
  data_ y ≠ data_ x -> holds σ y ys ->
  num_total_elements (shape_ y) < 2 ^ 32 ->
  tensor_to_vector_impl y (written σ x d) = Returns ys (written σ x d).
Proof.
  intros Hne [Hy Hlen] Hfit. unfold tensor_to_vector_impl, bind.
  rewrite (CDATA_holds _ _ ys) by (cbn; by rewrite lookup_insert_ne).
  rewrite wrap32_small by done.
  rewrite <- Hlen, N.leb_refl. unfold ret. f_equal.
  rewrite Nat2N.id. apply firstn_all.
Qed.

Lemma reset_tensor_returns σ x xs k :
  holds σ x xs -> num_total_elements (shape_ x) < 2 ^ 32 ->
  reset_tensor_impl x k σ
  = Returns tt
      (written σ x (replicate (N.to_nat (num_total_elements (shape_ x))) k)).
Proof.
  intros [Hx Hlen] Hfit. unfold reset_tensor_impl, bind.
  rewrite (CDATA_holds _ _ _ Hx), wrap32_small by done.
  rewrite fill_kernel_spec by done. reflexivity.
Qed.

Lemma reset_values_returns σ x xs values :
  holds σ x xs -> num_total_elements (shape_ x) < 2 ^ 32 ->
  1 <= num_total_elements (shape_ x) ->
  num_total_elements (shape_ x) <= N.of_nat (length values) ->
  reset_tensor_impl_values x values σ
  = Returns tt
      (written σ x (take (N.to_nat (num_total_elements (shape_ x))) values)).
Proof.
  intros [Hx Hlen] Hfit Hpos Hvals. unfold reset_tensor_impl_values, bind.
  rewrite (CDATA_holds _ _ _ Hx), wrap32_small by done.
  destruct values as [| v values]; [cbn in Hvals; lia |].
  rewrite memcpy_all by done. reflexivity.
Qed.
End InPlace.

Lemma fits_lt s : fits s -> num_total_elements s < 2 ^ 32.
Proof. unfold fits, sizeof_float. lia. Qed.

Lemma valid_total_pos s : valid_shape s -> 1 <= num_total_elements s.
Proof.
  intros [Hd Hk]. pose proof (product_pos _ Hd).
  unfold num_total_elements, num_elements_per_sample, batch_size. nia.
Qed.

(** X4.  Round trip of [reset_tensor_impl(Tensor &, const vector &)] and
    [tensor_to_vector_impl]: after the values were set from a vector that
    has one value for each element, reading the tensor back gives that
    vector.  Of a longer vector the surplus is ignored.  The shape, the
    registry and every other block stay as they were. *)
Theorem set_values_roundtrip {Rng : Type} (σ : Process Rng) (x : Tensor)
    (xs values : list float) :
  let n := num_total_elements (shape_ x) in
  holds σ x xs -> valid_shape (shape_ x) -> fits (shape_ x) ->
  n <= N.of_nat (length values) ->
  ∃ σ',
    reset_tensor_impl_values x values σ = Returns tt σ'
    ∧ tensor_to_vector_impl x σ' = Returns (take (N.to_nat n) values) σ'
    ∧ (N.of_nat (length values) = n ->
       tensor_to_vector_impl x σ' = Returns values σ')
    ∧ dev σ' = dev σ
    ∧ ∀ q, q ≠ data_ x -> heap σ' !! q = heap σ !! q.
Proof.
  intros n Hx Hvalid Hfit Hvals.
  pose proof (fits_lt _ Hfit) as Hlt.
  pose proof (valid_total_pos _ Hvalid) as Hpos.
  exists (written σ x (take (N.to_nat n) values)).
  split; [by eapply reset_values_returns |].
  assert (tensor_to_vector_impl x (written σ x (take (N.to_nat n) values))
          = Returns (take (N.to_nat n) values)
              (written σ x (take (N.to_nat n) values))) as Hread.
  { apply to_vector_written; [done |]. rewrite length_take. fold n. lia. }
  split; [done |]. split.
  - intros Heq. rewrite Hread. by rewrite take_ge by lia.
  - split; [done |]. intros q Hq. cbn. by rewrite lookup_insert_ne.
Qed.

(** X5.  [reset_tensor_impl(Tensor &, const vector &)] does not check the
    length of the vector: with fewer values than the shape has elements
    the copy reads past the end of the vector, and the call has no defined
    result. *)
Theorem set_values_short_undefined {Rng : Type} (σ : Process Rng)
    (x : Tensor) (values : list float) :
  fits (shape_ x) ->
  N.of_nat (length values) < num_total_elements (shape_ x) ->
  reset_tensor_impl_values x values σ = Undefined.
Proof.
  intros Hfit Hshort. unfold reset_tensor_impl_values, bind.
  unfold CDATA at 1, bind, get_heap, defined.
  destruct (heap σ !! data_ x) as [dest |]; [| done].
  destruct values; [done |].
  rewrite wrap32_small by by apply fits_lt.
  by rewrite memcpy_short.
Qed.

(** X6.  After [reset_tensor_impl(Tensor &, float)] every element of the
    tensor is the constant; the registry and every other block stay as
    they were. *)
Theorem reset_fills {Rng : Type} (σ : Process Rng) (x : Tensor)
    (xs : list float) (k : float) :
  let n := num_total_elements (shape_ x) in
  holds σ x xs -> fits (shape_ x) ->
  ∃ σ',
    reset_tensor_impl x k σ = Returns tt σ'
    ∧ tensor_to_vector_impl x σ' = Returns (replicate (N.to_nat n) k) σ'
    ∧ dev σ' = dev σ
    ∧ ∀ q, q ≠ data_ x -> heap σ' !! q = heap σ !! q.
Proof.
  intros n Hx Hfit. pose proof (fits_lt _ Hfit) as Hlt.
  exists (written σ x (replicate (N.to_nat n) k)).
  split; [by eapply reset_tensor_returns |]. split.
  - apply to_vector_written; [done |]. rewrite length_replicate. lia.
  - split; [done |]. intros q Hq. cbn. by rewrite lookup_insert_ne.
Qed.

(** ** Kernels that allocate their result *)

Section Computes.
Context {Rng : Type}.
Variable malloc : Heap -> N -> option (ptr * list float).
Variable this : ptr.
Hypothesis malloc_ok : malloc_spec malloc.
Implicit Types (σ : Process Rng) (x : Tensor) (s : Shape).

Lemma allocated_frame σ s p c q d :
  heap σ !! p = None -> heap σ !! q = Some d ->
  heap (allocated σ s p c) !! q = Some d.
Proof. intros Hp Hq. cbn. rewrite lookup_insert_ne by congruence. done. Qed.

Lemma computes_allocated σ (m : M Rng Tensor) s p c ys :
  fits s -> malloc (heap σ) (mem_size_of s) = Some (p, c) ->
  m σ = Returns (mkTensor s this p) (allocated σ s p ys) ->
  N.of_nat (length ys) = num_total_elements s ->
  computes σ m s ys.
Proof.
  intros Hfit Hm Hrun Hlen.
  destruct (fresh_block _ malloc_ok _ _ _ _ Hfit Hm) as [Hp _].
  exists (mkTensor s this p), (allocated σ s p ys).
  split; [done |]. split; [done |]. split; [done |]. split.
  - intros q d. by apply allocated_frame.
  - by apply to_vector_new.
Qed.

Lemma holds_new σ s p ys :
  N.of_nat (length ys) = num_total_elements s ->
  holds (allocated σ s p ys) (mkTensor s this p) ys.
Proof. intros Hlen. split; [apply lookup_insert_eq | done]. Qed.

Lemma unary_computes f σ x xs p c :
  holds σ x xs -> fits (shape_ x) ->
  malloc (heap σ) (mem_size_of (shape_ x)) = Some (p, c) ->
  computes σ (unary_impl malloc this f x) (shape_ x) (f <$> xs).
Proof.
  intros Hx Hfit Hm. eapply computes_allocated; [done | done | |].
  - by eapply unary_impl_returns.
  - rewrite length_fmap. apply Hx.
Qed.

Lemma duplicate_impl_returns σ x xs p c :
  holds σ x xs -> fits (shape_ x) ->
  malloc (heap σ) (mem_size_of (shape_ x)) = Some (p, c) ->
  duplicate_impl malloc this x σ
  = Returns (mkTensor (shape_ x) this p) (allocated σ (shape_ x) p xs).
Proof.
  intros [Hx Hlen] Hfit Hm.
  destruct (fresh_block _ malloc_ok _ _ _ _ Hfit Hm) as [Hp Hc].
  unfold duplicate_impl, bind.
  rewrite (new_tensor_returns _ _ _ _ _ _ Hm), CDATA_new.
  rewrite (CDATA_old _ _ _ _ _ _ Hp Hx), fits_total by done.
  rewrite memcpy_all by lia. cbn [defined].
  rewrite commit_new. unfold ret. do 3 f_equal.
  apply take_ge. lia.
Qed.
End Computes.

(** X7.  [duplicate_impl] returns a tensor of the same shape in a block of
    its own that holds the values of the operand, which is left as it was.
    The two do not share storage: resetting either one afterwards leaves
    the values of the other. *)
Theorem duplicate_is_independent_copy {Rng : Type}
    (malloc : Heap -> N -> option (ptr * list float))
    (malloc_ok : malloc_spec malloc) (this : ptr)
    (σ : Process Rng) (x : Tensor) (xs : list float) (p : ptr)
    (c : list float) :
  holds σ x xs -> fits (shape_ x) ->
  malloc (heap σ) (mem_size_of (shape_ x)) = Some (p, c) ->
  ∃ r σ',
    duplicate_impl malloc this x σ = Returns r σ'
    ∧ shape_ r = shape_ x
    ∧ data_ r = p ∧ heap σ !! p = None
    ∧ tensor_to_vector_impl r σ' = Returns xs σ'
    ∧ tensor_to_vector_impl x σ' = Returns xs σ'
    ∧ (∀ k, ∃ σ'', reset_tensor_impl r k σ' = Returns tt σ''
                   ∧ tensor_to_vector_impl x σ'' = Returns xs σ'')
    ∧ (∀ k, ∃ σ'', reset_tensor_impl x k σ' = Returns tt σ''
                   ∧ tensor_to_vector_impl r σ'' = Returns xs σ'').
Proof.
  intros Hx Hfit Hm. pose proof (fits_lt _ Hfit) as Hlt.
  destruct (fresh_block _ malloc_ok _ _ _ _ Hfit Hm) as [Hp Hc].
  set (r := mkTensor (shape_ x) this p).
  set (σ' := allocated σ (shape_ x) p xs).
  assert (holds σ' x xs) as Hx' by by apply holds_allocated.
  assert (holds σ' r xs) as Hr' by (apply holds_new, Hx).
  assert (data_ r ≠ data_ x) as Hne.
  { cbn. intros Heq. destruct Hx as [Hx _]. rewrite <- Heq in Hx. congruence. }
  exists r, σ'. split; [by eapply duplicate_impl_returns |].
  split; [done |]. split; [done |]. split; [done |].
  split; [by apply to_vector_holds |]. split; [by apply to_vector_holds |].
  split; intros k; eexists.
  - split; [by eapply reset_tensor_returns |].
    by apply to_vector_unwritten.
  - split; [by eapply reset_tensor_returns |].
    by apply to_vector_unwritten.
Qed.

(** X8.  [negate_impl] and the six kernels with a scalar operand apply
    their operation to every element: the result has the shape of the
    operand, is in a new block, and the operand is left as it was. *)
Theorem scalar_kernels_elementwise {Rng : Type}
    (malloc : Heap -> N -> option (ptr * list float))
    (malloc_ok : malloc_spec malloc) (this : ptr)
    (σ : Process Rng) (x : Tensor) (xs : list float) (p : ptr)
    (c : list float) (k : float) :
  holds σ x xs -> fits (shape_ x) ->
  malloc (heap σ) (mem_size_of (shape_ x)) = Some (p, c) ->
  let s := shape_ x in
  computes σ (negate_impl malloc this x) s (SFopp <$> xs)
  ∧ computes σ (λ σ, add_impl_xk malloc this x k σ) s
      ((λ v, F32.add v k) <$> xs)
  ∧ computes σ (λ σ, subtract_impl_xk malloc this x k σ) s
      ((λ v, F32.sub v k) <$> xs)
  ∧ computes σ (λ σ, subtract_impl_kx malloc this k x σ) s
      ((λ v, F32.sub k v) <$> xs)
  ∧ computes σ (λ σ, multiply_impl_xk malloc this x k σ) s
      ((λ v, F32.mul v k) <$> xs)
  ∧ computes σ (λ σ, divide_impl_xk malloc this x k σ) s
      ((λ v, F32.div v k) <$> xs)
  ∧ computes σ (λ σ, divide_impl_kx malloc this k x σ) s
      ((λ v, F32.div k v) <$> xs).
Proof.
  intros Hx Hfit Hm s.
  repeat split; by eapply (unary_computes malloc this malloc_ok).
Qed.

(** ** How the element-wise kernels compose *)

Lemma negate_elem_involutive x : negate_elem (negate_elem x) = x.
Proof. destruct x as [[] | [] | | [] m e]; reflexivity. Qed.

Lemma F32_add_comm x y : F32.add x y = F32.add y x.
Proof.
  destruct x as [[] | [] | | sx mx ex], y as [[] | [] | | sy my ey];
    try reflexivity.
  unfold F32.add, SFadd. by rewrite Z.min_comm, Z.add_comm.
Qed.

Lemma F32_mul_comm x y : F32.mul x y = F32.mul y x.
Proof.
  destruct x as [[] | [] | | sx mx ex], y as [[] | [] | | sy my ey];
    try reflexivity; unfold F32.mul, SFmul;
    try (by rewrite xorb_comm).
  by rewrite xorb_comm, Pos.mul_comm, Z.add_comm.
Qed.

(** [a - b] and [a + (-b)] are the same value. *)
Lemma F32_sub_add_negate x y : F32.sub x y = F32.add x (negate_elem y).
Proof.
  destruct x as [[] | [] | | sx mx ex], y as [[] | [] | | sy my ey];
    try reflexivity.
  unfold F32.sub, F32.add, SFsub, SFadd, negate_elem, SFopp.
  f_equal. destruct sy; cbn [negb cond_Zopp]; lia.
Qed.

Lemma relu_elem_idempotent x : relu_elem (relu_elem x) = relu_elem x.
Proof.
  unfold relu_elem, F32.max.
  destruct (F32.ltb x F32.zero) eqn:Hlt; [reflexivity |]. by rewrite Hlt.
Qed.

Lemma step_relu_elem x : step_elem (relu_elem x) = step_elem x.
Proof.
  unfold relu_elem, F32.max.
  destruct (F32.ltb x F32.zero) eqn:Hlt; [| reflexivity].
  unfold step_elem, F32.gtb, F32.ltb, SFltb in *.
  destruct (SFcompare x F32.zero) as [[] |]; done.
Qed.

Lemma map_map_id (f : float -> float) (xs : list float) :
  (∀ x, f (f x) = x) -> f <$> (f <$> xs) = xs.
Proof.
  intros Hf. rewrite <- list_fmap_compose. rewrite <- (list_fmap_id xs) at 2.
  apply list_fmap_ext. intros _ x _. apply Hf.
Qed.

(** X9.  Negating twice gives back the values of the operand: the same
    numbers, infinities and signed zeros, and NaN where the operand has
    NaN. *)
Theorem negate_involutive {Rng : Type}
    (malloc : Heap -> N -> option (ptr * list float))
    (malloc_ok : malloc_spec malloc) (this : ptr)
    (malloc_total : ∀ h size, is_Some (malloc h size))
    (σ : Process Rng) (x : Tensor) (xs : list float) :
  holds σ x xs -> fits (shape_ x) ->
  ∃ y σ1,
    negate_impl malloc this x σ = Returns y σ1
    ∧ computes σ1 (negate_impl malloc this y) (shape_ x) xs.
Proof.
  intros Hx Hfit.
  destruct (malloc_total (heap σ) (mem_size_of (shape_ x))) as [[p c] Hm].
  set (σ1 := allocated σ (shape_ x) p (negate_elem <$> xs)).
  destruct (malloc_total (heap σ1) (mem_size_of (shape_ x))) as [[p' c'] Hm'].
  exists (mkTensor (shape_ x) this p), σ1.
  split; [by eapply unary_impl_returns |].
  assert (holds σ1 (mkTensor (shape_ x) this p) (negate_elem <$> xs)) as Hy.
  { apply holds_new. rewrite length_fmap. apply Hx. }
  pose proof (unary_computes malloc this malloc_ok negate_elem σ1
                (mkTensor (shape_ x) this p) _ p' c' Hy Hfit Hm') as Hrun.
  by rewrite (map_map_id _ _ negate_elem_involutive) in Hrun.
Qed.

(** X10.  [relu_impl] is idempotent, and [step_impl] does not see it:
    the values of [relu(relu(x))] are those of [relu(x)], and the values
    of [step(relu(x))] are those of [step(x)]: the same numbers, the zeros
    with their sign, and NaN where the other has NaN. *)
Theorem relu_idempotent_step_absorbs {Rng : Type}
    (malloc : Heap -> N -> option (ptr * list float))
    (malloc_ok : malloc_spec malloc) (this : ptr)
    (malloc_total : ∀ h size, is_Some (malloc h size))
    (σ : Process Rng) (x : Tensor) (xs : list float) :
  holds σ x xs -> fits (shape_ x) ->
  ∃ y σ1 ys zs,
    relu_impl malloc this x σ = Returns y σ1
    ∧ tensor_to_vector_impl y σ1 = Returns ys σ1
    ∧ computes σ (step_impl malloc this x) (shape_ x) zs
    ∧ computes σ1 (relu_impl malloc this y) (shape_ x) ys
    ∧ computes σ1 (step_impl malloc this y) (shape_ x) zs.
Proof.
  intros Hx Hfit.
  destruct (malloc_total (heap σ) (mem_size_of (shape_ x))) as [[p c] Hm].
  set (σ1 := allocated σ (shape_ x) p (relu_elem <$> xs)).
  destruct (malloc_total (heap σ1) (mem_size_of (shape_ x))) as [[p' c'] Hm'].
  assert (holds σ1 (mkTensor (shape_ x) this p) (relu_elem <$> xs)) as Hy.
  { apply holds_new. rewrite length_fmap. apply Hx. }
  exists (mkTensor (shape_ x) this p), σ1, (relu_elem <$> xs),
         (step_elem <$> xs).
  split; [by eapply unary_impl_returns |].
  split; [by apply to_vector_holds |].
  split; [by eapply (unary_computes malloc this malloc_ok) |].
  split.
  - pose proof (unary_computes malloc this malloc_ok relu_elem σ1
                  (mkTensor (shape_ x) this p) _ p' c' Hy Hfit Hm') as Hrun.
    replace (relu_elem <$> (relu_elem <$> xs)) with (relu_elem <$> xs)
      in Hrun; [done |].
    rewrite <- list_fmap_compose. apply list_fmap_ext.
    intros _ v _. symmetry. apply relu_elem_idempotent.
  - pose proof (unary_computes malloc this malloc_ok step_elem σ1
                  (mkTensor (shape_ x) this p) _ p' c' Hy Hfit Hm') as Hrun.
    replace (step_elem <$> (relu_elem <$> xs)) with (step_elem <$> xs)
      in Hrun; [done |].
    rewrite <- list_fmap_compose. apply list_fmap_ext.
    intros _ v _. symmetry. apply step_relu_elem.
Qed.

Lemma compatible_sym sa sb :
  broadcast_compatible sa sb -> broadcast_compatible sb sa.
Proof. intros [Hd Hb]. split; [by intros i | lia]. Qed.

Lemma mem_size_of_total s1 s2 :
  num_total_elements s1 = num_total_elements s2 ->
  mem_size_of s1 = mem_size_of s2.
Proof. unfold mem_size_of. by intros ->. Qed.

Section BinaryCompose.
Context {Rng : Type}.
Variable malloc : Heap -> N -> option (ptr * list float).
Variable this : ptr.
Hypothesis malloc_ok : malloc_spec malloc.
Implicit Types (σ : Process Rng) (a b : Tensor).

(** Two runs of element-wise kernels on two tensors whose results agree
    element by element return the same values. *)
Lemma binary_results_agree op1 op2 σ1 σ2 a1 b1 a2 b2 xa1 xb1 xa2 xb2
    p1 c1 p2 c2 :
  let s1 := resize_batch (shape_ a1)
              (N.max (batch_size (shape_ a1)) (batch_size (shape_ b1))) in
  let s2 := resize_batch (shape_ a2)
              (N.max (batch_size (shape_ a2)) (batch_size (shape_ b2))) in
  let size := num_elements_per_sample (shape_ a1) in
  let bs := N.max (batch_size (shape_ a1)) (batch_size (shape_ b1)) in
  holds σ1 a1 xa1 -> holds σ1 b1 xb1 -> holds σ2 a2 xa2 -> holds σ2 b2 xb2 ->
  valid_shape (shape_ a1) -> valid_shape (shape_ b1) ->
  valid_shape (shape_ a2) -> valid_shape (shape_ b2) ->
  broadcast_compatible (shape_ a1) (shape_ b1) ->
  broadcast_compatible (shape_ a2) (shape_ b2) ->
  fits s1 -> fits s2 ->
  num_elements_per_sample (shape_ a2) = size ->
  N.max (batch_size (shape_ a2)) (batch_size (shape_ b2)) = bs ->
  malloc (heap σ1) (mem_size_of s1) = Some (p1, c1) ->
  malloc (heap σ2) (mem_size_of s2) = Some (p2, c2) ->
  (∀ k i va vb va' vb', k < bs -> i < size ->
     load xa1 (sample (shape_ a1) k * size + i) = Some va ->
     load xb1 (sample (shape_ b1) k * size + i) = Some vb ->
     load xa2 (sample (shape_ a2) k * size + i) = Some va' ->
     load xb2 (sample (shape_ b2) k * size + i) = Some vb' ->
     op1 va vb = op2 va' vb') ->
  ∃ ys,
    computes σ1 (binary_impl malloc this op1 a1 b1) s1 ys
    ∧ computes σ2 (binary_impl malloc this op2 a2 b2) s2 ys.
Proof.
  intros s1 s2 size bs Ha1 Hb1 Ha2 Hb2 Hva1 Hvb1 Hva2 Hvb2 Hc1 Hc2
    Hfit1 Hfit2 Hsize Hbs Hm1 Hm2 Hop.
  destruct (binary_impl_returns malloc this malloc_ok op1 σ1 a1 b1 xa1 xb1
              p1 c1 Ha1 Hb1 Hva1 Hvb1 Hc1 Hfit1 Hm1) as (ys & Hrun1 & Hlen1 & Hys).
  destruct (binary_impl_returns malloc this malloc_ok op2 σ2 a2 b2 xa2 xb2
              p2 c2 Ha2 Hb2 Hva2 Hvb2 Hc2 Hfit2 Hm2) as (zs & Hrun2 & Hlen2 & Hzs).
  rewrite Hsize, Hbs in Hlen2, Hzs. fold size bs in Hlen1, Hys.
  assert (zs = ys) as ->.
  { apply buffer_eq; [lia |]. intros j Hj. rewrite Hlen2 in Hj.
    destruct (index_split j size bs Hj) as (k & i & Hk & Hi & ->).
    destruct (Hys k i Hk Hi) as (va & vb & Hva & Hvb & ->).
    destruct (Hzs k i Hk Hi) as (va' & vb' & Hva' & Hvb' & ->).
    f_equal. symmetry. by eapply Hop. }
  exists ys. split.
  - eapply computes_allocated; [done | done | done | done |].
    unfold s1. by rewrite total_resize_batch.
  - eapply computes_allocated; [done | done | done | done |].
    unfold s2. rewrite total_resize_batch, Hsize, Hbs. done.
Qed.
End BinaryCompose.

(** X11.  [add_impl] and [multiply_impl] on two tensors are commutative
    in value: with the operands exchanged they return the same numbers,
    infinities and signed zeros, and NaN where the other has NaN, under
    the batch broadcast as well.  Which operand gives a NaN result its
    sign and payload is outside the embedding. *)
Theorem add_multiply_commute {Rng : Type}
    (malloc : Heap -> N -> option (ptr * list float))
    (malloc_ok : malloc_spec malloc) (this : ptr)
    (σ : Process Rng) (a b : Tensor) (xa xb : list float) (p : ptr)
    (c : list float) :
  let bs := N.max (batch_size (shape_ a)) (batch_size (shape_ b)) in
  holds σ a xa -> holds σ b xb ->
  valid_shape (shape_ a) -> valid_shape (shape_ b) ->
  broadcast_compatible (shape_ a) (shape_ b) ->
  fits (shape_ a) -> fits (shape_ b) ->
  malloc (heap σ) (mem_size_of (resize_batch (shape_ a) bs)) = Some (p, c) ->
  ∃ ys zs,
    computes σ (add_impl malloc this a b) (resize_batch (shape_ a) bs) ys
    ∧ computes σ (add_impl malloc this b a) (resize_batch (shape_ b) bs) ys
    ∧ computes σ (multiply_impl malloc this a b)
        (resize_batch (shape_ a) bs) zs
    ∧ computes σ (multiply_impl malloc this b a)
        (resize_batch (shape_ b) bs) zs.
Proof.
  intros bs Ha Hb Hva Hvb Hcompat Hfa Hfb Hm.
  pose proof (compatible_sym _ _ Hcompat) as Hcompat'.
  pose proof (compatible_per_sample _ _ Hcompat) as Hsize.
  pose proof (fits_broadcast _ _ Hcompat Hfa Hfb) as Hfit.
  pose proof (fits_broadcast _ _ Hcompat' Hfb Hfa) as Hfit'.
  assert (N.max (batch_size (shape_ b)) (batch_size (shape_ a)) = bs)
    as Hbs by apply N.max_comm.
  rewrite Hbs in Hfit'.
  assert (mem_size_of (resize_batch (shape_ b) bs)
          = mem_size_of (resize_batch (shape_ a) bs)) as Hmem.
  { apply mem_size_of_total. rewrite !total_resize_batch. by rewrite Hsize. }
  assert (∀ op : float -> float -> float, (∀ x y, op x y = op y x) ->
            ∃ ys,
              computes σ (binary_impl malloc this op a b)
                (resize_batch (shape_ a) bs) ys
              ∧ computes σ (binary_impl malloc this op b a)
                  (resize_batch (shape_ b) bs) ys) as Hcomm.
  { intros op Hop.
    destruct (binary_results_agree malloc this malloc_ok op op σ σ a b b a
                xa xb xb xa p c p c) as (ys & H1 & H2); try done.
    - by rewrite Hbs.
    - by rewrite Hbs, Hmem.
    - intros k i va vb va' vb' Hk Hi H1 H2 H3 H4. rewrite Hop. congruence.
    - exists ys. by rewrite Hbs in H2. }
  destruct (Hcomm F32.add F32_add_comm) as (ys & ? & ?).
  destruct (Hcomm F32.mul F32_mul_comm) as (zs & ? & ?).
  by exists ys, zs.
Qed.

(** X12.  Subtraction is addition of the negated operand: [a - b] and
    [a + negate(b)] have the same values, the same numbers, infinities and
    signed zeros, and NaN where the other has NaN (the sign of a NaN is
    outside the embedding). *)
Theorem subtract_is_add_negate {Rng : Type}
    (malloc : Heap -> N -> option (ptr * list float))
    (malloc_ok : malloc_spec malloc) (this : ptr)
    (malloc_total : ∀ h size, is_Some (malloc h size))
    (σ : Process Rng) (a b : Tensor) (xa xb : list float) :
  let s := resize_batch (shape_ a)
             (N.max (batch_size (shape_ a)) (batch_size (shape_ b))) in
  holds σ a xa -> holds σ b xb ->
  valid_shape (shape_ a) -> valid_shape (shape_ b) ->
  broadcast_compatible (shape_ a) (shape_ b) ->
  fits (shape_ a) -> fits (shape_ b) ->
  ∃ y σ1 ys,
    negate_impl malloc this b σ = Returns y σ1
    ∧ computes σ (subtract_impl malloc this a b) s ys
    ∧ computes σ1 (add_impl malloc this a y) s ys.
Proof.
  intros s Ha Hb Hva Hvb Hcompat Hfa Hfb.
  pose proof (fits_broadcast _ _ Hcompat Hfa Hfb) as Hfit.
  destruct (malloc_total (heap σ) (mem_size_of (shape_ b))) as [[p c] Hm].
  destruct (fresh_block _ malloc_ok _ _ _ _ Hfb Hm) as [Hp _].
  set (y := mkTensor (shape_ b) this p).
  set (σ1 := allocated σ (shape_ b) p (negate_elem <$> xb)).
  destruct (malloc_total (heap σ) (mem_size_of s)) as [[p1 c1] Hm1].
  destruct (malloc_total (heap σ1) (mem_size_of s)) as [[p2 c2] Hm2].
  assert (holds σ1 y (negate_elem <$> xb)) as Hy.
  { apply holds_new. rewrite length_fmap. apply Hb. }
  assert (holds σ1 a xa) as Ha' by by apply holds_allocated.
  destruct (binary_results_agree malloc this malloc_ok F32.sub F32.add
              σ σ1 a b a y xa xb xa (negate_elem <$> xb) p1 c1 p2 c2)
    as (ys & H1 & H2); try done.
  - intros k i va vb va' vb' Hk Hi H1 H2 H3 H4.
    change (shape_ y) with (shape_ b) in H4.
    rewrite load_fmap, H2 in H4. cbn in H4.
    rewrite F32_sub_add_negate. congruence.
  - exists y, σ1, ys. split; [by eapply unary_impl_returns |]. done.
Qed.

(** ** Reductions *)

(** The accumulation loop shared by [sum_impl] and [batch_sum_impl]:
    [n] elements of [src], [stride] apart from [start] on, are added one
    after the other to a [float] that starts at 0. *)
Lemma strided_sum_spec src start stride n :
  (∀ j, j < n -> j * stride + start < N.of_nat (length src)) ->
  n * stride + start < 2 ^ 32 ->
  REPEAT_OP n (λ _ '(tmp, pos),
      v ← load src pos; Some (F32.add tmp v, uadd pos stride))
    (F32.zero, start)
  = Some (fold_left F32.add (column src stride start n) F32.zero,
          n * stride + start).
Proof.
  intros Hsrc Hsmall.
  match goal with
  | |- REPEAT_OP n ?body ?st = _ =>
      destruct (REPEAT_OP_inv
        (λ j '(tmp, pos),
           pos = j * stride + start
           ∧ tmp = fold_left F32.add (column src stride start j) F32.zero)
        n body st) as ([tmp pos] & Hrun & -> & ->)
  end.
  - split; [lia | done].
  - intros j [tmp pos] Hj [-> ->].
    destruct (load_lt src (j * stride + start)) as [v Hv]; [by apply Hsrc |].
    rewrite Hv. cbn. eexists. split; [reflexivity |]. split.
    + unfold uadd. rewrite wrap32_small by nia. lia.
    + by rewrite column_succ, fold_left_app, Hv.
  - done.
Qed.

Lemma batch_sum_kernel_spec bs size src dest0 :
  N.of_nat (length dest0) = size ->
  N.of_nat (length src) = size * bs ->
  size * bs + size < 2 ^ 32 ->
  ∃ dest,
    batch_sum_kernel bs size src dest0 = Some dest
    ∧ length dest = length dest0
    ∧ ∀ i, i < size ->
        load dest i
        = Some (fold_left F32.add (column src size i bs) F32.zero).
Proof.
  intros Hdest Hsrc Hsmall. unfold batch_sum_kernel.
  match goal with
  | |- context [REPEAT_OP size ?body dest0] =>
      destruct (REPEAT_OP_inv
        (λ n d, length d = length dest0
                ∧ ∀ i, i < n ->
                    load d i
                    = Some (fold_left F32.add (column src size i bs)
                              F32.zero))
        size body dest0) as (d & Hrun & Hlen & Hd)
  end.
  - split; [done |]. intros i Hi. lia.
  - intros n d Hn [Hlen Hd].
    rewrite strided_sum_spec.
    + cbn. destruct (store_spec d n
                       (fold_left F32.add (column src size n bs) F32.zero))
        as (d' & Hst & Hlen' & Hnew & Hold); [lia |].
      exists d'. split; [done |]. split; [congruence |].
      intros i Hi. destruct (decide (i = n)) as [-> | Hne]; [done |].
      rewrite Hold by done. apply Hd. lia.
    + intros j Hj. rewrite Hsrc. pose proof (row_bound j bs n size Hj Hn).
      lia.
    + nia.
  - by exists d.
Qed.

Lemma sum_kernel_spec n rows base src dest0 :
  1 <= base ->
  N.of_nat (length dest0) = rows * base ->
  N.of_nat (length src) = rows * (base * n) ->
  rows * (base * n) + base < 2 ^ 32 ->
  rows * base < 2 ^ 32 ->
  ∃ dest,
    sum_kernel n (rows * base) base (umul base n) src dest0 = Some dest
    ∧ length dest = length dest0
    ∧ ∀ r c, r < rows -> c < base ->
        load dest (r * base + c)
        = Some (fold_left F32.add
                  (column src base (r * (base * n) + c) n) F32.zero).
Proof.
  intros Hbase Hdest Hsrc Hsmall Hsmall'. unfold sum_kernel.
  assert (∀ r j c, r < rows -> j < n -> c < base ->
            j * base + (r * (base * n) + c) < rows * (base * n)) as Hin.
  { intros r j c Hr Hj Hc.
    assert (j * base + c < base * n) as Hrow.
    { by apply row_bound. }
    pose proof (row_bound r rows (j * base + c) (base * n) Hr Hrow). lia. }
  match goal with
  | |- context [REPEAT_OP (rows * base) ?body dest0] =>
      destruct (REPEAT_OP_inv
        (λ m d, length d = length dest0
                ∧ ∀ i, i < m ->
                    load d i
                    = Some (fold_left F32.add
                              (column src base
                                 ((i / base) * (base * n) + i mod base) n)
                              F32.zero))
        (rows * base) body dest0) as (d & Hrun & Hlen & Hd)
  end.
  - split; [done |]. intros i Hi. lia.
  - intros m d Hm [Hlen Hd].
    unfold udiv. destruct (N.eqb_spec base 0) as [? | _]; [lia |].
    cbn [mbind option_bind].
    assert (m / base < rows) as Hr.
    { apply N.Div0.div_lt_upper_bound. lia. }
    assert (m mod base < base) as Hc by (apply N.mod_lt; lia).
    assert (n = 0 ∨ 1 <= n) as [-> | Hn] by lia.
    + (* an axis of extent 0: nothing is added *)
      cbn. destruct (store_spec d m F32.zero)
        as (d' & Hst & Hlen' & Hnew & Hold); [lia |].
      exists d'. split; [done |]. split; [congruence |].
      intros i Hi. destruct (decide (i = m)) as [-> | Hne]; [done |].
      rewrite Hold by done. apply Hd. lia.
    + assert (0 < n) as Hn' by lia.
      pose proof (Hin (m / base) 0 (m mod base) Hr Hn' Hc) as H0.
      assert (uadd (m mod base) (umul (m / base) (umul base n))
              = (m / base) * (base * n) + m mod base) as ->.
      { unfold uadd, umul. rewrite (wrap32_small (base * n)) by nia.
        revert H0. generalize (m / base) (m mod base). intros q c H0.
        rewrite (wrap32_small (_ * _)) by lia.
        rewrite wrap32_small by lia. lia. }
      rewrite strided_sum_spec.
      * cbn. match goal with |- context [store d m ?v] =>
          destruct (store_spec d m v)
            as (d' & Hst & Hlen' & Hnew & Hold); [lia |] end.
        exists d'. split; [done |]. split; [congruence |].
        intros i Hi. destruct (decide (i = m)) as [-> | Hne]; [done |].
        rewrite Hold by done. apply Hd. lia.
      * intros j Hj. rewrite Hsrc. by apply Hin.
      * revert Hr Hc. generalize (m / base) (m mod base). intros q c Hr Hc.
        assert (q * (base * n) + base * n <= rows * (base * n)) by nia.
        lia.
  - exists d. split; [done |]. split; [done |].
    intros r c Hr Hc. rewrite Hd by nia.
    replace ((r * base + c) / base) with r.
    + replace ((r * base + c) mod base) with c; [done |].
      rewrite N.add_comm, N.Div0.mod_add. symmetry. by apply N.mod_small.
    + rewrite N.add_comm, N.div_add by lia.
      rewrite N.div_small by done. lia.
Qed.

Lemma shape_at_pos s i : valid_shape s -> 1 <= shape_at s i.
Proof.
  intros [Hd _]. unfold shape_at.
  destruct (dims_ s !! N.to_nat i) as [d |] eqn:Hi; [| done].
  by apply (Forall_lookup_1 _ _ _ _ Hd Hi).
Qed.

Lemma batch_sum_impl_returns {Rng : Type}
    (malloc : Heap -> N -> option (ptr * list float))
    (malloc_ok : malloc_spec malloc) (this : ptr)
    (σ : Process Rng) (x : Tensor) (xs : list float) (p : ptr)
    (c : list float) :
  let size := num_elements_per_sample (shape_ x) in
  let s := resize_batch (shape_ x) 1 in
  holds σ x xs -> valid_shape (shape_ x) -> fits (shape_ x) ->
  malloc (heap σ) (mem_size_of s) = Some (p, c) ->
  ∃ ys,
    computes σ (batch_sum_impl malloc this x) s ys
    ∧ N.of_nat (length ys) = size
    ∧ ∀ i, i < size ->
        load ys i
        = Some (fold_left F32.add
                  (column xs size i (batch_size (shape_ x))) F32.zero).
Proof.
  intros size s [Hx Hlen] [_ Hk] Hfit Hm.
  unfold fits, sizeof_float, num_total_elements in Hfit.
  unfold num_total_elements in Hlen. fold size in Hfit, Hlen.
  unfold batch_size in *.
  assert (num_total_elements s = size) as Htotal.
  { unfold s. rewrite total_resize_batch. fold size. lia. }
  assert (fits s) as Hfits.
  { unfold fits, sizeof_float. rewrite Htotal. nia. }
  destruct (fresh_block _ malloc_ok _ _ _ _ Hfits Hm) as [Hp Hc].
  rewrite Htotal in Hc.
  destruct (batch_sum_kernel_spec (k_ (shape_ x)) size xs c)
    as (ys & Hker & Hlen' & Hys); [done | done | nia |].
  exists ys. split; [| split; [lia | done]].
  eapply computes_allocated; [done | done | done | | lia].
  unfold batch_sum_impl, bind. fold s.
  rewrite (new_tensor_returns _ this _ _ _ _ Hm), CDATA_new.
  rewrite (CDATA_old _ _ _ _ _ _ Hp Hx). cbn [shape_].
  rewrite Htotal, wrap32_small by nia.
  unfold batch_size. rewrite Hker. cbn [defined]. by rewrite commit_new.
Qed.

(** X13.  [batch_sum_impl] returns a tensor with the extents of the
    operand and batch size 1; its element [i] is the sum of the elements
    [i] of the samples, added one after the other in batch order to a
    [float] that starts at 0, each addition rounded.  The operand is left
    as it was. *)
Theorem batch_sum_elements {Rng : Type}
    (malloc : Heap -> N -> option (ptr * list float))
    (malloc_ok : malloc_spec malloc) (this : ptr)
    (σ : Process Rng) (x : Tensor) (xs : list float) (p : ptr)
    (c : list float) :
  let size := num_elements_per_sample (shape_ x) in
  let s := resize_batch (shape_ x) 1 in
  holds σ x xs -> valid_shape (shape_ x) -> fits (shape_ x) ->
  malloc (heap σ) (mem_size_of s) = Some (p, c) ->
  ∃ ys,
    computes σ (batch_sum_impl malloc this x) s ys
    ∧ N.of_nat (length ys) = size
    ∧ ∀ i, i < size ->
        load ys i
        = Some (fold_left F32.add
                  (column xs size i (batch_size (shape_ x))) F32.zero).
Proof.
  intros size s. apply batch_sum_impl_returns. exact malloc_ok.
Qed.

(** X14.  [sum_impl] returns a tensor whose axis [dim] has extent 1 and
    whose other extents and batch size are those of the operand.  With the
    operand seen as rows of [n] runs of [base] elements, [n] the extent of
    the axis and [base] the number of elements under it, element [c] of
    row [r] of the result is the sum of the elements [c] of the [n] runs of
    row [r], added in the order of the axis to a [float] that starts at 0.
    The operand is left as it was. *)
Theorem sum_elements {Rng : Type}
    (malloc : Heap -> N -> option (ptr * list float))
    (malloc_ok : malloc_spec malloc) (this : ptr)
    (σ : Process Rng) (x : Tensor) (xs : list float) (dim : N) (p : ptr)
    (c : list float) :
  let base := num_elements_under_rank (shape_ x) dim in
  let n := shape_at (shape_ x) dim in
  let rows := batch_size (shape_ x) * num_elements_over_rank (shape_ x) dim in
  let s := resize_dim (shape_ x) dim 1 in
  holds σ x xs -> valid_shape (shape_ x) -> fits (shape_ x) ->
  malloc (heap σ) (mem_size_of s) = Some (p, c) ->
  ∃ ys,
    computes σ (sum_impl malloc this x dim) s ys
    ∧ N.of_nat (length ys) = rows * base
    ∧ ∀ r j, r < rows -> j < base ->
        load ys (r * base + j)
        = Some (fold_left F32.add
                  (column xs base (r * (base * n) + j) n) F32.zero).
Proof.
  intros base n rows s [Hx Hlen] Hvalid Hfit Hm.
  pose proof (total_small x dim Hfit) as Hsmall.
  pose proof (base_pos x dim Hvalid) as Hbase.
  pose proof (rest_pos x dim Hvalid) as Hrest.
  pose proof (shape_at_pos _ dim Hvalid) as Hn.
  assert (1 <= batch_size (shape_ x)) as Hbs by apply Hvalid.
  rewrite (total_rows x dim) in Hlen.
  fold base n rows in Hsmall, Hbase, Hn, Hlen.
  assert (1 <= rows) as Hrows by (unfold rows; nia).
  assert (num_total_elements s = rows * base) as Htotal.
  { unfold s. rewrite piece_total. fold base rows. lia. }
  assert (fits s) as Hfits by by apply piece_fits.
  destruct (fresh_block _ malloc_ok _ _ _ _ Hfits Hm) as [Hp Hc].
  rewrite Htotal in Hc.
  assert (rows * base <= rows * (base * n)) as Hle.
  { apply N.mul_le_mono_l. nia. }
  assert (base <= rows * base) as Hle' by nia.
  unfold fits, sizeof_float in Hfit. rewrite (total_rows x dim) in Hfit.
  fold base n rows in Hfit.
  destruct (sum_kernel_spec n rows base xs c)
    as (ys & Hker & Hlen' & Hys); [done | done | done | lia | lia |].
  exists ys. split; [| split; [lia | done]].
  eapply computes_allocated; [done | done | done | | lia].
  unfold sum_impl, bind. fold s.
  rewrite (new_tensor_returns _ this _ _ _ _ Hm), CDATA_new.
  rewrite (CDATA_old _ _ _ _ _ _ Hp Hx).
  assert (num_elements_under_rank s dim = base) as Hunder
    by apply under_rank_resize_dim.
  rewrite !Hunder. fold n.
  rewrite Htotal, (wrap32_small (rows * base)), (wrap32_small base) by lia.
  rewrite Hker. cbn [defined]. by rewrite commit_new.
Qed.

(** ** Transposition *)

Lemma transpose_kernel_spec d1 d2 bs src dest0 :
  let ms := d1 * d2 in
  N.of_nat (length src) = ms * bs ->
  N.of_nat (length dest0) = ms * bs ->
  ∃ dest,
    transpose_kernel d1 d2 ms bs src dest0 = Some dest
    ∧ length dest = length dest0
    ∧ ∀ k i j, k < bs -> i < d1 -> j < d2 ->
        load dest (k * ms + (i * d2 + j)) = load src (k * ms + (j * d1 + i)).
Proof.
  intros ms Hsrc Hdest. unfold transpose_kernel.
  set (sample_done (d : list float) k :=
         ∀ i j, i < d1 -> j < d2 ->
           load d (k * ms + (i * d2 + j)) = load src (k * ms + (j * d1 + i))).
  set (column_done (d : list float) k j :=
         ∀ i, i < d1 ->
           load d (k * ms + (i * d2 + j)) = load src (k * ms + (j * d1 + i))).
  assert (∀ i j, i < d1 -> j < d2 -> i * d2 + j < ms) as Hcell.
  { intros i j Hi Hj. unfold ms. rewrite (N.mul_comm d1 d2).
    by apply row_bound. }
  assert (∀ i j, i < d1 -> j < d2 -> j * d1 + i < ms) as Hcell'.
  { intros i j Hi Hj. by apply row_bound. }
  match goal with
  | |- context [REPEAT_OP bs ?body ?st] =>
      destruct (REPEAT_OP_inv
        (λ k '(d, dest, srcp),
           dest = k * ms ∧ srcp = k * ms ∧ length d = length dest0
           ∧ ∀ k', k' < k -> sample_done d k')
        bs body st) as ([[d dest] srcp] & Hrun & _ & _ & Hlen & Hd)
  end.
  - repeat split; lia.
  - intros k [[d dest] srcp] Hk (-> & -> & Hlen & Hd).
    match goal with
    | |- context [REPEAT_OP d2 ?body ?st] =>
        destruct (REPEAT_OP_inv
          (λ j '(d', pd, srcp),
             pd = k * ms + j ∧ srcp = k * ms + j * d1
             ∧ length d' = length dest0
             ∧ (∀ k', k' < k -> sample_done d' k')
             ∧ ∀ j', j' < j -> column_done d' k j')
          d2 body st)
          as ([[d' pd] srcp'] & Hrun & _ & -> & Hlen' & Hd' & Hcols)
    end.
    + repeat split; try lia; done.
    + intros j [[d' pd] srcp'] Hj (-> & -> & Hlen' & Hd' & Hcols).
      match goal with
      | |- context [REPEAT_OP d1 ?body ?st] =>
          destruct (REPEAT_OP_inv
            (λ i '(d'', ppd, srcp),
               ppd = k * ms + (i * d2 + j) ∧ srcp = k * ms + (j * d1 + i)
               ∧ length d'' = length dest0
               ∧ (∀ k', k' < k -> sample_done d'' k')
               ∧ (∀ j', j' < j -> column_done d'' k j')
               ∧ ∀ i', i' < i ->
                   load d'' (k * ms + (i' * d2 + j))
                   = load src (k * ms + (j * d1 + i')))
            d1 body st)
            as ([[d'' ppd] srcp''] & Hrun & _ & -> & Hlen'' & Hd'' & Hcols'
                & Hcol)
      end.
      * repeat split; try lia; done.
      * intros i [[d'' ppd] srcp''] Hi (-> & -> & Hlen'' & Hd'' & Hcols' & Hcol).
        pose proof (Hcell i j Hi Hj) as Hin.
        pose proof (Hcell' i j Hi Hj) as Hin'.
        pose proof (row_bound k bs _ ms Hk Hin) as Hpos.
        pose proof (row_bound k bs _ ms Hk Hin') as Hpos'.
        destruct (load_lt src (k * ms + (j * d1 + i))) as [v Hv]; [lia |].
        destruct (store_spec d'' (k * ms + (i * d2 + j)) v)
          as (e & Hst & Hlene & Hnew & Hold); [lia |].
        rewrite Hv. cbn. rewrite Hst. cbn. eexists. split; [reflexivity |].
        split; [lia |]. split; [lia |]. split; [congruence |].
        split; [| split].
        -- intros k' Hk' i' j' Hi' Hj'. rewrite Hold; [by apply Hd'' |].
           pose proof (row_lt k' k _ ms Hk' (Hcell i' j' Hi' Hj')). lia.
        -- intros j' Hj' i' Hi'. rewrite Hold; [by apply Hcols' |].
           intros Heq.
           destruct (row_col_unique i' j' i j d2) as [_ ?]; lia.
        -- intros i' Hi'. destruct (decide (i' = i)) as [-> | Hne].
           ++ by rewrite Hnew.
           ++ rewrite Hold; [apply Hcol; lia |]. intros Heq.
              destruct (row_col_unique i' j i j d2) as [? _]; lia.
      * rewrite Hrun. cbn. eexists. split; [reflexivity |].
        split; [lia |]. split; [lia |]. split; [done |]. split; [done |].
        intros j' Hj'. destruct (decide (j' = j)) as [-> | Hne].
        -- exact Hcol.
        -- apply Hcols'. lia.
    + rewrite Hrun. cbn. eexists. split; [reflexivity |].
      split; [lia |]. split; [unfold ms; lia |]. split; [done |].
      intros k' Hk'. destruct (decide (k' = k)) as [-> | Hne].
      * intros i j Hi Hj. by apply Hcols.
      * apply Hd'. lia.
  - exists d. rewrite Hrun. cbn. split; [done |]. split; [done |].
    intros k i j Hk Hi Hj. by apply Hd.
Qed.

Section Transpose.
Context {Rng : Type}.
Variable malloc : Heap -> N -> option (ptr * list float).
Variable this : ptr.
Hypothesis malloc_ok : malloc_spec malloc.
Implicit Types (σ : Process Rng) (x : Tensor).

Lemma transpose_impl_returns σ x xs p c :
  let d1 := shape_at (shape_ x) 0 in
  let d2 := shape_at (shape_ x) 1 in
  let bs := batch_size (shape_ x) in
  let s := mkShape [d2; d1] bs in
  holds σ x xs -> valid_shape (shape_ x) -> fits (shape_ x) ->
  num_elements_per_sample (shape_ x) = d1 * d2 ->
  malloc (heap σ) (mem_size_of s) = Some (p, c) ->
  ∃ ys,
    transpose_impl malloc this x σ
    = Returns (mkTensor s this p) (allocated σ s p ys)
    ∧ heap σ !! p = None
    ∧ fits s ∧ valid_shape s
    ∧ N.of_nat (length ys) = num_total_elements s
    ∧ num_total_elements s = d1 * d2 * bs
    ∧ ∀ k i j, k < bs -> i < d1 -> j < d2 ->
        load ys (k * (d1 * d2) + (i * d2 + j))
        = load xs (k * (d1 * d2) + (j * d1 + i)).
Proof.
  intros d1 d2 bs s [Hx Hlen] Hvalid Hfit Hrank Hm.
  pose proof (shape_at_pos _ 0 Hvalid) as Hd1.
  pose proof (shape_at_pos _ 1 Hvalid) as Hd2.
  assert (1 <= bs) as Hbs by apply Hvalid.
  fold d1 d2 in Hd1, Hd2.
  assert (num_total_elements s = d1 * d2 * bs) as Htotal.
  { unfold s, num_total_elements, num_elements_per_sample, batch_size.
    cbn. lia. }
  unfold num_total_elements in Hlen. rewrite Hrank in Hlen. fold bs in Hlen.
  assert (fits s) as Hfits.
  { unfold fits in *. rewrite Htotal. unfold num_total_elements in Hfit.
    rewrite Hrank in Hfit. done. }
  destruct (fresh_block _ malloc_ok _ _ _ _ Hfits Hm) as [Hp Hc].
  rewrite Htotal in Hc.
  destruct (transpose_kernel_spec d1 d2 bs xs c)
    as (ys & Hker & Hlen' & Hys); [done | done |].
  exists ys. split; [| split; [done |]].
  - unfold transpose_impl, bind. fold d1 d2 bs s.
    rewrite (new_tensor_returns _ this _ _ _ _ Hm), CDATA_new.
    rewrite (CDATA_old _ _ _ _ _ _ Hp Hx).
    unfold umul. rewrite wrap32_small.
    + rewrite Hker. cbn [defined]. by rewrite commit_new.
    + unfold fits, sizeof_float in Hfits. rewrite Htotal in Hfits. nia.
  - split; [done |]. split.
    { split; [| done]. cbn. repeat constructor; done. }
    split; [lia |]. split; [done |]. done.
Qed.
End Transpose.

(** X15.  [transpose_impl] on a tensor of at most two axes, [d1] by [d2],
    returns a tensor of shape {[d2], [d1]} with the batch size of the
    operand; in every sample, its element in row [j] and column [i] is the
    element in row [i] and column [j] of the operand (both column-major).
    The operand is left as it was. *)
Theorem transpose_elements {Rng : Type}
    (malloc : Heap -> N -> option (ptr * list float))
    (malloc_ok : malloc_spec malloc) (this : ptr)
    (σ : Process Rng) (x : Tensor) (xs : list float) (p : ptr)
    (c : list float) :
  let d1 := shape_at (shape_ x) 0 in
  let d2 := shape_at (shape_ x) 1 in
  let bs := batch_size (shape_ x) in
  let s := mkShape [d2; d1] bs in
  holds σ x xs -> valid_shape (shape_ x) -> fits (shape_ x) ->
  num_elements_per_sample (shape_ x) = d1 * d2 ->
  malloc (heap σ) (mem_size_of s) = Some (p, c) ->
  ∃ ys,
    computes σ (transpose_impl malloc this x) s ys
    ∧ N.of_nat (length ys) = d1 * d2 * bs
    ∧ ∀ k i j, k < bs -> i < d1 -> j < d2 ->
        load ys (k * (d1 * d2) + (i * d2 + j))
        = load xs (k * (d1 * d2) + (j * d1 + i)).
Proof.
  intros d1 d2 bs s Hx Hvalid Hfit Hrank Hm.
  destruct (transpose_impl_returns malloc this malloc_ok σ x xs p c
              Hx Hvalid Hfit Hrank Hm)
    as (ys & Hrun & Hp & Hfits & _ & Hlen & Htotal & Hys).
  exists ys. split; [| split; [by rewrite Hlen | done]].
  by eapply computes_allocated.
Qed.

(** X16.  Transposing twice gives back the values of the operand, in a
    tensor of shape {[d1], [d2]}: the shape of the operand when that has
    two axes. *)
Theorem transpose_involutive {Rng : Type}
    (malloc : Heap -> N -> option (ptr * list float))
    (malloc_ok : malloc_spec malloc) (this : ptr)
    (malloc_total : ∀ h size, is_Some (malloc h size))
    (σ : Process Rng) (x : Tensor) (xs : list float) :
  let d1 := shape_at (shape_ x) 0 in
  let d2 := shape_at (shape_ x) 1 in
  let bs := batch_size (shape_ x) in
  holds σ x xs -> valid_shape (shape_ x) -> fits (shape_ x) ->
  num_elements_per_sample (shape_ x) = d1 * d2 ->
  ∃ y σ1,
    transpose_impl malloc this x σ = Returns y σ1
    ∧ shape_ y = mkShape [d2; d1] bs
    ∧ computes σ1 (transpose_impl malloc this y) (mkShape [d1; d2] bs) xs
    ∧ (dims_ (shape_ x) = [d1; d2] -> mkShape [d1; d2] bs = shape_ x).
Proof.
  intros d1 d2 bs Hx Hvalid Hfit Hrank.
  set (s := mkShape [d2; d1] bs).
  destruct (malloc_total (heap σ) (mem_size_of s)) as [[p c] Hm].
  destruct (transpose_impl_returns malloc this malloc_ok σ x xs p c
              Hx Hvalid Hfit Hrank Hm)
    as (ys & Hrun & Hp & Hfits & Hvalids & Hlen & Htotal & Hys).
  fold d1 d2 bs s in Hrun, Hfits, Hvalids, Hlen, Htotal, Hys.
  set (y := mkTensor s this p). set (σ1 := allocated σ s p ys).
  fold y σ1 in Hrun.
  assert (holds σ1 y ys) as Hy by by apply holds_new.
  set (s' := mkShape [d1; d2] bs).
  destruct (malloc_total (heap σ1) (mem_size_of s')) as [[p' c'] Hm'].
  destruct (transpose_impl_returns malloc this malloc_ok σ1 y ys p' c'
              Hy Hvalids Hfits) as (zs & Hrun' & Hp' & Hfits' & _ & Hlen'
                                    & Htotal' & Hzs);
    [change (d2 * (d1 * 1) = d2 * d1); lia | done |].
  change (shape_at (shape_ y) 0) with d2 in *.
  change (shape_at (shape_ y) 1) with d1 in *.
  change (batch_size (shape_ y)) with bs in *.
  fold s' in Hrun', Hfits', Hlen', Htotal'.
  assert (zs = xs) as ->.
  { destruct Hx as [_ Hxlen]. unfold num_total_elements in Hxlen.
    rewrite Hrank in Hxlen. fold bs in Hxlen.
    apply buffer_eq; [lia |]. intros t Ht.
    rewrite Hlen', Htotal' in Ht.
    rewrite (N.mul_comm d2 d1) in Ht, Hzs.
    destruct (index_split t (d1 * d2) bs Ht) as (k & r & Hk & Hr & ->).
    destruct (index_split r d1 d2 Hr) as (i & j & Hi & Hj & ->).
    rewrite Hzs by done. by apply Hys. }
  exists y, σ1. split; [done |]. split; [done |]. split.
  - by eapply computes_allocated.
  - intros Hdims. unfold bs, batch_size. destruct (shape_ x). cbn in *.
    by rewrite Hdims.
Qed.

(** ** Matrix product *)

(** The rule for a loop that leaves by its condition: an invariant indexed
    by the number of rounds made, under which the condition holds before
    round [n] and fails at [n], gives the result when the fuel is at least
    [n]. *)
Lemma for_while_inv {S : Type} (I : N -> S -> Prop) (cond : S -> bool)
    (body : S -> option S) (n : N) (fuel : nat) (s : S) :
  (N.to_nat n <= fuel)%nat ->
  I 0 s ->
  (∀ t s, t < n -> I t s ->
     cond s = true ∧ ∃ s', body s = Some s' ∧ I (N.succ t) s') ->
  (∀ s, I n s -> cond s = false) ->
  ∃ s', for_while fuel cond body s = Some s' ∧ I n s'.
Proof.
  intros Hfuel H0 Hstep Hexit.
  assert (∀ (m : nat) fuel t s,
            N.of_nat m + t = n -> (m <= fuel)%nat -> I t s ->
            ∃ s', for_while fuel cond body s = Some s' ∧ I n s') as Hgen.
  { induction m as [| m IH]; intros fuel' t s0 Ht Hm Hs0.
    - assert (t = n) as -> by lia. exists s0.
      destruct fuel'; cbn; by rewrite Hexit.
    - destruct fuel' as [| fuel']; [lia |].
      destruct (Hstep t s0) as (Hc & s1 & Hb & Hs1); [lia | done |].
      cbn. rewrite Hc, Hb. cbn.
      apply (IH fuel' (N.succ t)); [lia | lia | done]. }
  apply (Hgen (N.to_nat n) fuel 0); [lia | done | done].
Qed.

Lemma dot_element_spec src_a src_b pa pb d1 d2 i k :
  i < d1 ->
  pa + d1 * d2 <= N.of_nat (length src_a) ->
  pb + (k * d2 + d2) <= N.of_nat (length src_b) ->
  d1 * d2 < 2 ^ 32 -> k * d2 + d2 < 2 ^ 32 ->
  REPEAT_OP d2 (λ jb '(tmp, ja),
      va ← load src_a (pa + uadd i ja);
      vb ← load src_b (pb + uadd jb (k * d2));
      Some (F32.add tmp (F32.mul va vb), uadd ja d1))
    (F32.zero, 0)
  = Some (dot_element src_a src_b pa pb d1 d2 i k, d2 * d1).
Proof.
  intros Hi Ha Hb Hsa Hsb.
  match goal with
  | |- REPEAT_OP d2 ?body ?st = _ =>
      destruct (REPEAT_OP_inv
        (λ j '(tmp, ja),
           ja = j * d1
           ∧ tmp = fold_left
                     (λ tmp j,
                        F32.add tmp
                          (F32.mul
                             (default F32.zero
                                (load src_a (pa + (N.of_nat j * d1 + i))))
                             (default F32.zero
                                (load src_b (pb + (k * d2 + N.of_nat j))))))
                     (seq 0 (N.to_nat j)) F32.zero)
        d2 body st) as ([tmp ja] & Hrun & -> & ->)
  end.
  - split; [lia | done].
  - intros j [tmp ja] Hj [-> ->].
    pose proof (row_bound j d2 i d1 Hj Hi) as Hin.
    destruct (load_lt src_a (pa + (j * d1 + i))) as [va Hva]; [lia |].
    destruct (load_lt src_b (pb + (k * d2 + j))) as [vb Hvb]; [lia |].
    unfold uadd. rewrite (wrap32_small (i + _)) by lia.
    rewrite (wrap32_small (j + _)) by lia.
    rewrite (N.add_comm i), Hva. cbn.
    rewrite (N.add_comm j), Hvb. cbn.
    eexists. split; [reflexivity |]. split.
    + rewrite wrap32_small by nia. lia.
    + rewrite N2Nat.inj_succ, seq_S, fold_left_app. cbn.
      by rewrite N2Nat.id, Hva, Hvb.
  - by rewrite Hrun.
Qed.

Lemma dot_kernel_spec d1 d2 d3 bs ska skb src_a src_b dest0 :
  1 <= d1 ->
  N.of_nat (length dest0) = d1 * d3 * bs ->
  (∀ t, t < bs -> t * ska + d1 * d2 <= N.of_nat (length src_a)) ->
  (∀ t, t < bs -> t * skb + d2 * d3 <= N.of_nat (length src_b)) ->
  d1 * d2 < 2 ^ 32 -> d2 * d3 < 2 ^ 32 -> d1 * d3 < 2 ^ 32 ->
  ∃ dest,
    dot_kernel d1 d2 d3 bs (d1 * d3) ska skb src_a src_b dest0 = Some dest
    ∧ length dest = length dest0
    ∧ ∀ t i k, t < bs -> i < d1 -> k < d3 ->
        load dest (t * (d1 * d3) + (k * d1 + i))
        = Some (dot_element src_a src_b (t * ska) (t * skb) d1 d2 i k).
Proof.
  intros Hd1 Hdest Ha Hb Hs12 Hs23 Hs13. unfold dot_kernel.
  set (ms := d1 * d3).
  set (cell (d : list float) t i k :=
         load d (t * ms + (k * d1 + i))
         = Some (dot_element src_a src_b (t * ska) (t * skb) d1 d2 i k)).
  assert (∀ i k, i < d1 -> k < d3 -> k * d1 + i < ms) as Hcell.
  { intros i k Hi Hk. unfold ms. by apply row_bound. }
  match goal with
  | |- context [REPEAT_OP bs ?body ?st] =>
      destruct (REPEAT_OP_inv
        (λ t '(d, dp, pa, pb),
           dp = t * ms ∧ pa = t * ska ∧ pb = t * skb
           ∧ length d = length dest0
           ∧ ∀ t' i k, t' < t -> i < d1 -> k < d3 -> cell d t' i k)
        bs body st) as ([[[d dp] pa] pb] & Hrun & _ & _ & _ & Hlen & Hd)
  end.
  - repeat split; lia.
  - intros t [[[d dp] pa] pb] Ht (-> & -> & -> & Hlen & Hd).
    match goal with
    | |- context [REPEAT_OP d1 ?body ?st] =>
        destruct (REPEAT_OP_inv
          (λ i d', length d' = length dest0
                   ∧ (∀ t' i k, t' < t -> i < d1 -> k < d3 -> cell d' t' i k)
                   ∧ ∀ i' k, i' < i -> k < d3 -> cell d' t i' k)
          d1 body st) as (d' & Hrun & Hlen' & Hd' & Hrows)
    end.
    + repeat split; try lia; done.
    + intros i d' Hi (Hlen' & Hd' & Hrows).
      match goal with
      | |- context [for_while ?fuel ?cond ?body ?st] =>
          destruct (for_while_inv
            (λ k '(e, ky, kb),
               ky = k * d1 ∧ kb = k * d2 ∧ length e = length dest0
               ∧ (∀ t' i k, t' < t -> i < d1 -> k < d3 -> cell e t' i k)
               ∧ (∀ i' k, i' < i -> k < d3 -> cell e t i' k)
               ∧ ∀ k', k' < k -> cell e t i k')
            cond body d3 fuel st)
            as ([[e ky] kb] & Hrun & _ & _ & Hlene & He & Herows & Hecol)
      end.
      * lia.
      * repeat split; try lia; done.
      * intros k [[e ky] kb] Hk (-> & -> & Hlene & He & Herows & Hecol).
        split; [apply N.ltb_lt; nia |].
        rewrite dot_element_spec; [| done | by apply Ha | | done | nia].
        2: { specialize (Hb t Ht).
             assert (k * d2 + d2 <= d2 * d3) by nia. lia. }
        cbn. pose proof (Hcell i k Hi Hk) as Hin.
        pose proof (row_bound t bs _ ms Ht Hin) as Hpos.
        unfold uadd. rewrite (wrap32_small (i + _)) by lia.
        match goal with |- context [store e ?pos ?v] =>
          replace pos with (t * ms + (k * d1 + i)) by lia;
          destruct (store_spec e (t * ms + (k * d1 + i)) v)
            as (e' & Hst & Hlene' & Hnew & Hold); [unfold ms in *; lia |]
        end.
        rewrite Hst. cbn. eexists. split; [reflexivity |].
        split; [rewrite wrap32_small by nia; lia |].
        split; [rewrite wrap32_small by nia; lia |].
        split; [congruence |]. split; [| split].
        -- intros t' i' k' Ht' Hi' Hk'. unfold cell. rewrite Hold.
           ++ by apply He.
           ++ pose proof (row_lt t' t _ ms Ht' (Hcell i' k' Hi' Hk')). lia.
        -- intros i' k' Hi' Hk'. unfold cell. rewrite Hold.
           ++ by apply Herows.
           ++ intros Heq.
              destruct (row_col_unique k' i' k i d1) as [_ ?]; lia.
        -- intros k' Hk'. unfold cell.
           destruct (decide (k' = k)) as [-> | Hne]; [done |].
           rewrite Hold; [apply Hecol; lia |]. intros Heq.
           destruct (row_col_unique k' i k i d1) as [? _]; lia.
      * intros [[e ky] kb] (-> & _). apply N.ltb_ge. unfold ms. lia.
      * rewrite Hrun. cbn. eexists. split; [reflexivity |].
        split; [done |]. split; [done |].
        intros i' k Hi' Hk. destruct (decide (i' = i)) as [-> | Hne].
        -- by apply Hecol.
        -- apply Herows; [lia | done].
    + rewrite Hrun. cbn. eexists. split; [reflexivity |].
      split; [lia |]. split; [lia |]. split; [lia |]. split; [done |].
      intros t' i k Ht' Hi Hk. destruct (decide (t' = t)) as [-> | Hne].
      * by apply Hrows.
      * apply Hd'; [lia | done | done].
  - exists d. rewrite Hrun. cbn. split; [done |]. split; [done |].
    intros t i k Ht Hi Hk. by apply Hd.
Qed.

Lemma shift_of_batch k d1 d2 :
  1 <= d2 -> d1 * d2 < 2 ^ 32 ->
  umul (umul (b2u (1 <? k)) d1) d2
  = if k =? 1 then 0 else if k =? 0 then 0 else d1 * d2.
Proof.
  intros Hd2 Hsmall. unfold umul, b2u.
  assert (d1 < 2 ^ 32) as Hd1 by nia.
  destruct (N.ltb_spec 1 k), (N.eqb_spec k 1), (N.eqb_spec k 0); try lia.
  - rewrite N.mul_1_l, (wrap32_small d1) by done. by apply wrap32_small.
  - done.
  - done.
Qed.

Section Dot.
Context {Rng : Type}.
Variable malloc : Heap -> N -> option (ptr * list float).
Variable this : ptr.
Hypothesis malloc_ok : malloc_spec malloc.
Implicit Types (σ : Process Rng) (a b : Tensor).

Lemma dot_impl_returns σ a b xa xb p c :
  let d1 := shape_at (shape_ a) 0 in
  let d2 := shape_at (shape_ a) 1 in
  let d3 := shape_at (shape_ b) 1 in
  let bs := N.max (batch_size (shape_ a)) (batch_size (shape_ b)) in
  let s := mkShape [d1; d3] bs in
  holds σ a xa -> holds σ b xb ->
  valid_shape (shape_ a) -> valid_shape (shape_ b) ->
  num_elements_per_sample (shape_ a) = d1 * d2 ->
  num_elements_per_sample (shape_ b) = d2 * d3 ->
  batch_size (shape_ a) = batch_size (shape_ b)
  ∨ batch_size (shape_ a) = 1 ∨ batch_size (shape_ b) = 1 ->
  fits (shape_ a) -> fits (shape_ b) -> fits s ->
  malloc (heap σ) (mem_size_of s) = Some (p, c) ->
  ∃ ys,
    dot_impl malloc this a b σ
    = Returns (mkTensor s this p) (allocated σ s p ys)
    ∧ heap σ !! p = None
    ∧ N.of_nat (length ys) = num_total_elements s
    ∧ num_total_elements s = d1 * d3 * bs
    ∧ ∀ t i k, t < bs -> i < d1 -> k < d3 ->
        load ys (t * (d1 * d3) + (k * d1 + i))
        = Some (dot_element xa xb
                  (sample (shape_ a) t * (d1 * d2))
                  (sample (shape_ b) t * (d2 * d3)) d1 d2 i k).
Proof.
  intros d1 d2 d3 bs s [Ha Hla] [Hb Hlb] Hva Hvb Hra Hrb Hbatch
    Hfa Hfb Hfs Hm.
  pose proof (shape_at_pos _ 0 Hva) as Hd1.
  pose proof (shape_at_pos _ 1 Hva) as Hd2.
  pose proof (shape_at_pos _ 1 Hvb) as Hd3.
  assert (1 <= batch_size (shape_ a)) as Hka by apply Hva.
  assert (1 <= batch_size (shape_ b)) as Hkb by apply Hvb.
  fold d1 d2 d3 in Hd1, Hd2, Hd3.
  assert (num_total_elements s = d1 * d3 * bs) as Htotal.
  { unfold s, num_total_elements, num_elements_per_sample, batch_size.
    cbn. lia. }
  destruct (fresh_block _ malloc_ok _ _ _ _ Hfs Hm) as [Hp Hc].
  rewrite Htotal in Hc.
  unfold fits, sizeof_float in Hfa, Hfb, Hfs. rewrite Htotal in Hfs.
  unfold num_total_elements in Hla, Hlb, Hfa, Hfb.
  rewrite Hra in Hla, Hfa. rewrite Hrb in Hlb, Hfb.
  assert (1 <= bs) as Hbs by (unfold bs; lia).
  assert (d1 * d2 < 2 ^ 32) as Hs12 by nia.
  assert (d2 * d3 < 2 ^ 32) as Hs23 by nia.
  assert (d1 * d3 < 2 ^ 32) as Hs13 by nia.
  set (ska := if batch_size (shape_ a) =? 1 then 0
              else if batch_size (shape_ a) =? 0 then 0 else d1 * d2).
  set (skb := if batch_size (shape_ b) =? 1 then 0
              else if batch_size (shape_ b) =? 0 then 0 else d2 * d3).
  destruct (dot_kernel_spec d1 d2 d3 bs ska skb xa xb c)
    as (ys & Hker & Hlen & Hys); try done.
  { intros t Ht. rewrite Hla. unfold ska.
    destruct (N.eqb_spec (batch_size (shape_ a)) 1) as [-> | Hne1]; [lia |].
    destruct (N.eqb_spec (batch_size (shape_ a)) 0); [lia |].
    assert (bs = batch_size (shape_ a)) as <- by (unfold bs; lia).
    generalize (d1 * d2). intros m. nia. }
  { intros t Ht. rewrite Hlb. unfold skb.
    destruct (N.eqb_spec (batch_size (shape_ b)) 1) as [-> | Hne1]; [lia |].
    destruct (N.eqb_spec (batch_size (shape_ b)) 0); [lia |].
    assert (bs = batch_size (shape_ b)) as <- by (unfold bs; lia).
    generalize (d2 * d3). intros m. nia. }
  exists ys. split; [| split; [done |]].
  - unfold dot_impl, bind. fold d1 d2 d3 bs s.
    rewrite (new_tensor_returns _ this _ _ _ _ Hm), CDATA_new.
    rewrite (CDATA_old _ _ _ _ _ _ Hp Ha), (CDATA_old _ _ _ _ _ _ Hp Hb).
    rewrite !shift_of_batch by done. fold ska skb.
    unfold umul at 1. rewrite wrap32_small by done.
    rewrite Hker. cbn [defined]. by rewrite commit_new.
  - split; [lia |]. split; [done |].
    intros t i k Ht Hi Hk. rewrite Hys by done. do 2 f_equal.
    + unfold sample, ska.
      destruct (N.eqb_spec (batch_size (shape_ a)) 1),
               (N.eqb_spec (batch_size (shape_ a)) 0); lia.
    + unfold sample, skb.
      destruct (N.eqb_spec (batch_size (shape_ b)) 1),
               (N.eqb_spec (batch_size (shape_ b)) 0); lia.
Qed.
End Dot.

(** X17.  [dot_impl] is the matrix product, sample by sample: for a left
    operand of [d1] by [d2] and a right operand of [d2] by [d3] elements
    per sample, the result has shape {[d1], [d3]} and batch size
    [max(batch_a, batch_b)], and its element in row [i] and column [k] of
    sample [t] is the inner product of row [i] of the left with column [k]
    of the right operand, the products added in the order of the shared
    axis to a [float] that starts at 0.  An operand of batch size 1 gives
    its only sample for every [t].  The operands are left as they were. *)
Theorem dot_elements {Rng : Type}
    (malloc : Heap -> N -> option (ptr * list float))
    (malloc_ok : malloc_spec malloc) (this : ptr)
    (σ : Process Rng) (a b : Tensor) (xa xb : list float) (p : ptr)
    (c : list float) :
  let d1 := shape_at (shape_ a) 0 in
  let d2 := shape_at (shape_ a) 1 in
  let d3 := shape_at (shape_ b) 1 in
  let bs := N.max (batch_size (shape_ a)) (batch_size (shape_ b)) in
  let s := mkShape [d1; d3] bs in
  holds σ a xa -> holds σ b xb ->
  valid_shape (shape_ a) -> valid_shape (shape_ b) ->
  num_elements_per_sample (shape_ a) = d1 * d2 ->
  num_elements_per_sample (shape_ b) = d2 * d3 ->
  batch_size (shape_ a) = batch_size (shape_ b)
  ∨ batch_size (shape_ a) = 1 ∨ batch_size (shape_ b) = 1 ->
  fits (shape_ a) -> fits (shape_ b) -> fits s ->
  malloc (heap σ) (mem_size_of s) = Some (p, c) ->
  ∃ ys,
    computes σ (dot_impl malloc this a b) s ys
    ∧ N.of_nat (length ys) = d1 * d3 * bs
    ∧ ∀ t i k, t < bs -> i < d1 -> k < d3 ->
        load ys (t * (d1 * d3) + (k * d1 + i))
        = Some (dot_element xa xb
                  (sample (shape_ a) t * (d1 * d2))
                  (sample (shape_ b) t * (d2 * d3)) d1 d2 i k).
Proof.
  intros d1 d2 d3 bs s Ha Hb Hva Hvb Hra Hrb Hbatch Hfa Hfb Hfs Hm.
  destruct (dot_impl_returns malloc this malloc_ok σ a b xa xb p c
              Ha Hb Hva Hvb Hra Hrb Hbatch Hfa Hfb Hfs Hm)
    as (ys & Hrun & Hp & Hlen & Htotal & Hys).
  exists ys. split; [| split; [by rewrite Hlen | done]].
  by eapply computes_allocated.
Qed.

Lemma fold_left_ext_seq {A : Type} (f g : A -> nat -> A) n a :
  (∀ acc j, (j < n)%nat -> f acc j = g acc j) ->
  fold_left f (seq 0 n) a = fold_left g (seq 0 n) a.
Proof.
  intros Hfg. induction n as [| n IH]; [done |].
  rewrite seq_S, !fold_left_app. cbn. rewrite IH by (intros; apply Hfg; lia).
  apply Hfg. lia.
Qed.

(** The inner product of row [i] of [L] with column [k] of [R] is the
    inner product of row [k] of the transposed [R] with column [i] of the
    transposed [L]. *)
Lemma dot_element_transposed xl xr xlt xrt pl pr m n q i k :
  i < m -> k < q ->
  (∀ j, j < n -> load xlt (pl + (i * n + j)) = load xl (pl + (j * m + i))) ->
  (∀ j, j < n -> load xrt (pr + (j * q + k)) = load xr (pr + (k * n + j))) ->
  dot_element xrt xlt pr pl q n k i = dot_element xl xr pl pr m n i k.
Proof.
  intros Hi Hk Hl Hr. unfold dot_element. apply fold_left_ext_seq.
  intros acc j Hj. rewrite Hl, Hr by lia. by rewrite F32_mul_comm.
Qed.

(** X18.  The product of the transposed operands, taken in the other
    order, is the transposed product: [dot(transpose(b), transpose(a))]
    and [transpose(dot(a, b))] have the same shape and the same values,
    under the batch broadcast as well: every element is the same sum of
    the same products in the same order, the two factors of each product
    exchanged.  The equality is one of values, NaN being a single
    value. *)
Theorem dot_of_transposes {Rng : Type}
    (malloc : Heap -> N -> option (ptr * list float))
    (malloc_ok : malloc_spec malloc) (this : ptr)
    (malloc_total : ∀ h size, is_Some (malloc h size))
    (σ : Process Rng) (a b : Tensor) (xa xb : list float) :
  let m := shape_at (shape_ a) 0 in
  let n := shape_at (shape_ a) 1 in
  let q := shape_at (shape_ b) 1 in
  let bs := N.max (batch_size (shape_ a)) (batch_size (shape_ b)) in
  holds σ a xa -> holds σ b xb ->
  valid_shape (shape_ a) -> valid_shape (shape_ b) ->
  num_elements_per_sample (shape_ a) = m * n ->
  shape_at (shape_ b) 0 = n ->
  num_elements_per_sample (shape_ b) = n * q ->
  batch_size (shape_ a) = batch_size (shape_ b)
  ∨ batch_size (shape_ a) = 1 ∨ batch_size (shape_ b) = 1 ->
  fits (shape_ a) -> fits (shape_ b) -> fits (mkShape [m; q] bs) ->
  ∃ bt σ1 at' σ2 d σ3 ys,
    transpose_impl malloc this b σ = Returns bt σ1
    ∧ transpose_impl malloc this a σ1 = Returns at' σ2
    ∧ dot_impl malloc this a b σ = Returns d σ3
    ∧ computes σ2 (dot_impl malloc this bt at') (mkShape [q; m] bs) ys
    ∧ computes σ3 (transpose_impl malloc this d) (mkShape [q; m] bs) ys.
Proof.
  intros m n q bs Ha Hb Hva Hvb Hra Hb0 Hrb Hbatch Hfa Hfb Hfs.
  pose proof (shape_at_pos _ 0 Hva) as Hm.
  pose proof (shape_at_pos _ 1 Hva) as Hn.
  pose proof (shape_at_pos _ 1 Hvb) as Hq.
  fold m n q in Hm, Hn, Hq.
  set (ka := batch_size (shape_ a)) in *.
  set (kb := batch_size (shape_ b)) in *.
  assert (1 <= ka) as Hka by apply Hva.
  assert (1 <= kb) as Hkb by apply Hvb.
  (* the transposed right operand *)
  set (sbt := mkShape [q; n] kb).
  destruct (malloc_total (heap σ) (mem_size_of sbt)) as [[p1 c1] Hm1].
  destruct (transpose_impl_returns malloc this malloc_ok σ b xb p1 c1)
    as (xbt & Hrun1 & Hp1 & Hfbt & Hvbt & Hlbt & _ & Hbt);
    [done | done | done | by rewrite Hb0 | by rewrite Hb0 |].
  rewrite Hb0 in Hrun1, Hfbt, Hvbt, Hlbt, Hbt.
  fold q kb sbt in Hrun1, Hfbt, Hvbt, Hlbt, Hbt.
  set (bt := mkTensor sbt this p1) in *.
  set (σ1 := allocated σ sbt p1 xbt) in *.
  (* the transposed left operand *)
  set (sat := mkShape [n; m] ka).
  destruct (malloc_total (heap σ1) (mem_size_of sat)) as [[p2 c2] Hm2].
  destruct (transpose_impl_returns malloc this malloc_ok σ1 a xa p2 c2)
    as (xat & Hrun2 & Hp2 & Hfat & Hvat & Hlat & _ & Hat);
    [by apply holds_allocated | done | done | done | done |].
  fold m n ka sat in Hrun2, Hfat, Hvat, Hlat, Hat.
  set (at' := mkTensor sat this p2) in *.
  set (σ2 := allocated σ1 sat p2 xat) in *.
  assert (holds σ2 bt xbt) as Hbt2.
  { apply holds_allocated; [done |]. by apply holds_new. }
  assert (holds σ2 at' xat) as Hat2 by by apply holds_new.
  (* the product of the transposed operands *)
  set (s := mkShape [q; m] bs).
  assert (N.max kb ka = bs) as Hmax by apply N.max_comm.
  assert (fits s) as Hfs'.
  { unfold fits, num_total_elements, num_elements_per_sample, batch_size in *.
    cbn in *. lia. }
  destruct (malloc_total (heap σ2) (mem_size_of s)) as [[p3 c3] Hm3].
  destruct (dot_impl_returns malloc this malloc_ok σ2 bt at' xbt xat p3 c3)
    as (ys & Hrun3 & Hp3 & Hlys & Htys & Hys); try done.
  { change (q * (n * 1) = q * n). lia. }
  { change (n * (m * 1) = n * m). lia. }
  { change (kb = ka ∨ kb = 1 ∨ ka = 1). lia. }
  { change (fits (mkShape [q; m] (N.max kb ka))). by rewrite Hmax. }
  { change (malloc (heap σ2) (mem_size_of (mkShape [q; m] (N.max kb ka)))
            = Some (p3, c3)). by rewrite Hmax. }
  change (shape_at (shape_ bt) 0) with q in *.
  change (shape_at (shape_ bt) 1) with n in *.
  change (shape_at (shape_ at') 1) with m in *.
  change (batch_size (shape_ bt)) with kb in *.
  change (batch_size (shape_ at')) with ka in *.
  rewrite Hmax in Hrun3, Hlys, Htys, Hys. fold s in Hrun3, Hlys, Htys.
  (* the product of the operands, and its transposition *)
  set (sd := mkShape [m; q] bs) in *.
  destruct (malloc_total (heap σ) (mem_size_of sd)) as [[p4 c4] Hm4].
  destruct (dot_impl_returns malloc this malloc_ok σ a b xa xb p4 c4)
    as (xd & Hrun4 & Hp4 & Hlxd & Htxd & Hxd); try done.
  fold m n q ka kb bs sd in Hrun4, Hlxd, Htxd, Hxd.
  set (d := mkTensor sd this p4) in *.
  set (σ3 := allocated σ sd p4 xd) in *.
  assert (1 <= bs) as Hbs by (unfold bs; lia).
  destruct (malloc_total (heap σ3) (mem_size_of s)) as [[p5 c5] Hm5].
  destruct (transpose_impl_returns malloc this malloc_ok σ3 d xd p5 c5)
    as (zs & Hrun5 & Hp5 & _ & _ & Hlzs & Htzs & Hzs); try done.
  { by apply holds_new. }
  { split; [| done]. cbn. repeat constructor; done. }
  { change (m * (q * 1) = m * q). lia. }
  change (shape_at (shape_ d) 0) with m in *.
  change (shape_at (shape_ d) 1) with q in *.
  change (batch_size (shape_ d)) with bs in *.
  fold s in Hrun5, Hlzs, Htzs.
  (* the two results hold the same values *)
  assert (zs = ys) as ->.
  { apply buffer_eq; [lia |]. intros j Hj. rewrite Hlzs, Htzs in Hj.
    destruct (index_split j (m * q) bs Hj) as (t & r & Ht & Hr & ->).
    rewrite (N.mul_comm m q) in Hr.
    destruct (index_split r q m Hr) as (i & k & Hi & Hk & ->).
    rewrite Hzs, Hxd by done.
    rewrite (N.mul_comm m q), Hys by done. f_equal.
    change (sample (shape_ bt) t) with (sample (shape_ b) t).
    change (sample (shape_ at') t) with (sample (shape_ a) t).
    rewrite (N.mul_comm q n), (N.mul_comm n m). symmetry.
    apply dot_element_transposed; [done | done | |].
    - intros j Hjn. apply Hat; [| done | done].
      unfold sample. fold ka. destruct (N.eqb_spec ka 1); lia.
    - intros j Hjn. apply Hbt; [| done | done].
      unfold sample. fold kb. destruct (N.eqb_spec kb 1); lia. }
  exists bt, σ1, at', σ2, d, σ3, ys.
  split; [done |]. split; [done |]. split; [done |]. split.
  - by eapply computes_allocated.
  - by eapply computes_allocated.
Qed.

(** ** Accumulation into a slice *)

(** The innermost loop of [add_gradient_offset_impl]:
    [REPEAT_OP(j, span, *ddp++ += *sp++)] between two distinct blocks. *)
Lemma add_span (h : Heap) pa pb d s span dp sp :
  h !! pa = Some d -> h !! pb = Some s -> pa ≠ pb ->
  dp + span <= N.of_nat (length d) ->
  sp + span <= N.of_nat (length s) ->
  ∃ d',
    REPEAT_OP span (λ _ '(h, ddp, sp),
        dv ← hload h pa ddp;
        sv ← hload h pb sp;
        h' ← hstore h pa ddp (F32.add dv sv);
        Some (h', ddp + 1, sp + 1)) (h, dp, sp)
    = Some (<[pa := d']> h, dp + span, sp + span)
    ∧ length d' = length d
    ∧ (∀ j, j < span ->
         ∃ dv sv, load d (dp + j) = Some dv ∧ load s (sp + j) = Some sv
                  ∧ load d' (dp + j) = Some (F32.add dv sv))
    ∧ (∀ idx, idx < dp ∨ dp + span <= idx -> load d' idx = load d idx).
Proof.
  intros Hd Hs Hne Hdlen Hslen.
  match goal with
  | |- context [REPEAT_OP span ?body ?st] =>
      destruct (REPEAT_OP_inv
        (λ n '(h', ddp, sp'),
           ddp = dp + n ∧ sp' = sp + n
           ∧ ∃ d', h' = <[pa := d']> h
               ∧ length d' = length d
               ∧ (∀ j, j < n ->
                    ∃ dv sv, load d (dp + j) = Some dv
                             ∧ load s (sp + j) = Some sv
                             ∧ load d' (dp + j) = Some (F32.add dv sv))
               ∧ (∀ idx, idx < dp ∨ dp + n <= idx ->
                    load d' idx = load d idx))
        span body st)
        as ([[h' ddp] sp'] & Hrun & -> & -> & d' & -> & Hlen & Hdone & Hrest)
  end.
  - split; [lia |]. split; [lia |]. exists d.
    split; [by rewrite insert_id |]. split; [done |].
    split; [intros j Hj; lia | done].
  - intros n [[h' ddp] sp'] Hn (-> & -> & d' & -> & Hlen & Hdone & Hrest).
    destruct (load_lt d (dp + n)) as [dv Hdv]; [lia |].
    destruct (load_lt s (sp + n)) as [sv Hsv]; [lia |].
    destruct (store_spec d' (dp + n) (F32.add dv sv))
      as (d'' & Hst & Hlen' & Hnew & Hold); [lia |].
    rewrite hload_insert_eq, Hrest, Hdv by lia. cbn.
    rewrite hload_insert_ne by done. unfold hload at 1. rewrite Hs. cbn.
    rewrite Hsv. cbn. rewrite (hstore_insert _ _ _ _ _ _ Hst). cbn.
    eexists. split; [reflexivity |]. split; [lia |]. split; [lia |].
    exists d''. split; [done |]. split; [congruence |]. split.
    + intros j Hj. destruct (decide (j = n)) as [-> | Hnj].
      * by exists dv, sv.
      * destruct (Hdone j) as (dv' & sv' & ? & ? & ?); [lia |].
        exists dv', sv'. rewrite Hold by lia. done.
    + intros idx Hidx. rewrite Hold by lia. apply Hrest. lia.
  - exists d'. rewrite Hrun. done.
Qed.

(** One round of the outer loop: [repeat] rows of [span] elements, [skip]
    apart in the destination and consecutive in the source. *)
Lemma add_spans (h : Heap) pa pb d s span skip repeat dest src :
  h !! pa = Some d -> h !! pb = Some s -> pa ≠ pb ->
  span <= skip ->
  (∀ r, r < repeat -> dest + r * skip + span <= N.of_nat (length d)) ->
  src + repeat * span <= N.of_nat (length s) ->
  ∃ d' dp sp,
    REPEAT_OP repeat (λ _ '(h, dp, sp),
        '(h', _, sp') ←
          REPEAT_OP span (λ _ '(h, ddp, sp),
              dv ← hload h pa ddp;
              sv ← hload h pb sp;
              h' ← hstore h pa ddp (F32.add dv sv);
              Some (h', ddp + 1, sp + 1)) (h, dp, sp);
        Some (h', dp + skip, sp')) (h, dest, src)
    = Some (<[pa := d']> h, dp, sp)
    ∧ length d' = length d
    ∧ (∀ r j, r < repeat -> j < span ->
         ∃ dv sv, load d (dest + r * skip + j) = Some dv
                  ∧ load s (src + r * span + j) = Some sv
                  ∧ load d' (dest + r * skip + j) = Some (F32.add dv sv))
    ∧ (∀ idx, (∀ r j, r < repeat -> j < span -> idx ≠ dest + r * skip + j) ->
         load d' idx = load d idx).
Proof.
  intros Hd Hs Hne Hspan Hdlen Hslen.
  match goal with
  | |- context [REPEAT_OP repeat ?body ?st] =>
      destruct (REPEAT_OP_inv
        (λ n '(h', dp, sp),
           dp = dest + n * skip ∧ sp = src + n * span
           ∧ ∃ d', h' = <[pa := d']> h
               ∧ length d' = length d
               ∧ (∀ r j, r < n -> j < span ->
                    ∃ dv sv, load d (dest + r * skip + j) = Some dv
                             ∧ load s (src + r * span + j) = Some sv
                             ∧ load d' (dest + r * skip + j)
                               = Some (F32.add dv sv))
               ∧ (∀ idx, (∀ r j, r < n -> j < span ->
                            idx ≠ dest + r * skip + j) ->
                    load d' idx = load d idx))
        repeat body st)
        as ([[h' dp] sp] & Hrun & -> & -> & d' & -> & Hlen & Hdone & Hrest)
  end.
  - split; [lia |]. split; [lia |]. exists d.
    split; [by rewrite insert_id |]. split; [done |].
    split; [intros r j Hr; lia | done].
  - intros n [[h' dp] sp] Hn (-> & -> & d' & -> & Hlen & Hdone & Hrest).
    destruct (add_span (<[pa := d']> h) pa pb d' s span
                (dest + n * skip) (src + n * span))
      as (d'' & Hrow & Hlen' & Hnew & Hold).
    { by rewrite lookup_insert_eq. }
    { by rewrite lookup_insert_ne. }
    { done. }
    { rewrite Hlen. by apply Hdlen. }
    { assert (n * span + span <= repeat * span) by nia. lia. }
    rewrite Hrow. cbn. eexists. split; [reflexivity |].
    split; [lia |]. split; [lia |]. exists d''.
    split; [by rewrite insert_insert_eq |]. split; [congruence |]. split.
    + intros r j Hr Hj. destruct (decide (r = n)) as [-> | Hrn].
      * destruct (Hnew j Hj) as (dv & sv & Hdv & Hsv & Hv).
        exists dv, sv. split; [| done]. rewrite <- Hdv. symmetry.
        apply Hrest. intros r' j' Hr' Hj'.
        pose proof (row_lt r' n j' skip Hr'). lia.
      * destruct (Hdone r j) as (dv & sv & ? & ? & ?); [lia | done |].
        exists dv, sv. rewrite Hold; [done |].
        left. pose proof (row_lt r n j skip). lia.
    + intros idx Hidx. rewrite Hold.
      * apply Hrest. intros r j Hr Hj. apply Hidx; [lia | done].
      * apply outside_span. intros j Hj. apply Hidx; [lia | done].
  - exists d', (dest + repeat * skip), (src + repeat * span). done.
Qed.

(** The loop nest when every round has a sample of its own in the
    destination. *)
Lemma add_offset_rows (h : Heap) pa pb d0 s0 span skip repeat bs per sks off :
  h !! pa = Some d0 -> h !! pb = Some s0 -> pa ≠ pb ->
  span <= skip ->
  (∀ r, r < repeat -> off + r * skip + span <= per) ->
  N.of_nat (length d0) = per * bs ->
  (∀ t, t < bs -> t * sks + repeat * span <= N.of_nat (length s0)) ->
  ∃ d',
    add_gradient_offset_kernel span skip repeat bs per sks off pa pb h
    = Some (<[pa := d']> h)
    ∧ length d' = length d0
    ∧ (∀ t r j, t < bs -> r < repeat -> j < span ->
         ∃ dv sv, load d0 (t * per + (off + r * skip + j)) = Some dv
                  ∧ load s0 (t * sks + (r * span + j)) = Some sv
                  ∧ load d' (t * per + (off + r * skip + j))
                    = Some (F32.add dv sv))
    ∧ (∀ idx, (∀ t r j, t < bs -> r < repeat -> j < span ->
                 idx ≠ t * per + (off + r * skip + j)) ->
         load d' idx = load d0 idx).
Proof.
  intros Hd Hs Hne Hspan Hrows Hdlen Hslen. unfold add_gradient_offset_kernel.
  match goal with
  | |- context [REPEAT_OP bs ?body ?st] =>
      destruct (REPEAT_OP_inv
        (λ n '(h', dest, src),
           dest = off + n * per ∧ src = n * sks
           ∧ ∃ d', h' = <[pa := d']> h
               ∧ length d' = length d0
               ∧ (∀ t r j, t < n -> r < repeat -> j < span ->
                    ∃ dv sv,
                      load d0 (t * per + (off + r * skip + j)) = Some dv
                      ∧ load s0 (t * sks + (r * span + j)) = Some sv
                      ∧ load d' (t * per + (off + r * skip + j))
                        = Some (F32.add dv sv))
               ∧ (∀ idx, (∀ t r j, t < n -> r < repeat -> j < span ->
                            idx ≠ t * per + (off + r * skip + j)) ->
                    load d' idx = load d0 idx))
        bs body st)
        as ([[h' dest] src] & Hrun & _ & _ & d' & -> & Hlen & Hdone & Hrest)
  end.
  - split; [lia |]. split; [lia |]. exists d0.
    split; [by rewrite insert_id |]. split; [done |].
    split; [intros t r j Ht; lia | done].
  - intros n [[h' dest] src] Hn (-> & -> & d' & -> & Hlen & Hdone & Hrest).
    destruct (add_spans (<[pa := d']> h) pa pb d' s0 span skip repeat
                (off + n * per) (n * sks))
      as (d'' & dp & sp & Hrow & Hlen' & Hnew & Hold).
    { by rewrite lookup_insert_eq. }
    { by rewrite lookup_insert_ne. }
    { done. }
    { done. }
    { intros r Hr. specialize (Hrows r Hr).
      assert (n * per + per <= per * bs) by nia. lia. }
    { by apply Hslen. }
    rewrite Hrow. cbn. eexists. split; [reflexivity |].
    split; [lia |]. split; [lia |]. exists d''.
    split; [by rewrite insert_insert_eq |]. split; [congruence |]. split.
    + intros t r j Ht Hr Hj. destruct (decide (t = n)) as [-> | Htn].
      * destruct (Hnew r j Hr Hj) as (dv & sv & Hdv & Hsv & Hv).
        exists dv, sv.
        replace (n * per + (off + r * skip + j))
          with (off + n * per + r * skip + j) by lia.
        replace (n * sks + (r * span + j))
          with (n * sks + r * span + j) by lia.
        split; [| done]. rewrite <- Hdv. symmetry.
        apply Hrest. intros t' r' j' Ht' Hr' Hj'.
        specialize (Hrows r' Hr').
        assert (t' * per + per <= n * per) by nia. lia.
      * destruct (Hdone t r j) as (dv & sv & ? & ? & ?); [lia | done | done |].
        exists dv, sv. rewrite Hold; [done |].
        intros r' j' Hr' Hj'. specialize (Hrows r Hr).
        assert (t * per + per <= n * per) by nia. lia.
    + intros idx Hidx. rewrite Hold.
      * apply Hrest. intros t r j Ht Hr Hj. apply Hidx; [lia | done | done].
      * intros r j Hr Hj.
        specialize (Hidx n r j). lia.
  - exists d'. rewrite Hrun. done.
Qed.

(** The loop nest when every round adds into the same sample of the
    destination from a sample of its own of the source. *)
Lemma add_offset_accumulate (h : Heap) pa pb d0 s0 span skip repeat bs off :
  let per_b := repeat * span in
  h !! pa = Some d0 -> h !! pb = Some s0 -> pa ≠ pb ->
  span <= skip ->
  (∀ r, r < repeat -> off + r * skip + span <= N.of_nat (length d0)) ->
  N.of_nat (length s0) = per_b * bs ->
  ∃ d',
    add_gradient_offset_kernel span skip repeat bs 0 per_b off pa pb h
    = Some (<[pa := d']> h)
    ∧ length d' = length d0
    ∧ (∀ r j, r < repeat -> j < span ->
         ∃ dv, load d0 (off + r * skip + j) = Some dv
               ∧ load d' (off + r * skip + j)
                 = Some (fold_left F32.add
                           (column s0 per_b (r * span + j) bs) dv))
    ∧ (∀ idx, (∀ r j, r < repeat -> j < span -> idx ≠ off + r * skip + j) ->
         load d' idx = load d0 idx).
Proof.
  intros per_b Hd Hs Hne Hspan Hrows Hslen. unfold add_gradient_offset_kernel.
  match goal with
  | |- context [REPEAT_OP bs ?body ?st] =>
      destruct (REPEAT_OP_inv
        (λ n '(h', dest, src),
           dest = off ∧ src = n * per_b
           ∧ ∃ d', h' = <[pa := d']> h
               ∧ length d' = length d0
               ∧ (∀ r j, r < repeat -> j < span ->
                    ∃ dv, load d0 (off + r * skip + j) = Some dv
                          ∧ load d' (off + r * skip + j)
                            = Some (fold_left F32.add
                                      (column s0 per_b (r * span + j) n) dv))
               ∧ (∀ idx, (∀ r j, r < repeat -> j < span ->
                            idx ≠ off + r * skip + j) ->
                    load d' idx = load d0 idx))
        bs body st)
        as ([[h' dest] src] & Hrun & _ & _ & d' & -> & Hlen & Hdone & Hrest)
  end.
  - split; [done |]. split; [lia |]. exists d0.
    split; [by rewrite insert_id |]. split; [done |]. split; [| done].
    intros r j Hr Hj. specialize (Hrows r Hr).
    destruct (load_lt d0 (off + r * skip + j)) as [dv Hdv]; [lia |].
    by exists dv.
  - intros n [[h' dest] src] Hn (-> & -> & d' & -> & Hlen & Hdone & Hrest).
    destruct (add_spans (<[pa := d']> h) pa pb d' s0 span skip repeat
                off (n * per_b))
      as (d'' & dp & sp & Hrow & Hlen' & Hnew & Hold).
    { by rewrite lookup_insert_eq. }
    { by rewrite lookup_insert_ne. }
    { done. }
    { done. }
    { intros r Hr. rewrite Hlen. by apply Hrows. }
    { fold per_b. assert (n * per_b + per_b <= per_b * bs) by nia. lia. }
    rewrite Hrow. cbn. eexists. split; [reflexivity |].
    split; [lia |]. split; [lia |]. exists d''.
    split; [by rewrite insert_insert_eq |]. split; [congruence |]. split.
    + intros r j Hr Hj. destruct (Hdone r j Hr Hj) as (dv & Hdv & Hacc).
      destruct (Hnew r j Hr Hj) as (dv' & sv & Hdv' & Hsv & Hv).
      exists dv. split; [done |].
      rewrite column_succ, fold_left_app.
      replace (n * per_b + (r * span + j)) with (n * per_b + r * span + j)
        by lia.
      rewrite Hsv. cbn. congruence.
    + intros idx Hidx. rewrite Hold by done. by apply Hrest.
  - exists d'. rewrite Hrun. done.
Qed.

Lemma add_gradient_offset_kernel_once span skip repeat sd ss sd' ss' off
    pa pb h :
  add_gradient_offset_kernel span skip repeat 1 sd ss off pa pb h
  = add_gradient_offset_kernel span skip repeat 1 sd' ss' off pa pb h.
Proof.
  unfold add_gradient_offset_kernel, REPEAT_OP.
  change (N.to_nat 1) with 1%nat. cbn [repeat_from].
  match goal with |- context [repeat_from ?b 0 (N.to_nat repeat) ?st] =>
    destruct (repeat_from b 0 (N.to_nat repeat) st) as [[[? ?] ?] |] end;
    reflexivity.
Qed.

Lemma shape_at_dims s1 s2 i : dims_ s1 = dims_ s2 -> shape_at s1 i = shape_at s2 i.
Proof. unfold shape_at. by intros ->. Qed.

Lemma per_sample_dims s1 s2 :
  dims_ s1 = dims_ s2 ->
  num_elements_per_sample s1 = num_elements_per_sample s2.
Proof. unfold num_elements_per_sample. by intros ->. Qed.

Lemma add_gradient_offset_returns {Rng : Type} (σ : Process Rng)
    (a b : Tensor) (xa xb : list float) (dim offset len : N) :
  let base := num_elements_under_rank (shape_ a) dim in
  let n := shape_at (shape_ a) dim in
  let rest := num_elements_over_rank (shape_ a) dim in
  let span := base * len in
  let skip := base * n in
  let per_a := rest * skip in
  let per_b := rest * span in
  let na := batch_size (shape_ a) in
  let nb := batch_size (shape_ b) in
  holds σ a xa -> holds σ b xb -> data_ a ≠ data_ b ->
  valid_shape (shape_ a) -> fits (shape_ a) ->
  dims_ (shape_ b) = dims_ (resize_dim (shape_ a) dim len) ->
  1 <= len -> offset + len <= n -> 1 <= nb ->
  na = nb ∨ na = 1 ∨ nb = 1 ->
  ∃ ya σ',
    add_gradient_offset_impl a b dim offset σ = Returns tt σ'
    ∧ σ' = written σ a ya
    ∧ holds σ' a ya ∧ holds σ' b xb
    ∧ (∀ idx,
         (∀ t r j, t < na -> r < rest -> j < span ->
            idx ≠ t * per_a + (base * offset + r * skip + j)) ->
         load ya idx = load xa idx)
    ∧ (nb = na ∨ nb = 1 ->
       ∀ t r j x y, t < na -> r < rest -> j < span ->
         load xa (t * per_a + (base * offset + r * skip + j)) = Some x ->
         load xb (sample (shape_ b) t * per_b + (r * span + j)) = Some y ->
         load ya (t * per_a + (base * offset + r * skip + j))
         = Some (F32.add x y))
    ∧ (na = 1 ->
       ∀ r j x, r < rest -> j < span ->
         load xa (base * offset + r * skip + j) = Some x ->
         load ya (base * offset + r * skip + j)
         = Some (fold_left F32.add (column xb per_b (r * span + j) nb) x)).
Proof.
  intros base n rest span skip per_a per_b na nb
    [Ha Hla] [Hb Hlb] Hne Hvalid Hfit Hdims Hlen Hoff Hnb Hbatch.
  pose proof (base_pos a dim Hvalid) as Hbase.
  pose proof (rest_pos a dim Hvalid) as Hrest.
  assert (1 <= na) as Hna by apply Hvalid.
  pose proof (per_sample_split (shape_ a) dim) as Hper_a.
  pose proof (per_sample_dims _ _ Hdims) as Hper_b.
  rewrite per_sample_resize_dim in Hper_b.
  pose proof (shape_at_dims _ _ dim Hdims) as Hat.
  rewrite shape_at_resize_dim in Hat.
  fold base n rest in Hbase, Hrest, Hper_a, Hper_b.
  assert (num_elements_per_sample (shape_ a) = per_a) as Hpa
    by (unfold per_a, skip; lia).
  assert (num_elements_per_sample (shape_ b) = per_b) as Hpb
    by (unfold per_b, span; lia).
  unfold fits, sizeof_float, num_total_elements in Hfit.
  unfold num_total_elements in Hla, Hlb.
  rewrite Hpa in Hla, Hfit. rewrite Hpb in Hlb.
  fold na in Hla, Hfit. fold nb in Hlb.
  assert (per_a < 2 ^ 32) as Hsmall by nia.
  assert (span <= skip) as Hspan by (unfold span, skip; nia).
  assert (base * offset + span <= skip) as Hoffspan
    by (unfold span, skip; nia).
  assert (skip <= per_a) as Hskip by (unfold per_a; nia).
  assert (per_b <= per_a) as Hpba.
  { unfold per_a, per_b. by apply N.mul_le_mono_l. }
  assert (1 <= skip) as Hskip1 by (unfold skip; nia).
  assert (∀ r, r < rest -> base * offset + r * skip + span <= per_a)
    as Hrows.
  { intros r Hr. assert (r * skip + skip <= rest * skip) by nia.
    unfold per_a. lia. }
  set (pos t r j := t * per_a + (base * offset + r * skip + j)).
  (* the result of the loop nest, in the form of one of the two lemmas *)
  assert (∃ ya,
    add_gradient_offset_kernel span skip rest (N.max na nb)
      (umul (b2u (1 <? na)) per_a) (umul (b2u (1 <? nb)) per_b)
      (base * offset) (data_ a) (data_ b) (heap σ)
    = Some (<[data_ a := ya]> (heap σ))
    ∧ length ya = length xa
    ∧ (∀ idx, (∀ t r j, t < na -> r < rest -> j < span -> idx ≠ pos t r j) ->
         load ya idx = load xa idx)
    ∧ ((nb = na ∨ nb = 1)
       ∧ (∀ t r j, t < na -> r < rest -> j < span ->
            ∃ dv sv, load xa (pos t r j) = Some dv
                     ∧ load xb (sample (shape_ b) t * per_b + (r * span + j))
                       = Some sv
                     ∧ load ya (pos t r j) = Some (F32.add dv sv))
       ∨ (na = 1 ∧ nb ≠ 1)
         ∧ (∀ r j, r < rest -> j < span ->
              ∃ dv, load xa (base * offset + r * skip + j) = Some dv
                    ∧ load ya (base * offset + r * skip + j)
                      = Some (fold_left F32.add
                                (column xb per_b (r * span + j) nb) dv))))
    as (ya & Hker & Hlen' & Hframe & Hcases).
  { rewrite !skip_of_batch by lia. unfold sample. fold nb.
    destruct (N.eqb_spec na 1) as [Hna1 | Hna1],
             (N.eqb_spec nb 1) as [Hnb1 | Hnb1];
      destruct (N.eqb_spec na 0), (N.eqb_spec nb 0); try lia.
    - (* both of batch size 1: one round *)
      replace (N.max na nb) with 1 by lia.
      rewrite (add_gradient_offset_kernel_once _ _ _ 0 0 per_a 0).
      destruct (add_offset_rows (heap σ) (data_ a) (data_ b) xa xb
                  span skip rest 1 per_a 0 (base * offset))
        as (ya & Hker & Hlen' & Hrows' & Hframe);
        [done | done | done | done | done | lia | |].
      { intros t Ht. fold per_b. nia. }
      exists ya. split; [done |]. split; [done |]. split.
      + intros idx Hidx. apply Hframe. intros t r j Ht. apply Hidx. lia.
      + left. split; [lia |]. intros t r j Ht Hr Hj.
        destruct (Hrows' t r j) as (dv & sv & ? & Hsv & ?); [lia | done..|].
        exists dv, sv. split; [done |]. split; [| done].
        rewrite <- Hsv. f_equal. lia.
    - (* [a] of batch size 1, [b] of more *)
      replace (N.max na nb) with nb by lia.
      destruct (add_offset_accumulate (heap σ) (data_ a) (data_ b) xa xb
                  span skip rest nb (base * offset))
        as (ya & Hker & Hlen' & Hacc & Hframe);
        [done | done | done | done | | done |].
      { intros r Hr. specialize (Hrows r Hr). lia. }
      exists ya. split; [done |]. split; [done |]. split.
      + intros idx Hidx. apply Hframe. intros r j Hr Hj.
        specialize (Hidx 0 r j). unfold pos in Hidx. lia.
      + right. split; [lia |]. done.
    - (* [b] of batch size 1, [a] of more *)
      replace (N.max na nb) with na by lia.
      destruct (add_offset_rows (heap σ) (data_ a) (data_ b) xa xb
                  span skip rest na per_a 0 (base * offset))
        as (ya & Hker & Hlen' & Hrows' & Hframe);
        [done | done | done | done | done | lia | |].
      { intros t Ht. fold per_b. nia. }
      exists ya. split; [done |]. split; [done |]. split; [done |].
      left. split; [lia |]. intros t r j Ht Hr Hj.
      destruct (Hrows' t r j Ht Hr Hj) as (dv & sv & ? & Hsv & ?).
      exists dv, sv. split; [done |]. split; [| done].
      rewrite <- Hsv. f_equal. lia.
    - (* equal batch sizes, more than 1 *)
      assert (na = nb) as Heq by lia.
      replace (N.max na nb) with na by lia.
      destruct (add_offset_rows (heap σ) (data_ a) (data_ b) xa xb
                  span skip rest na per_a per_b (base * offset))
        as (ya & Hker & Hlen' & Hrows' & Hframe);
        [done | done | done | done | done | lia | |].
      { intros t Ht. fold per_b. rewrite Hlb, <- Heq.
        assert (t * per_b + per_b <= per_b * na) by nia. lia. }
      exists ya. split; [done |]. split; [done |]. split; [done |].
      left. split; [lia |]. done. }
  exists ya, (written σ a ya). split.
  { unfold add_gradient_offset_impl, bind, get_heap, put_heap.
    rewrite Hat, Hpa, Hpb. fold base n.
    rewrite (wrap32_small base), (wrap32_small per_a), (wrap32_small per_b)
      by lia.
    assert (umul base n = skip) as -> by (apply wrap32_small; lia).
    assert (umul base len = span) as -> by (apply wrap32_small; lia).
    assert (umul base offset = base * offset) as ->
      by (apply wrap32_small; nia).
    unfold udiv. destruct (N.eqb_spec skip 0) as [? | _]; [lia |].
    cbn [defined]. unfold per_a at 1. rewrite N.div_mul by lia.
    fold na nb. rewrite Hker. reflexivity. }
  split; [done |]. split.
  { split; [cbn; by rewrite lookup_insert_eq |].
    unfold num_total_elements. rewrite Hpa. fold na. lia. }
  split.
  { split; [cbn; by rewrite lookup_insert_ne |].
    unfold num_total_elements. rewrite Hpb. by fold nb. }
  split; [done |]. split.
  - intros Hnb' t r j x y Ht Hr Hj Hx Hy.
    destruct Hcases as [[_ Hrows'] | [[? ?] _]]; [| lia].
    destruct (Hrows' t r j Ht Hr Hj) as (dv & sv & ? & ? & ?).
    unfold pos in *. congruence.
  - intros Hna1 r j x Hr Hj Hx.
    destruct Hcases as [[Hnb' Hrows'] | [_ Hacc]].
    + destruct (Hrows' 0 r j) as (dv & sv & Hdv & Hsv & Hv);
        [lia | done | done |].
      unfold pos in *. rewrite N.mul_0_l, N.add_0_l in Hdv, Hv.
      assert (nb = 1) as Hnb1 by lia.
      unfold sample in Hsv. fold nb in Hsv. rewrite Hnb1 in Hsv.
      cbn [N.eqb Pos.eqb] in Hsv. rewrite N.mul_0_l, N.add_0_l in Hsv.
      rewrite Hnb1. replace 1 with (N.succ 0) by lia.
      rewrite column_succ.
      change (column xb per_b (r * span + j) 0) with (@nil float).
      cbn. rewrite N.add_0_l, Hsv. cbn. congruence.
    + destruct (Hacc r j Hr Hj) as (dv & ? & ?). congruence.
Qed.

(** X19.  [add_gradient_offset_impl] adds the source into the range of
    the destination that starts at [offset] along the axis and has the
    extent of the source there, in place, and leaves every other element
    of the destination, the source and every other block as they were.
    With equal batch sizes, and with a source of batch size 1, which is
    then added into every sample, an element of the range becomes its sum
    with the element of the source at the same place of the range.  With
    a destination of batch size 1, the samples of the source are added
    into it one after the other in batch order, each addition rounded. *)
Theorem add_gradient_offset_into_slice {Rng : Type} (σ : Process Rng)
    (a b : Tensor) (xa xb : list float) (dim offset len : N) :
  let base := num_elements_under_rank (shape_ a) dim in
  let n := shape_at (shape_ a) dim in
  let rest := num_elements_over_rank (shape_ a) dim in
  let span := base * len in
  let skip := base * n in
  let per_a := rest * skip in
  let per_b := rest * span in
  let na := batch_size (shape_ a) in
  let nb := batch_size (shape_ b) in
  holds σ a xa -> holds σ b xb -> data_ a ≠ data_ b ->
  valid_shape (shape_ a) -> fits (shape_ a) ->
  dims_ (shape_ b) = dims_ (resize_dim (shape_ a) dim len) ->
  1 <= len -> offset + len <= n -> 1 <= nb ->
  na = nb ∨ na = 1 ∨ nb = 1 ->
  ∃ ya σ',
    add_gradient_offset_impl a b dim offset σ = Returns tt σ'
    ∧ σ' = written σ a ya
    ∧ holds σ' a ya ∧ holds σ' b xb
    ∧ (∀ idx,
         (∀ t r j, t < na -> r < rest -> j < span ->
            idx ≠ t * per_a + (base * offset + r * skip + j)) ->
         load ya idx = load xa idx)
    ∧ (nb = na ∨ nb = 1 ->
       ∀ t r j x y, t < na -> r < rest -> j < span ->
         load xa (t * per_a + (base * offset + r * skip + j)) = Some x ->
         load xb (sample (shape_ b) t * per_b + (r * span + j)) = Some y ->
         load ya (t * per_a + (base * offset + r * skip + j))
         = Some (F32.add x y))
    ∧ (na = 1 ->
       ∀ r j x, r < rest -> j < span ->
         load xa (base * offset + r * skip + j) = Some x ->
         load ya (base * offset + r * skip + j)
         = Some (fold_left F32.add (column xb per_b (r * span + j) nb) x)).
Proof.
  intros base n rest span skip per_a per_b na nb.
  apply add_gradient_offset_returns.
Qed.

(** X20.  [add_gradient_offset_impl] is the reverse of [slice_impl]: once
    a tensor [b] with the shape of a slice of [a] was added into [a] at
    the place of that slice, the slice of [a] holds, element by element,
    the sum of what it held before and of [b]. *)
Theorem slice_of_add_gradient_offset {Rng : Type}
    (malloc : Heap -> N -> option (ptr * list float))
    (malloc_ok : malloc_spec malloc) (this : ptr)
    (malloc_total : ∀ h size, is_Some (malloc h size))
    (σ : Process Rng) (a b : Tensor) (xa xb : list float)
    (dim offset len : N) :
  holds σ a xa -> holds σ b xb -> data_ a ≠ data_ b ->
  valid_shape (shape_ a) -> fits (shape_ a) ->
  shape_ b = resize_dim (shape_ a) dim len ->
  1 <= len -> offset + len <= shape_at (shape_ a) dim ->
  ∃ σ' ps,
    add_gradient_offset_impl a b dim offset σ = Returns tt σ'
    ∧ computes σ (slice_impl malloc this a dim offset (shape_ b))
        (shape_ b) ps
    ∧ computes σ' (slice_impl malloc this a dim offset (shape_ b))
        (shape_ b) (zip_with F32.add ps xb).
Proof.
  intros Ha Hb Hne Hvalid Hfit Hsb Hlen Hoff.
  set (base := num_elements_under_rank (shape_ a) dim).
  set (n := shape_at (shape_ a) dim).
  set (rest := num_elements_over_rank (shape_ a) dim).
  set (na := batch_size (shape_ a)).
  assert (batch_size (shape_ b) = na) as Hnb by by rewrite Hsb.
  assert (1 <= na) as Hna by apply Hvalid.
  pose proof (base_pos a dim Hvalid) as Hbase.
  pose proof (rest_pos a dim Hvalid) as Hrest.
  fold base rest in Hbase, Hrest.
  destruct (add_gradient_offset_returns σ a b xa xb dim offset len)
    as (ya & σ' & Hrun & -> & Ha' & Hb' & _ & Hsum & _); try done.
  { by rewrite Hsb. }
  { rewrite Hnb. lia. }
  { rewrite Hnb. lia. }
  fold base n rest na in Hsum. rewrite Hnb in Hsum.
  specialize (Hsum (or_introl eq_refl)).
  assert (fits (resize_dim (shape_ a) dim len)) as Hfits
    by (apply piece_fits; [done | fold n; lia]).
  destruct (malloc_total (heap σ) (mem_size_of (resize_dim (shape_ a) dim len)))
    as [[p c] Hm].
  destruct (malloc_total (heap (written σ a ya))
              (mem_size_of (resize_dim (shape_ a) dim len)))
    as [[p' c'] Hm'].
  destruct (slice_impl_returns malloc this malloc_ok a xa dim Hvalid Hfit
              σ offset len p c Ha Hlen Hoff Hm)
    as (ps & Hslice & Hp & _ & _ & Hlps & Hps).
  destruct (slice_impl_returns malloc this malloc_ok a ya dim Hvalid Hfit
              (written σ a ya) offset len p' c' Ha' Hlen Hoff Hm')
    as (qs & Hslice' & Hp' & _ & _ & Hlqs & Hqs).
  cbn [fst snd] in Hlps, Hps, Hlqs, Hqs.
  fold base n rest na in Hlps, Hps, Hlqs, Hqs.
  destruct Hb as [_ Hlb]. rewrite Hsb, piece_total in Hlb.
  fold base rest na in Hlb.
  assert (qs = zip_with F32.add ps xb) as Hqs'.
  { apply buffer_eq.
    - rewrite length_zip_with. lia.
    - intros i Hi. rewrite Hlqs in Hi.
      rewrite (N.mul_comm (na * rest)) in Hi.
      destruct (index_split i (base * len) (na * rest) Hi)
        as (r & j & Hr & Hj & ->).
      rewrite (N.mul_comm na rest) in Hr.
      destruct (index_split r rest na Hr) as (t & r' & Ht & Hr' & ->).
      unfold load at 2. rewrite lookup_zip_with.
      fold (load ps ((t * rest + r') * (base * len) + j)).
      fold (load xb ((t * rest + r') * (base * len) + j)).
      rewrite Hqs, Hps by (done || nia).
      destruct (load_lt xa (base * offset + (t * rest + r') * (base * n) + j))
        as [x Hx].
      { destruct Ha as [_ Hla]. rewrite Hla, (total_rows a dim).
        fold base n rest na.
        assert (base * offset + base * len <= base * n) by nia.
        assert ((t * rest + r') * (base * n) + base * n
                <= na * rest * (base * n)) by nia.
        lia. }
      destruct (load_lt xb ((t * rest + r') * (base * len) + j)) as [y Hy].
      { rewrite Hlb.
        assert ((t * rest + r') * (base * len) + base * len
                <= na * rest * (base * len)) by nia.
        lia. }
      rewrite Hx, Hy. cbn.
      replace (base * offset + (t * rest + r') * (base * n) + j)
        with (t * (rest * (base * n)) + (base * offset + r' * (base * n) + j))
        in * by lia.
      assert (load xb (sample (shape_ b) t * (rest * (base * len))
                       + (r' * (base * len) + j)) = Some y) as Hy'.
      { rewrite <- Hy. f_equal. unfold sample. rewrite Hnb.
        destruct (N.eqb_spec na 1); [nia | lia]. }
      exact (Hsum t r' j x y Ht Hr' Hj Hx Hy'). }
  exists (written σ a ya), ps. split; [done |]. rewrite Hsb. split.
  - eapply computes_allocated; [done | done | done | done |].
    rewrite piece_total. fold base rest na. lia.
  - rewrite <- Hqs'. eapply computes_allocated; [done | done | done | done |].
    rewrite piece_total. fold base rest na. lia.
Qed.

(** ** Slices on their own *)

(** X21.  [slice_impl] returns a tensor of the requested shape in a new
    block.  With the operand seen as rows of [skip] elements, the result
    has as many rows of [span] elements, and row [r] of the result is the
    part of row [r] of the operand that starts at column [base * offset].
    The operand is left as it was.  The slice of the whole extent of the
    axis has the values of the operand. *)
Theorem slice_elements {Rng : Type}
    (malloc : Heap -> N -> option (ptr * list float))
    (malloc_ok : malloc_spec malloc) (this : ptr)
    (σ : Process Rng) (x : Tensor) (xs : list float) (dim offset len : N)
    (p : ptr) (c : list float) :
  let base := num_elements_under_rank (shape_ x) dim in
  let n := shape_at (shape_ x) dim in
  let rows := batch_size (shape_ x) * num_elements_over_rank (shape_ x) dim in
  let span := base * len in
  let skip := base * n in
  let s := resize_dim (shape_ x) dim len in
  holds σ x xs -> valid_shape (shape_ x) -> fits (shape_ x) ->
  1 <= len -> offset + len <= n ->
  malloc (heap σ) (mem_size_of s) = Some (p, c) ->
  ∃ ys,
    computes σ (slice_impl malloc this x dim offset s) s ys
    ∧ N.of_nat (length ys) = rows * span
    ∧ (∀ r j, r < rows -> j < span ->
         load ys (r * span + j) = load xs (base * offset + r * skip + j))
    ∧ (len = n -> ys = xs).
Proof.
  intros base n rows span skip s Hx Hvalid Hfit Hlen Hoff Hm.
  assert (fits s) as Hfits by (apply piece_fits; [done | fold n; lia]).
  destruct (slice_impl_returns malloc this malloc_ok x xs dim Hvalid Hfit
              σ offset len p c Hx Hlen Hoff Hm)
    as (ys & Hrun & Hp & _ & _ & Hlys & Hys).
  cbn [fst snd] in Hlys, Hys. fold base n rows span skip s in Hrun, Hlys, Hys.
  exists ys. split; [| split; [done | split; [done |]]].
  - eapply computes_allocated; [done | done | done | done |].
    unfold s. rewrite piece_total. by fold base rows span.
  - intros ->. assert (offset = 0) as -> by lia.
    destruct Hx as [_ Hlx]. rewrite (total_rows x dim) in Hlx.
    fold base n rows in Hlx. fold skip in Hlx.
    assert (span = skip) as Hspan by done. rewrite Hspan in *.
    apply buffer_eq; [lia |]. intros i Hi. rewrite Hlys in Hi.
    rewrite (N.mul_comm rows skip) in Hi.
    destruct (index_split i skip rows Hi) as (r & j & Hr & Hj & ->).
    rewrite Hys by done. f_equal. lia.
Qed.

(** ** The generator of the device *)

Lemma draws_app {A Rng : Type} (dist : Rng -> A * Rng) n1 n2 : ∀ g,
  draws dist (n1 + n2) g
  = ((draws dist n1 g).1 ++ (draws dist n2 (draws dist n1 g).2).1,
     (draws dist n2 (draws dist n1 g).2).2).
Proof.
  induction n1 as [| n1 IH]; intros g; cbn.
  - by destruct (draws dist n2 g).
  - destruct (dist g) as [x g1]. rewrite IH.
    destruct (draws dist n1 g1) as [xs g2]. cbn.
    by destruct (draws dist n2 g2).
Qed.

(** X22.  The random kernels draw from the generator of the device one
    value for each element and leave it advanced: two calls one after the
    other store, in order, the draws that a single run of the generator
    gives, and the generator they leave is the one after that many
    draws. *)
Theorem random_kernels_continue_the_stream {Rng : Type}
    (malloc : Heap -> N -> option (ptr * list float))
    (malloc_ok : malloc_spec malloc)
    (malloc_total : ∀ h size, is_Some (malloc h size))
    (bernoulli_distribution : float -> Rng -> bool * Rng)
    (uniform_real_distribution : float -> float -> Rng -> float * Rng)
    (this : ptr) (σ : Process Rng) (s1 s2 : Shape)
    (prob lower upper : float) :
  let n1 := N.to_nat (num_total_elements s1) in
  let n2 := N.to_nat (num_total_elements s2) in
  let g := rng_ (dev σ) in
  fits s1 -> fits s2 ->
  (∃ r1 σ1 r2 σ2 ys1 ys2,
     random_bernoulli_impl malloc bernoulli_distribution this s1 prob σ
     = Returns r1 σ1
     ∧ random_bernoulli_impl malloc bernoulli_distribution this s2 prob σ1
       = Returns r2 σ2
     ∧ tensor_to_vector_impl r1 σ2 = Returns ys1 σ2
     ∧ tensor_to_vector_impl r2 σ2 = Returns ys2 σ2
     ∧ ys1 ++ ys2
       = F32.of_bool
           <$> (draws (bernoulli_distribution prob) (n1 + n2) g).1
     ∧ rng_ (dev σ2) = (draws (bernoulli_distribution prob) (n1 + n2) g).2)
  ∧ (∃ r1 σ1 r2 σ2 ys1 ys2,
       random_uniform_impl malloc uniform_real_distribution this s1
         lower upper σ = Returns r1 σ1
       ∧ random_uniform_impl malloc uniform_real_distribution this s2
           lower upper σ1 = Returns r2 σ2
       ∧ tensor_to_vector_impl r1 σ2 = Returns ys1 σ2
       ∧ tensor_to_vector_impl r2 σ2 = Returns ys2 σ2
       ∧ ys1 ++ ys2
         = uniform_elem lower upper
             <$> (draws (uniform_real_distribution lower upper)
                    (n1 + n2) g).1
       ∧ rng_ (dev σ2)
         = (draws (uniform_real_distribution lower upper) (n1 + n2) g).2).
Proof.
  intros n1 n2 g Hf1 Hf2.
  assert (∀ (A : Type) (dist : Rng -> A * Rng) (F : A -> float)
            (kernel : Shape -> M Rng Tensor),
            (∀ σ s p c,
               fits s -> malloc (heap σ) (mem_size_of s) = Some (p, c) ->
               kernel s σ
               = Returns (mkTensor s this p)
                   (drawn σ s p
                      (F <$> (draws dist (N.to_nat (num_total_elements s))
                                (rng_ (dev σ))).1)
                      (draws dist (N.to_nat (num_total_elements s))
                         (rng_ (dev σ))).2)) ->
            ∃ r1 σ1 r2 σ2 ys1 ys2,
              kernel s1 σ = Returns r1 σ1
              ∧ kernel s2 σ1 = Returns r2 σ2
              ∧ tensor_to_vector_impl r1 σ2 = Returns ys1 σ2
              ∧ tensor_to_vector_impl r2 σ2 = Returns ys2 σ2
              ∧ ys1 ++ ys2 = F <$> (draws dist (n1 + n2) g).1
              ∧ rng_ (dev σ2) = (draws dist (n1 + n2) g).2) as Hgen.
  { intros A dist F kernel Hkernel.
    destruct (malloc_total (heap σ) (mem_size_of s1)) as [[p1 c1] Hm1].
    pose proof (Hkernel σ s1 p1 c1 Hf1 Hm1) as Hrun1.
    fold n1 g in Hrun1.
    set (d1 := draws dist n1 g) in *.
    set (σ1 := drawn σ s1 p1 (F <$> d1.1) d1.2) in *.
    destruct (malloc_total (heap σ1) (mem_size_of s2)) as [[p2 c2] Hm2].
    pose proof (Hkernel σ1 s2 p2 c2 Hf2 Hm2) as Hrun2.
    fold n2 in Hrun2. change (rng_ (dev σ1)) with d1.2 in Hrun2.
    set (d2 := draws dist n2 d1.2) in *.
    destruct (malloc_ok _ _ _ _ Hm2) as (_ & Hp2 & _).
    eexists _, _, _, _, (F <$> d1.1), (F <$> d2.1).
    split; [exact Hrun1 |]. split; [exact Hrun2 |]. split; [| split].
    - apply to_vector_holds; [| done]. split.
      + cbn. rewrite lookup_insert_ne; [apply lookup_insert_eq |].
        intros <-. cbn in Hp2. by rewrite lookup_insert_eq in Hp2.
      + cbn. unfold d1. rewrite length_fmap, draws_length. unfold n1. lia.
    - apply to_vector_holds; [| done]. split.
      + cbn. apply lookup_insert_eq.
      + cbn. unfold d2. rewrite length_fmap, draws_length. unfold n2. lia.
    - rewrite draws_app. fold d1 d2. cbn. by rewrite fmap_app. }
  split.
  - apply (Hgen bool (bernoulli_distribution prob) F32.of_bool
             (λ s, random_bernoulli_impl malloc bernoulli_distribution this
                     s prob)).
    intros σ0 s p c Hf Hm.
    by eapply (random_bernoulli_returns malloc this malloc_ok).
  - apply (Hgen float (uniform_real_distribution lower upper)
             (uniform_elem lower upper)
             (λ s, random_uniform_impl malloc uniform_real_distribution this
                     s lower upper)).
    intros σ0 s p c Hf Hm.
    by eapply (random_uniform_returns malloc this malloc_ok).
Qed.

(** ** Reading a tensor *)

(** X23.  [tensor_to_vector_impl] only reads: whenever it returns, the
    state is the one it was called in, the block of the tensor is live
    and holds at least as many floats as the shape has elements, and the
    vector holds the first of them, as many as the shape has elements. *)
Theorem tensor_to_vector_reads_only {Rng : Type} (σ σ' : Process Rng)
    (x : Tensor) (ys : list float) :
  let n := wrap32 (num_total_elements (shape_ x)) in
  tensor_to_vector_impl x σ = Returns ys σ' ->
  σ' = σ ∧ N.of_nat (length ys) = n
  ∧ ∃ block, heap σ !! data_ x = Some block
             ∧ n <= N.of_nat (length block)
             ∧ ys = take (N.to_nat n) block.
Proof.
  intros n. unfold tensor_to_vector_impl, CDATA, bind, get_heap, defined, ret.
  fold n. cbv beta iota.
  destruct (heap σ !! data_ x) as [block |] eqn:Hblock; cbv beta iota;
    [| done].
  destruct (N.leb_spec n (N.of_nat (length block))) as [Hle | Hlt]; [| done].
  intros [= <- <-]. split; [done |]. split.
  - rewrite length_take. lia.
  - by exists block.
Qed.

(** ** Results are handles to dispose of *)

Lemma allocated_leaves_result {Rng : Type}
    (malloc : Heap -> N -> option (ptr * list float))
    (malloc_ok : malloc_spec malloc) (this : ptr)
    (σ : Process Rng) (m : M Rng Tensor) (s : Shape) (p : ptr)
    (c ys : list float) :
  registry_live σ ->
  malloc (heap σ) (mem_size_of s) = Some (p, c) ->
  m σ = Returns (mkTensor s this p) (allocated σ s p ys) ->
  leaves_its_result σ m.
Proof.
  intros Hlive Hm Hrun.
  destruct (dispose_allocated malloc malloc_ok this σ s p c ys Hlive Hm)
    as (Hp & Hreg & Hdel).
  exists (mkTensor s this p), (allocated σ s p ys).
  split; [done |]. split; [done |]. split; [done |]. split; [done |].
  split; [| done].
  unfold CPUDevice_delete. rewrite Hreg. case_decide as Hempty; [| done].
  by apply insert_non_empty in Hempty.
Qed.

(** X24.  Every kernel that returns a tensor registers exactly one new
    handle, that of its result, and leaves the generator alone.  The
    result is owned by the caller: while it is not disposed of, destroying
    the device aborts with the leak report; disposing of it gives back
    the state before the kernel. *)
Theorem kernel_result_is_one_handle {Rng : Type}
    (malloc : Heap -> N -> option (ptr * list float))
    (malloc_ok : malloc_spec malloc) (this : ptr)
    (malloc_total : ∀ h size, is_Some (malloc h size))
    (σ : Process Rng) (x : Tensor) (xs : list float) :
  registry_live σ -> holds σ x xs ->
  valid_shape (shape_ x) -> fits (shape_ x) ->
  (∀ f, leaves_its_result σ (unary_impl malloc this f x))
  ∧ leaves_its_result σ (duplicate_impl malloc this x)
  ∧ (∀ op b xb,
       holds σ b xb -> valid_shape (shape_ b) -> fits (shape_ b) ->
       broadcast_compatible (shape_ x) (shape_ b) ->
       leaves_its_result σ (binary_impl malloc this op x b))
  ∧ (∀ dim offset len,
       1 <= len -> offset + len <= shape_at (shape_ x) dim ->
       leaves_its_result σ
         (slice_impl malloc this x dim offset
            (resize_dim (shape_ x) dim len))).
Proof.
  intros Hlive Hx Hvalid Hfit.
  destruct (malloc_total (heap σ) (mem_size_of (shape_ x))) as [[p c] Hm].
  repeat apply conj.
  - intros f.
    eapply (allocated_leaves_result malloc malloc_ok this); [done | done |].
    by eapply unary_impl_returns.
  - eapply (allocated_leaves_result malloc malloc_ok this); [done | done |].
    by eapply duplicate_impl_returns.
  - intros op b xb Hb Hvb Hfb Hcompat.
    pose proof (fits_broadcast _ _ Hcompat Hfit Hfb) as Hfits.
    destruct (malloc_total (heap σ)
                (mem_size_of
                   (resize_batch (shape_ x)
                      (N.max (batch_size (shape_ x)) (batch_size (shape_ b))))))
      as [[p1 c1] Hm1].
    destruct (binary_impl_returns malloc this malloc_ok op σ x b xs xb p1 c1
                Hx Hb Hvalid Hvb Hcompat Hfits Hm1) as (ys & Hrun & _).
    by eapply (allocated_leaves_result malloc malloc_ok this).
  - intros dim offset len Hlen Hoff.
    destruct (malloc_total (heap σ)
                (mem_size_of (resize_dim (shape_ x) dim len)))
      as [[p1 c1] Hm1].
    destruct (slice_impl_returns malloc this malloc_ok x xs dim Hvalid Hfit
                σ offset len p1 c1 Hx Hlen Hoff Hm1) as (ys & Hrun & _).
    by eapply (allocated_leaves_result malloc malloc_ok this).
Qed.

(** ** Summing over the batch, two ways *)

(** [add_gradient_impl] into a destination of batch size 1: the samples
    of the source are added into it one after the other. *)
Lemma add_gradient_into_single {Rng : Type} (σ : Process Rng)
    (a b : Tensor) (xa xb : list float) :
  let size := num_elements_per_sample (shape_ a) in
  let nb := batch_size (shape_ b) in
  holds σ a xa -> holds σ b xb -> data_ a ≠ data_ b ->
  batch_size (shape_ a) = 1 -> 1 <= nb ->
  num_elements_per_sample (shape_ b) = size ->
  fits (shape_ a) ->
  ∃ ya,
    add_gradient_impl a b σ = Returns tt (written σ a ya)
    ∧ length ya = length xa
    ∧ ∀ i, i < size ->
        ∃ x, load xa i = Some x
             ∧ load ya i
               = Some (fold_left F32.add (column xb size i nb) x).
Proof.
  intros size nb [Ha Hla] [Hb Hlb] Hne Hna Hnb Hsize Hfit.
  unfold fits, sizeof_float, num_total_elements in Hfit.
  unfold num_total_elements in Hla, Hlb.
  rewrite Hsize in Hlb. rewrite Hna in Hla, Hfit.
  fold size in Hla, Hfit. fold nb in Hlb.
  assert (size < 2 ^ 32) as Hsmall by lia.
  assert (∃ ya,
    add_gradient_kernel size (N.max 1 nb)
      (umul (b2u (1 <? 1)) size) (umul (b2u (1 <? nb)) size)
      (data_ a) (data_ b) (heap σ) = Some (<[data_ a := ya]> (heap σ))
    ∧ length ya = length xa
    ∧ ∀ i, i < size ->
        ∃ x, load xa i = Some x
             ∧ load ya i
               = Some (fold_left F32.add (column xb size i nb) x))
    as (ya & Hker & Hlen & Hya).
  { rewrite !skip_of_batch by done. change (1 =? 1) with true. cbn match.
    destruct (N.eqb_spec nb 1) as [Hnb1 | Hnb1].
    - rewrite Hnb1. change (N.max 1 1) with 1.
      rewrite (add_gradient_kernel_once size 0 0 size size).
      destruct (add_rows (heap σ) (data_ a) (data_ b) xa xb size 1 size)
        as (ya & Hker & Hlen & Hrows); [done | done | auto | lia | |].
      { intros k Hk. rewrite Hlb, Hnb1. nia. }
      exists ya. split; [done |]. split; [done |]. intros i Hi.
      destruct (Hrows 0 i) as (dv & sv & Hdv & Hsv & Hv); [lia | done |].
      rewrite N.mul_0_l, N.add_0_l in Hdv, Hsv, Hv.
      exists dv. split; [done |].
      replace 1 with (N.succ 0) by lia. rewrite column_succ.
      change (column xb size i 0) with (@nil float).
      cbn. rewrite N.add_0_l, Hsv. done.
    - destruct (N.eqb_spec nb 0); [lia |].
      replace (N.max 1 nb) with nb by lia.
      destruct (add_accumulate (heap σ) (data_ a) (data_ b) xa xb size nb)
        as (ya & Hker & Hlen & Hacc); [done | done | done | lia | lia |].
      exists ya. split; [done |]. split; [done |]. done. }
  exists ya. split; [| done].
  unfold add_gradient_impl, bind, get_heap, put_heap.
  rewrite wrap32_small by done. fold size. rewrite Hna. fold nb.
  cbn [defined]. rewrite Hker. reflexivity.
Qed.

(** X25.  [batch_sum_impl] and the broadcast of [add_gradient_impl] agree:
    the values of [batch_sum(x)] are those that a tensor of batch size 1
    holds after it was reset to 0 and [x] was added to it with
    [add_gradient_impl], the same additions in the same order.  The
    equality is one of values, NaN being a single value. *)
Theorem batch_sum_is_accumulated_gradient {Rng : Type}
    (malloc : Heap -> N -> option (ptr * list float))
    (malloc_ok : malloc_spec malloc) (this : ptr)
    (σ : Process Rng) (x a : Tensor) (xs xa : list float) (p : ptr)
    (c : list float) :
  holds σ x xs -> holds σ a xa -> data_ a ≠ data_ x ->
  valid_shape (shape_ x) -> fits (shape_ x) ->
  shape_ a = resize_batch (shape_ x) 1 ->
  malloc (heap σ) (mem_size_of (resize_batch (shape_ x) 1)) = Some (p, c) ->
  ∃ σ1 σ2 ys,
    reset_tensor_impl a F32.zero σ = Returns tt σ1
    ∧ add_gradient_impl a x σ1 = Returns tt σ2
    ∧ tensor_to_vector_impl a σ2 = Returns ys σ2
    ∧ computes σ (batch_sum_impl malloc this x) (resize_batch (shape_ x) 1) ys.
Proof.
  intros Hx Ha Hne Hvalid Hfit Hsa Hm.
  set (size := num_elements_per_sample (shape_ x)).
  assert (1 <= batch_size (shape_ x)) as Hnb by apply Hvalid.
  assert (num_total_elements (shape_ a) = size) as Htotal.
  { rewrite Hsa, total_resize_batch. fold size. lia. }
  assert (fits (shape_ a)) as Hfa.
  { unfold fits, sizeof_float in *. rewrite Htotal.
    unfold num_total_elements in Hfit. fold size in Hfit. nia. }
  destruct (batch_sum_impl_returns malloc malloc_ok this σ x xs p c
              Hx Hvalid Hfit Hm) as (ys & Hsum & Hlys & Hys).
  fold size in Hlys, Hys.
  set (zeros := replicate (N.to_nat (num_total_elements (shape_ a))) F32.zero).
  pose proof (reset_tensor_returns σ a xa F32.zero Ha (fits_lt _ Hfa))
    as Hreset. fold zeros in Hreset.
  assert (holds (written σ a zeros) a zeros) as Ha1.
  { split; [apply lookup_insert_eq |]. unfold zeros.
    rewrite length_replicate. lia. }
  assert (holds (written σ a zeros) x xs) as Hx1.
  { destruct Hx as [Hx Hlx]. split; [| done]. cbn.
    by rewrite lookup_insert_ne. }
  destruct (add_gradient_into_single (written σ a zeros) a x zeros xs)
    as (ya & Hadd & Hlen & Hya); try done.
  { by rewrite Hsa. }
  { by rewrite Hsa. }
  assert (num_elements_per_sample (shape_ a) = size) as Hpa by by rewrite Hsa.
  rewrite Hpa in Hya.
  assert (ya = ys) as ->.
  { apply buffer_eq.
    - rewrite Hlen. unfold zeros. rewrite length_replicate. lia.
    - intros i Hi. rewrite Hlen in Hi. unfold zeros in Hi.
      rewrite length_replicate, Htotal in Hi.
      destruct (Hya i) as (z & Hz & ->); [lia |].
      rewrite Hys by lia. do 2 f_equal.
      unfold zeros, load in Hz. apply lookup_replicate in Hz as [-> _].
      done. }
  eexists _, _, ys. split; [exact Hreset |]. split; [exact Hadd |].
  split; [| done].
  assert (written (written σ a zeros) a ys = written σ a ys) as ->.
  { unfold written. cbn. by rewrite insert_insert_eq. }
  apply to_vector_written; [by apply fits_lt | lia].
Qed.

(** ** Use after disposal *)

(** X26.  Once a tensor was disposed of, its block is gone: reading it
    with [tensor_to_vector_impl] or writing it with either
    [reset_tensor_impl] has no defined result. *)
Theorem use_after_delete_undefined {Rng : Type} (σ σ' : Process Rng)
    (x : Tensor) :
  delete_tensor_impl x σ = Returns tt σ' ->
  valid x = true ->
  tensor_to_vector_impl x σ' = Undefined
  ∧ (∀ k, reset_tensor_impl x k σ' = Undefined)
  ∧ (∀ values, reset_tensor_impl_values x values σ' = Undefined).
Proof.
  intros Hdel Hvalid.
  destruct (delete_tensor_returns_inv _ _ _ _ Hdel) as (_ & _ & Hheap).
  assert (heap σ' !! data_ x = None) as Hgone.
  { rewrite Hheap. unfold freed. unfold valid in Hvalid.
    apply negb_true_iff in Hvalid as ->. apply lookup_delete_eq. }
  assert (CDATA x σ' = Undefined) as Hdata.
  { unfold CDATA, bind, get_heap, defined. by rewrite Hgone. }
  split; [| split].
  - unfold tensor_to_vector_impl, bind. by rewrite Hdata.
  - intros k. unfold reset_tensor_impl, bind. by rewrite Hdata.
  - intros values. unfold reset_tensor_impl_values, bind. by rewrite Hdata.
Qed.

(** ** Shapes too large for their block *)

(** X27.  [new_handle] computes the size of the block in an [unsigned]:
    for a shape with 2^30 elements or more the size wraps around, the
    block that is requested is too small for the elements, and nothing
    reports it.  The tensor is returned as usual; reading it, resetting
    it, or filling it in a random kernel then runs past the end of the
    block and has no defined result. *)
Theorem oversized_shape_overruns_its_block {Rng : Type}
    (malloc : Heap -> N -> option (ptr * list float))
    (malloc_ok : malloc_spec malloc) (this : ptr)
    (σ : Process Rng) (s : Shape) (p : ptr) (c : list float) :
  2 ^ 30 <= num_total_elements s < 2 ^ 32 ->
  malloc (heap σ) (mem_size_of s) = Some (p, c) ->
  mem_size_of s < sizeof_float * num_total_elements s
  ∧ ∃ r σ',
      new_tensor malloc this s σ = Returns r σ'
      ∧ shape_ r = s
      ∧ tensor_to_vector_impl r σ' = Undefined
      ∧ (∀ k, reset_tensor_impl r k σ' = Undefined)
      ∧ (∀ dist prob,
           random_bernoulli_impl malloc dist this s prob σ = Undefined)
      ∧ (∀ dist lower upper,
           random_uniform_impl malloc dist this s lower upper σ = Undefined).
Proof.
  intros Hbig Hm.
  assert (mem_size_of s < 2 ^ 32) as Hwrap.
  { unfold mem_size_of, umul, wrap32. by apply N.mod_lt. }
  destruct (malloc_ok _ _ _ _ Hm) as (_ & _ & Hc).
  assert (N.of_nat (length c) < num_total_elements s) as Hshort.
  { rewrite Hc, N2Nat.id. unfold sizeof_float.
    assert (mem_size_of s / 4 < 2 ^ 30); [| lia].
    apply N.Div0.div_lt_upper_bound. lia. }
  split; [unfold sizeof_float; lia |].
  exists (mkTensor s this p), (allocated σ s p c).
  pose proof (new_tensor_returns malloc this σ s p c Hm) as Hnew.
  split; [done |]. split; [done |].
  assert (wrap32 (num_total_elements s) = num_total_elements s) as Htotal
    by (apply wrap32_small; lia).
  split; [| split; [| split]].
  - unfold tensor_to_vector_impl, bind. cbn [shape_].
    rewrite CDATA_new, Htotal. by apply N.leb_gt in Hshort as ->.
  - intros k. unfold reset_tensor_impl, bind. cbn [shape_].
    rewrite CDATA_new, Htotal. by rewrite fill_kernel_overrun.
  - intros dist prob. unfold random_bernoulli_impl, bind.
    rewrite Hnew, CDATA_new, Htotal. cbn [get_rng]. unfold bernoulli_kernel.
    by rewrite (random_fill_overrun (dist prob) F32.of_bool).
  - intros dist lower upper. unfold random_uniform_impl, bind.
    rewrite Hnew, CDATA_new, Htotal. cbn [get_rng]. unfold uniform_kernel.
    by rewrite (random_fill_overrun (dist lower upper)
                  (uniform_elem lower upper)).
Qed.

(** ** A scalar operand and a constant tensor *)

Lemma resize_batch_same s : resize_batch s (batch_size s) = s.
Proof. by destruct s. Qed.

Section ScalarOperand.
Context {Rng : Type}.
Variable malloc : Heap -> N -> option (ptr * list float).
Variable this : ptr.
Hypothesis malloc_ok : malloc_spec malloc.
Hypothesis malloc_total : ∀ h size, is_Some (malloc h size).

Variables (σ : Process Rng) (x c : Tensor) (xs : list float) (k : float).
Let size := num_elements_per_sample (shape_ x).
Let n := batch_size (shape_ x).
Let ks := replicate (N.to_nat (num_total_elements (shape_ c))) k.
Hypothesis x_holds : holds σ x xs.
Hypothesis c_holds : holds σ c ks.
Hypothesis x_valid : valid_shape (shape_ x).
Hypothesis c_valid : valid_shape (shape_ c).
Hypothesis x_fits : fits (shape_ x).
Hypothesis same_dims : dims_ (shape_ c) = dims_ (shape_ x).
Hypothesis batch_ok :
  batch_size (shape_ c) = n ∨ batch_size (shape_ c) = 1.

Lemma constant_compatible : broadcast_compatible (shape_ x) (shape_ c).
Proof.
  split; [| fold n; lia]. intros i. symmetry. by apply shape_at_dims.
Qed.

Lemma constant_fits : fits (shape_ c).
Proof.
  pose proof x_fits as Hfit. unfold fits, num_total_elements in *.
  rewrite (per_sample_dims _ _ same_dims). fold size n in Hfit |- *.
  assert (1 <= n) by apply x_valid.
  destruct batch_ok as [-> | ->]; [done | nia].
Qed.

Lemma constant_load i v : load ks i = Some v -> v = k.
Proof. unfold ks, load. by intros [-> _]%lookup_replicate. Qed.

Lemma sample_full t : t < n -> sample (shape_ x) t = t.
Proof.
  intros Ht. unfold sample. fold n. destruct (N.eqb_spec n 1); lia.
Qed.

Lemma max_batch_l : N.max n (batch_size (shape_ c)) = n.
Proof. assert (1 <= n) by apply x_valid. destruct batch_ok; lia. Qed.

Lemma max_batch_r : N.max (batch_size (shape_ c)) n = n.
Proof. rewrite N.max_comm. apply max_batch_l. Qed.

Lemma scalar_on_the_right (op : float -> float -> float) :
  ∃ ys,
    computes σ (unary_impl malloc this (λ v, op v k) x) (shape_ x) ys
    ∧ computes σ (binary_impl malloc this op x c) (shape_ x) ys.
Proof.
  pose proof constant_compatible as Hcompat.
  pose proof constant_fits as Hfc.
  pose proof (fits_broadcast _ _ Hcompat x_fits Hfc) as Hfit.
  fold n in Hfit. rewrite max_batch_l in Hfit.
  unfold n in Hfit. rewrite resize_batch_same in Hfit.
  destruct (malloc_total (heap σ) (mem_size_of (shape_ x))) as [[p c0] Hm].
  exists ((λ v, op v k) <$> xs). split.
  { by eapply (unary_computes malloc this malloc_ok). }
  destruct (binary_impl_returns malloc this malloc_ok op σ x c xs ks p c0)
    as (zs & Hrun & Hlen & Hzs); try done.
  { fold n. rewrite max_batch_l. unfold n. by rewrite resize_batch_same. }
  { fold n. rewrite max_batch_l. unfold n. by rewrite resize_batch_same. }
  revert Hrun Hlen Hzs. fold size n. rewrite max_batch_l. unfold n at 1 2.
  rewrite resize_batch_same. intros Hrun Hlen Hzs.
  destruct x_holds as [_ Hlx]. unfold num_total_elements in Hlx.
  fold size n in Hlx.
  assert (zs = (λ v, op v k) <$> xs) as ->.
  { apply buffer_eq; [rewrite length_fmap; lia |]. intros j Hj.
    rewrite Hlen in Hj.
    destruct (index_split j size n Hj) as (t & i & Ht & Hi & ->).
    destruct (Hzs t i Ht Hi) as (va & vb & Hva & Hvb & ->).
    rewrite sample_full in Hva by done.
    rewrite load_fmap, Hva. cbn. by rewrite (constant_load _ _ Hvb). }
  eapply computes_allocated; [done | done | done | done |].
  rewrite length_fmap. apply x_holds.
Qed.

Lemma scalar_on_the_left (op : float -> float -> float) :
  ∃ ys,
    computes σ (unary_impl malloc this (λ v, op k v) x) (shape_ x) ys
    ∧ computes σ (binary_impl malloc this op c x)
        (resize_batch (shape_ c) n) ys.
Proof.
  pose proof (compatible_sym _ _ constant_compatible) as Hcompat.
  pose proof constant_fits as Hfc.
  pose proof (fits_broadcast _ _ Hcompat Hfc x_fits) as Hfit.
  fold n in Hfit. rewrite max_batch_r in Hfit.
  assert (mem_size_of (resize_batch (shape_ c) n) = mem_size_of (shape_ x))
    as Hmem.
  { apply mem_size_of_total. rewrite total_resize_batch.
    by rewrite (per_sample_dims _ _ same_dims). }
  destruct (malloc_total (heap σ) (mem_size_of (shape_ x))) as [[p c0] Hm].
  exists ((λ v, op k v) <$> xs). split.
  { by eapply (unary_computes malloc this malloc_ok). }
  destruct (binary_impl_returns malloc this malloc_ok op σ c x ks xs p c0)
    as (zs & Hrun & Hlen & Hzs); try done.
  { fold n. by rewrite max_batch_r. }
  { fold n. by rewrite max_batch_r, Hmem. }
  revert Hrun Hlen Hzs. rewrite (per_sample_dims _ _ same_dims).
  fold size n. rewrite max_batch_r. intros Hrun Hlen Hzs.
  destruct x_holds as [_ Hlx]. unfold num_total_elements in Hlx.
  fold size n in Hlx.
  assert (zs = (λ v, op k v) <$> xs) as ->.
  { apply buffer_eq; [rewrite length_fmap; lia |]. intros j Hj.
    rewrite Hlen in Hj.
    destruct (index_split j size n Hj) as (t & i & Ht & Hi & ->).
    destruct (Hzs t i Ht Hi) as (va & vb & Hva & Hvb & ->).
    rewrite sample_full in Hvb by done.
    rewrite load_fmap, Hvb. cbn. by rewrite (constant_load _ _ Hva). }
  eapply computes_allocated; [done | done | by rewrite Hmem | done |].
  rewrite length_fmap, total_resize_batch.
  rewrite (per_sample_dims _ _ same_dims). apply x_holds.
Qed.
End ScalarOperand.

(** X28.  A kernel with a scalar operand returns what the kernel on two
    tensors returns when the scalar is replaced by a tensor filled with
    it: after [reset_tensor_impl(c, k)] on a tensor [c] with the extents
    of [x] and the batch size of [x] or 1, [x + k], [x - k], [x * k] and
    [x / k] have the values of [x + c], [x - c], [x * c] and [x / c], and
    [k - x] and [k / x] those of [c - x] and [c / x].  The equality is
    one of values, NaN being a single value. *)
Theorem scalar_operand_is_constant_tensor {Rng : Type}
    (malloc : Heap -> N -> option (ptr * list float))
    (malloc_ok : malloc_spec malloc) (this : ptr)
    (malloc_total : ∀ h size, is_Some (malloc h size))
    (σ : Process Rng) (x c : Tensor) (xs xc : list float) (k : float) :
  let s' := resize_batch (shape_ c) (batch_size (shape_ x)) in
  holds σ x xs -> holds σ c xc -> data_ c ≠ data_ x ->
  valid_shape (shape_ x) -> valid_shape (shape_ c) -> fits (shape_ x) ->
  dims_ (shape_ c) = dims_ (shape_ x) ->
  batch_size (shape_ c) = batch_size (shape_ x) ∨ batch_size (shape_ c) = 1 ->
  ∃ σ1,
    reset_tensor_impl c k σ = Returns tt σ1
    ∧ (∃ ys, computes σ1 (λ σ, add_impl_xk malloc this x k σ) (shape_ x) ys
             ∧ computes σ1 (add_impl malloc this x c) (shape_ x) ys)
    ∧ (∃ ys, computes σ1 (λ σ, subtract_impl_xk malloc this x k σ)
               (shape_ x) ys
             ∧ computes σ1 (subtract_impl malloc this x c) (shape_ x) ys)
    ∧ (∃ ys, computes σ1 (λ σ, multiply_impl_xk malloc this x k σ)
               (shape_ x) ys
             ∧ computes σ1 (multiply_impl malloc this x c) (shape_ x) ys)
    ∧ (∃ ys, computes σ1 (λ σ, divide_impl_xk malloc this x k σ)
               (shape_ x) ys
             ∧ computes σ1 (divide_impl malloc this x c) (shape_ x) ys)
    ∧ (∃ ys, computes σ1 (λ σ, subtract_impl_kx malloc this k x σ)
               (shape_ x) ys
             ∧ computes σ1 (subtract_impl malloc this c x) s' ys)
    ∧ (∃ ys, computes σ1 (λ σ, divide_impl_kx malloc this k x σ)
               (shape_ x) ys
             ∧ computes σ1 (divide_impl malloc this c x) s' ys).
Proof.
  intros s' Hx Hc Hne Hvx Hvc Hfx Hdims Hbatch.
  set (ks := replicate (N.to_nat (num_total_elements (shape_ c))) k).
  assert (fits (shape_ c)) as Hfc.
  { unfold fits, num_total_elements in *.
    rewrite (per_sample_dims _ _ Hdims).
    assert (1 <= batch_size (shape_ x)) by apply Hvx.
    destruct Hbatch as [-> | ->]; [done | nia]. }
  pose proof (reset_tensor_returns σ c xc k Hc (fits_lt _ Hfc)) as Hreset.
  fold ks in Hreset.
  assert (holds (written σ c ks) c ks) as Hc1.
  { split; [apply lookup_insert_eq |]. unfold ks.
    rewrite length_replicate. lia. }
  assert (holds (written σ c ks) x xs) as Hx1.
  { destruct Hx as [Hx Hlx]. split; [| done]. cbn.
    by rewrite lookup_insert_ne. }
  exists (written σ c ks). split; [done |].
  pose proof (scalar_on_the_right malloc this malloc_ok malloc_total
                (written σ c ks) x c xs k Hx1 Hc1 Hvx Hvc Hfx Hdims Hbatch)
    as Hright.
  pose proof (scalar_on_the_left malloc this malloc_ok malloc_total
                (written σ c ks) x c xs k Hx1 Hc1 Hvx Hvc Hfx Hdims Hbatch)
    as Hleft.
  split; [exact (Hright F32.add) |]. split; [exact (Hright F32.sub) |].
  split; [exact (Hright F32.mul) |]. split; [exact (Hright F32.div) |].
  split; [exact (Hleft F32.sub) | exact (Hleft F32.div)].
Qed.

(** ** The further properties at concrete inputs *)

Lemma fresh_process_live : registry_live fresh_process.
Proof. intros p. cbn. rewrite lookup_empty. by intros [? ?]. Qed.

Lemma new_tensor_then_delete_witness :
  ∃ r σ',
    new_tensor bump_malloc 7 (mkShape [2; 2] 1) fresh_process = Returns r σ'
    ∧ valid r = true
    ∧ shape_ r = mkShape [2; 2] 1 ∧ device_ r = 7
    ∧ blocks_ (dev σ') !! data_ r = Some (mem_size_of (mkShape [2; 2] 1))
    ∧ delete_tensor_impl r σ' = Returns tt fresh_process.
Proof.
  eapply (new_tensor_then_delete_restores bump_malloc bump_malloc_spec 7
            fresh_process (mkShape [2; 2] 1)).
  - exact fresh_process_live.
  - reflexivity.
Defined.

Lemma delete_tensor_twice_witness :
  delete_tensor_impl (tensor_at 1 [3] 1) process_signs
  = Returns tt fresh_process
  ∧ delete_tensor_impl (tensor_at 1 [3] 1) fresh_process
    = Throws (mkError [Text "Attempted to dispose unknown memory block: ";
                       Addr 1]) fresh_process.
Proof.
  assert (delete_tensor_impl (tensor_at 1 [3] 1) process_signs
          = Returns tt fresh_process) as Hdel by (vm_compute; reflexivity).
  split; [exact Hdel |].
  exact (delete_tensor_twice_throws process_signs fresh_process
           (tensor_at 1 [3] 1) Hdel).
Defined.

Lemma allocation_failure_witness :
  (∀ x f, shape_ x = mkShape [3] 1 ->
     unary_impl no_memory 7 f x process_signs
     = Throws (out_of_memory (mkShape [3] 1)) process_signs)
  ∧ (∀ x, shape_ x = mkShape [3] 1 ->
       duplicate_impl no_memory 7 x process_signs
       = Throws (out_of_memory (mkShape [3] 1)) process_signs)
  ∧ (∀ a b op, valid_shape (shape_ a) -> valid_shape (shape_ b) ->
       resize_batch (shape_ a)
         (N.max (batch_size (shape_ a)) (batch_size (shape_ b)))
       = mkShape [3] 1 ->
       binary_impl no_memory 7 op a b process_signs
       = Throws (out_of_memory (mkShape [3] 1)) process_signs)
  ∧ (∀ a b, valid_shape (shape_ a) -> valid_shape (shape_ b) ->
       mkShape [shape_at (shape_ a) 0; shape_at (shape_ b) 1]
         (N.max (batch_size (shape_ a)) (batch_size (shape_ b)))
       = mkShape [3] 1 ->
       dot_impl no_memory 7 a b process_signs
       = Throws (out_of_memory (mkShape [3] 1)) process_signs)
  ∧ (∀ x, valid_shape (shape_ x) ->
       mkShape [shape_at (shape_ x) 1; shape_at (shape_ x) 0]
         (batch_size (shape_ x)) = mkShape [3] 1 ->
       transpose_impl no_memory 7 x process_signs
       = Throws (out_of_memory (mkShape [3] 1)) process_signs)
  ∧ (∀ x dim, valid_shape (shape_ x) ->
       resize_dim (shape_ x) dim 1 = mkShape [3] 1 ->
       sum_impl no_memory 7 x dim process_signs
       = Throws (out_of_memory (mkShape [3] 1)) process_signs)
  ∧ (∀ x, valid_shape (shape_ x) ->
       resize_batch (shape_ x) 1 = mkShape [3] 1 ->
       batch_sum_impl no_memory 7 x process_signs
       = Throws (out_of_memory (mkShape [3] 1)) process_signs)
  ∧ (∀ dist prob,
       random_bernoulli_impl no_memory dist 7 (mkShape [3] 1) prob
         process_signs
       = Throws (out_of_memory (mkShape [3] 1)) process_signs)
  ∧ (∀ dist lower upper,
       random_uniform_impl no_memory dist 7 (mkShape [3] 1) lower upper
         process_signs
       = Throws (out_of_memory (mkShape [3] 1)) process_signs).
Proof.
  apply (allocation_failure_throws no_memory 7 process_signs (mkShape [3] 1)).
  reflexivity.
Defined.

Ltac shape_ok :=
  split; [repeat (apply Forall_cons; split; [done |]); by apply Forall_nil
         | done].

Ltac block_ok := split; vm_compute; reflexivity.

Lemma set_values_roundtrip_witness :
  ∃ σ',
    reset_tensor_impl_values (tensor_at 1 [3] 1) (floats [4; 5; 6]%Z)
      process_signs = Returns tt σ'
    ∧ tensor_to_vector_impl (tensor_at 1 [3] 1) σ'
      = Returns (take (N.to_nat (num_total_elements (mkShape [3] 1)))
                   (floats [4; 5; 6]%Z)) σ'
    ∧ (N.of_nat (length (floats [4; 5; 6]%Z))
       = num_total_elements (mkShape [3] 1) ->
       tensor_to_vector_impl (tensor_at 1 [3] 1) σ'
       = Returns (floats [4; 5; 6]%Z) σ')
    ∧ dev σ' = dev process_signs
    ∧ ∀ q, q ≠ 1 -> heap σ' !! q = heap process_signs !! q.
Proof.
  apply (set_values_roundtrip process_signs (tensor_at 1 [3] 1)
           (floats [-1; 0; 2]%Z) (floats [4; 5; 6]%Z)).
  - block_ok.
  - shape_ok.
  - vm_compute. reflexivity.
  - vm_compute. discriminate.
Defined.

Lemma set_values_short_witness :
  reset_tensor_impl_values (tensor_at 1 [3] 1) (floats [4; 5]%Z) process_signs
  = Undefined.
Proof.
  apply (set_values_short_undefined process_signs (tensor_at 1 [3] 1)
           (floats [4; 5]%Z)).
  - vm_compute. reflexivity.
  - vm_compute. reflexivity.
Defined.

Lemma reset_fills_witness :
  ∃ σ',
    reset_tensor_impl (tensor_at 1 [3] 1) half process_signs = Returns tt σ'
    ∧ tensor_to_vector_impl (tensor_at 1 [3] 1) σ'
      = Returns (replicate (N.to_nat (num_total_elements (mkShape [3] 1)))
                   half) σ'
    ∧ dev σ' = dev process_signs
    ∧ ∀ q, q ≠ 1 -> heap σ' !! q = heap process_signs !! q.
Proof.
  apply (reset_fills process_signs (tensor_at 1 [3] 1) (floats [-1; 0; 2]%Z)
           half).
  - block_ok.
  - vm_compute. reflexivity.
Defined.

Lemma duplicate_witness :
  ∃ r σ',
    duplicate_impl bump_malloc 7 (tensor_at 1 [3] 1) process_signs
    = Returns r σ'
    ∧ shape_ r = mkShape [3] 1
    ∧ data_ r = 2 ∧ heap process_signs !! 2 = None
    ∧ tensor_to_vector_impl r σ' = Returns (floats [-1; 0; 2]%Z) σ'
    ∧ tensor_to_vector_impl (tensor_at 1 [3] 1) σ'
      = Returns (floats [-1; 0; 2]%Z) σ'
    ∧ (∀ k, ∃ σ'', reset_tensor_impl r k σ' = Returns tt σ''
                   ∧ tensor_to_vector_impl (tensor_at 1 [3] 1) σ''
                     = Returns (floats [-1; 0; 2]%Z) σ'')
    ∧ (∀ k, ∃ σ'', reset_tensor_impl (tensor_at 1 [3] 1) k σ' = Returns tt σ''
                   ∧ tensor_to_vector_impl r σ''
                     = Returns (floats [-1; 0; 2]%Z) σ'').
Proof.
  eapply (duplicate_is_independent_copy bump_malloc bump_malloc_spec 7
            process_signs (tensor_at 1 [3] 1)).
  - block_ok.
  - vm_compute. reflexivity.
  - reflexivity.
Defined.

Lemma scalar_kernels_witness :
  computes process_signs (negate_impl bump_malloc 7 (tensor_at 1 [3] 1))
    (mkShape [3] 1) (SFopp <$> floats [-1; 0; 2]%Z)
  ∧ computes process_signs
      (λ σ, add_impl_xk bump_malloc 7 (tensor_at 1 [3] 1) half σ)
      (mkShape [3] 1) ((λ v, F32.add v half) <$> floats [-1; 0; 2]%Z)
  ∧ computes process_signs
      (λ σ, subtract_impl_xk bump_malloc 7 (tensor_at 1 [3] 1) half σ)
      (mkShape [3] 1) ((λ v, F32.sub v half) <$> floats [-1; 0; 2]%Z)
  ∧ computes process_signs
      (λ σ, subtract_impl_kx bump_malloc 7 half (tensor_at 1 [3] 1) σ)
      (mkShape [3] 1) ((λ v, F32.sub half v) <$> floats [-1; 0; 2]%Z)
  ∧ computes process_signs
      (λ σ, multiply_impl_xk bump_malloc 7 (tensor_at 1 [3] 1) half σ)
      (mkShape [3] 1) ((λ v, F32.mul v half) <$> floats [-1; 0; 2]%Z)
  ∧ computes process_signs
      (λ σ, divide_impl_xk bump_malloc 7 (tensor_at 1 [3] 1) half σ)
      (mkShape [3] 1) ((λ v, F32.div v half) <$> floats [-1; 0; 2]%Z)
  ∧ computes process_signs
      (λ σ, divide_impl_kx bump_malloc 7 half (tensor_at 1 [3] 1) σ)
      (mkShape [3] 1) ((λ v, F32.div half v) <$> floats [-1; 0; 2]%Z).
Proof.
  eapply (scalar_kernels_elementwise bump_malloc bump_malloc_spec 7
            process_signs (tensor_at 1 [3] 1) (floats [-1; 0; 2]%Z) _ _ half).
  - block_ok.
  - vm_compute. reflexivity.
  - reflexivity.
Defined.

Lemma negate_involutive_witness :
  ∃ y σ1,
    negate_impl bump_malloc 7 (tensor_at 1 [3] 1) process_signs
    = Returns y σ1
    ∧ computes σ1 (negate_impl bump_malloc 7 y) (mkShape [3] 1)
        (floats [-1; 0; 2]%Z).
Proof.
  apply (negate_involutive bump_malloc bump_malloc_spec 7 bump_malloc_total
           process_signs (tensor_at 1 [3] 1) (floats [-1; 0; 2]%Z)).
  - block_ok.
  - vm_compute. reflexivity.
Defined.

Lemma relu_idempotent_witness :
  ∃ y σ1 ys zs,
    relu_impl bump_malloc 7 (tensor_at 1 [3] 1) process_signs = Returns y σ1
    ∧ tensor_to_vector_impl y σ1 = Returns ys σ1
    ∧ computes process_signs (step_impl bump_malloc 7 (tensor_at 1 [3] 1))
        (mkShape [3] 1) zs
    ∧ computes σ1 (relu_impl bump_malloc 7 y) (mkShape [3] 1) ys
    ∧ computes σ1 (step_impl bump_malloc 7 y) (mkShape [3] 1) zs.
Proof.
  apply (relu_idempotent_step_absorbs bump_malloc bump_malloc_spec 7
           bump_malloc_total process_signs (tensor_at 1 [3] 1)
           (floats [-1; 0; 2]%Z)).
  - block_ok.
  - vm_compute. reflexivity.
Defined.

Ltac compatible_ok side :=
  split; [| by side]; intros i; unfold shape_at; cbn;
  by destruct (N.to_nat i) as [| [| []]].

Lemma add_multiply_commute_witness :
  ∃ ys zs,
    computes process_batched
      (add_impl bump_malloc 7 (tensor_at 1 [2] 2) (tensor_at 2 [2] 1))
      (mkShape [2] 2) ys
    ∧ computes process_batched
        (add_impl bump_malloc 7 (tensor_at 2 [2] 1) (tensor_at 1 [2] 2))
        (mkShape [2] 2) ys
    ∧ computes process_batched
        (multiply_impl bump_malloc 7 (tensor_at 1 [2] 2) (tensor_at 2 [2] 1))
        (mkShape [2] 2) zs
    ∧ computes process_batched
        (multiply_impl bump_malloc 7 (tensor_at 2 [2] 1) (tensor_at 1 [2] 2))
        (mkShape [2] 2) zs.
Proof.
  eapply (add_multiply_commute bump_malloc bump_malloc_spec 7 process_batched
            (tensor_at 1 [2] 2) (tensor_at 2 [2] 1)).
  - block_ok.
  - block_ok.
  - shape_ok.
  - shape_ok.
  - compatible_ok ltac:(right; right).
  - vm_compute. reflexivity.
  - vm_compute. reflexivity.
  - reflexivity.
Defined.

Lemma subtract_is_add_negate_witness :
  ∃ y σ1 ys,
    negate_impl bump_malloc 7 (tensor_at 2 [2] 1) process_batched
    = Returns y σ1
    ∧ computes process_batched
        (subtract_impl bump_malloc 7 (tensor_at 1 [2] 2) (tensor_at 2 [2] 1))
        (mkShape [2] 2) ys
    ∧ computes σ1 (add_impl bump_malloc 7 (tensor_at 1 [2] 2) y)
        (mkShape [2] 2) ys.
Proof.
  eapply (subtract_is_add_negate bump_malloc bump_malloc_spec 7
            bump_malloc_total process_batched
            (tensor_at 1 [2] 2) (tensor_at 2 [2] 1)).
  - block_ok.
  - block_ok.
  - shape_ok.
  - shape_ok.
  - compatible_ok ltac:(right; right).
  - vm_compute. reflexivity.
  - vm_compute. reflexivity.
Defined.

Lemma batch_sum_witness :
  ∃ ys,
    computes process_2x3x2 (batch_sum_impl bump_malloc 7 (tensor_at 1 [2; 3] 2))
      (mkShape [2; 3] 1) ys
    ∧ N.of_nat (length ys) = 6
    ∧ ∀ i, i < 6 ->
        load ys i
        = Some (fold_left F32.add
                  (column (floats [1; 2; 3; 4; 5; 6; 7; 8; 9; 10; 11; 12]%Z)
                     6 i 2) F32.zero).
Proof.
  eapply (batch_sum_elements bump_malloc bump_malloc_spec 7 process_2x3x2
            (tensor_at 1 [2; 3] 2)).
  - block_ok.
  - shape_ok.
  - vm_compute. reflexivity.
  - reflexivity.
Defined.

Lemma sum_witness :
  ∃ ys,
    computes process_3x2 (sum_impl bump_malloc 7 (tensor_at 1 [3; 2] 1) 0)
      (mkShape [1; 2] 1) ys
    ∧ N.of_nat (length ys) = 2 * 1
    ∧ ∀ r j, r < 2 -> j < 1 ->
        load ys (r * 1 + j)
        = Some (fold_left F32.add
                  (column (floats [1; 2; 3; 4; 5; 6]%Z) 1 (r * (1 * 3) + j) 3)
                  F32.zero).
Proof.
  eapply (sum_elements bump_malloc bump_malloc_spec 7 process_3x2
            (tensor_at 1 [3; 2] 1) _ 0).
  - block_ok.
  - shape_ok.
  - vm_compute. reflexivity.
  - reflexivity.
Defined.

Lemma transpose_witness :
  ∃ ys,
    computes process_2x3x2 (transpose_impl bump_malloc 7 (tensor_at 1 [2; 3] 2))
      (mkShape [3; 2] 2) ys
    ∧ N.of_nat (length ys) = 2 * 3 * 2
    ∧ ∀ k i j, k < 2 -> i < 2 -> j < 3 ->
        load ys (k * (2 * 3) + (i * 3 + j))
        = load (floats [1; 2; 3; 4; 5; 6; 7; 8; 9; 10; 11; 12]%Z)
            (k * (2 * 3) + (j * 2 + i)).
Proof.
  eapply (transpose_elements bump_malloc bump_malloc_spec 7 process_2x3x2
            (tensor_at 1 [2; 3] 2)).
  - block_ok.
  - shape_ok.
  - vm_compute. reflexivity.
  - reflexivity.
  - reflexivity.
Defined.

Lemma transpose_involutive_witness :
  ∃ y σ1,
    transpose_impl bump_malloc 7 (tensor_at 1 [2; 3] 2) process_2x3x2
    = Returns y σ1
    ∧ shape_ y = mkShape [3; 2] 2
    ∧ computes σ1 (transpose_impl bump_malloc 7 y) (mkShape [2; 3] 2)
        (floats [1; 2; 3; 4; 5; 6; 7; 8; 9; 10; 11; 12]%Z)
    ∧ (dims_ (mkShape [2; 3] 2) = [2; 3] ->
       mkShape [2; 3] 2 = mkShape [2; 3] 2).
Proof.
  apply (transpose_involutive bump_malloc bump_malloc_spec 7 bump_malloc_total
           process_2x3x2 (tensor_at 1 [2; 3] 2)).
  - block_ok.
  - shape_ok.
  - vm_compute. reflexivity.
  - reflexivity.
Defined.

Lemma dot_elements_witness :
  ∃ ys,
    computes process_2x2
      (dot_impl bump_malloc 7 (tensor_at 1 [2; 2] 1) (tensor_at 2 [2; 2] 1))
      (mkShape [2; 2] 1) ys
    ∧ N.of_nat (length ys) = 2 * 2 * 1
    ∧ ∀ t i k, t < 1 -> i < 2 -> k < 2 ->
        load ys (t * (2 * 2) + (k * 2 + i))
        = Some (dot_element (floats [1; 2; 3; 4]%Z) (floats [5; 6; 7; 8]%Z)
                  (sample (mkShape [2; 2] 1) t * (2 * 2))
                  (sample (mkShape [2; 2] 1) t * (2 * 2)) 2 2 i k).
Proof.
  eapply (dot_elements bump_malloc bump_malloc_spec 7 process_2x2
            (tensor_at 1 [2; 2] 1) (tensor_at 2 [2; 2] 1)).
  - block_ok.
  - block_ok.
  - shape_ok.
  - shape_ok.
  - reflexivity.
  - reflexivity.
  - by left.
  - vm_compute. reflexivity.
  - vm_compute. reflexivity.
  - vm_compute. reflexivity.
  - reflexivity.
Defined.

Lemma dot_of_transposes_witness :
  ∃ bt σ1 at' σ2 d σ3 ys,
    transpose_impl bump_malloc 7 (tensor_at 2 [2; 2] 1) process_2x2
    = Returns bt σ1
    ∧ transpose_impl bump_malloc 7 (tensor_at 1 [2; 2] 1) σ1
      = Returns at' σ2
    ∧ dot_impl bump_malloc 7 (tensor_at 1 [2; 2] 1) (tensor_at 2 [2; 2] 1)
        process_2x2 = Returns d σ3
    ∧ computes σ2 (dot_impl bump_malloc 7 bt at') (mkShape [2; 2] 1) ys
    ∧ computes σ3 (transpose_impl bump_malloc 7 d) (mkShape [2; 2] 1) ys.
Proof.
  apply (dot_of_transposes bump_malloc bump_malloc_spec 7 bump_malloc_total
           process_2x2 (tensor_at 1 [2; 2] 1) (tensor_at 2 [2; 2] 1)
           (floats [1; 2; 3; 4]%Z) (floats [5; 6; 7; 8]%Z)).
  - block_ok.
  - block_ok.
  - shape_ok.
  - shape_ok.
  - reflexivity.
  - reflexivity.
  - reflexivity.
  - by left.
  - vm_compute. reflexivity.
  - vm_compute. reflexivity.
  - vm_compute. reflexivity.
Defined.

Lemma add_gradient_offset_witness :
  ∃ ya σ',
    add_gradient_offset_impl (tensor_at 1 [2; 3] 2) (tensor_at 2 [2; 2] 2)
      1 1 process_slice = Returns tt σ'
    ∧ σ' = written process_slice (tensor_at 1 [2; 3] 2) ya
    ∧ holds σ' (tensor_at 1 [2; 3] 2) ya
    ∧ holds σ' (tensor_at 2 [2; 2] 2)
        (floats [10; 20; 30; 40; 50; 60; 70; 80]%Z)
    ∧ (∀ idx,
         (∀ t r j, t < 2 -> r < 1 -> j < 2 * 2 ->
            idx ≠ t * (1 * (2 * 3)) + (2 * 1 + r * (2 * 3) + j)) ->
         load ya idx
         = load (floats [1; 2; 3; 4; 5; 6; 7; 8; 9; 10; 11; 12]%Z) idx)
    ∧ ((2 : N) = 2 ∨ (2 : N) = 1 ->
       ∀ t r j x y, t < 2 -> r < 1 -> j < 2 * 2 ->
         load (floats [1; 2; 3; 4; 5; 6; 7; 8; 9; 10; 11; 12]%Z)
           (t * (1 * (2 * 3)) + (2 * 1 + r * (2 * 3) + j)) = Some x ->
         load (floats [10; 20; 30; 40; 50; 60; 70; 80]%Z)
           (sample (mkShape [2; 2] 2) t * (1 * (2 * 2)) + (r * (2 * 2) + j))
         = Some y ->
         load ya (t * (1 * (2 * 3)) + (2 * 1 + r * (2 * 3) + j))
         = Some (F32.add x y))
    ∧ ((2 : N) = 1 ->
       ∀ r j x, r < 1 -> j < 2 * 2 ->
         load (floats [1; 2; 3; 4; 5; 6; 7; 8; 9; 10; 11; 12]%Z)
           (2 * 1 + r * (2 * 3) + j) = Some x ->
         load ya (2 * 1 + r * (2 * 3) + j)
         = Some (fold_left F32.add
                   (column (floats [10; 20; 30; 40; 50; 60; 70; 80]%Z)
                      (1 * (2 * 2)) (r * (2 * 2) + j) 2) x)).
Proof.
  apply (add_gradient_offset_into_slice process_slice (tensor_at 1 [2; 3] 2)
           (tensor_at 2 [2; 2] 2)
           (floats [1; 2; 3; 4; 5; 6; 7; 8; 9; 10; 11; 12]%Z)
           (floats [10; 20; 30; 40; 50; 60; 70; 80]%Z) 1 1 2).
  - block_ok.
  - block_ok.
  - discriminate.
  - shape_ok.
  - vm_compute. reflexivity.
  - reflexivity.
  - vm_compute. discriminate.
  - vm_compute. discriminate.
  - vm_compute. discriminate.
  - by left.
Defined.

Lemma slice_of_add_gradient_offset_witness :
  ∃ σ' ps,
    add_gradient_offset_impl (tensor_at 1 [2; 3] 2) (tensor_at 2 [2; 2] 2)
      1 1 process_slice = Returns tt σ'
    ∧ computes process_slice
        (slice_impl bump_malloc 7 (tensor_at 1 [2; 3] 2) 1 1 (mkShape [2; 2] 2))
        (mkShape [2; 2] 2) ps
    ∧ computes σ'
        (slice_impl bump_malloc 7 (tensor_at 1 [2; 3] 2) 1 1 (mkShape [2; 2] 2))
        (mkShape [2; 2] 2)
        (zip_with F32.add ps (floats [10; 20; 30; 40; 50; 60; 70; 80]%Z)).
Proof.
  apply (slice_of_add_gradient_offset bump_malloc bump_malloc_spec 7
           bump_malloc_total process_slice (tensor_at 1 [2; 3] 2)
           (tensor_at 2 [2; 2] 2)
           (floats [1; 2; 3; 4; 5; 6; 7; 8; 9; 10; 11; 12]%Z)
           (floats [10; 20; 30; 40; 50; 60; 70; 80]%Z) 1 1 2).
  - block_ok.
  - block_ok.
  - discriminate.
  - shape_ok.
  - vm_compute. reflexivity.
  - reflexivity.
  - vm_compute. discriminate.
  - vm_compute. discriminate.
Defined.

Lemma slice_elements_witness :
  ∃ ys,
    computes process_2x3x2
      (slice_impl bump_malloc 7 (tensor_at 1 [2; 3] 2) 1 1 (mkShape [2; 2] 2))
      (mkShape [2; 2] 2) ys
    ∧ N.of_nat (length ys) = 2 * 1 * (2 * 2)
    ∧ (∀ r j, r < 2 * 1 -> j < 2 * 2 ->
         load ys (r * (2 * 2) + j)
         = load (floats [1; 2; 3; 4; 5; 6; 7; 8; 9; 10; 11; 12]%Z)
             (2 * 1 + r * (2 * 3) + j))
    ∧ ((2 : N) = 3 ->
       ys = floats [1; 2; 3; 4; 5; 6; 7; 8; 9; 10; 11; 12]%Z).
Proof.
  eapply (slice_elements bump_malloc bump_malloc_spec 7 process_2x3x2
            (tensor_at 1 [2; 3] 2) _ 1 1 2).
  - block_ok.
  - shape_ok.
  - vm_compute. reflexivity.
  - vm_compute. discriminate.
  - vm_compute. discriminate.
  - reflexivity.
Defined.

Lemma random_stream_witness :
  (∃ r1 σ1 r2 σ2 ys1 ys2,
     random_bernoulli_impl bump_malloc coin 7 (mkShape [3] 1) half
       fresh_process = Returns r1 σ1
     ∧ random_bernoulli_impl bump_malloc coin 7 (mkShape [2] 1) half σ1
       = Returns r2 σ2
     ∧ tensor_to_vector_impl r1 σ2 = Returns ys1 σ2
     ∧ tensor_to_vector_impl r2 σ2 = Returns ys2 σ2
     ∧ ys1 ++ ys2 = F32.of_bool <$> (draws (coin half) (3 + 2) 0).1
     ∧ rng_ (dev σ2) = (draws (coin half) (3 + 2) 0).2)
  ∧ (∃ r1 σ1 r2 σ2 ys1 ys2,
       random_uniform_impl bump_malloc ends 7 (mkShape [3] 1)
         F32.zero F32.one fresh_process = Returns r1 σ1
       ∧ random_uniform_impl bump_malloc ends 7 (mkShape [2] 1)
           F32.zero F32.one σ1 = Returns r2 σ2
       ∧ tensor_to_vector_impl r1 σ2 = Returns ys1 σ2
       ∧ tensor_to_vector_impl r2 σ2 = Returns ys2 σ2
       ∧ ys1 ++ ys2
         = uniform_elem F32.zero F32.one
             <$> (draws (ends F32.zero F32.one) (3 + 2) 0).1
       ∧ rng_ (dev σ2) = (draws (ends F32.zero F32.one) (3 + 2) 0).2).
Proof.
  apply (random_kernels_continue_the_stream bump_malloc bump_malloc_spec
           bump_malloc_total coin ends 7 fresh_process
           (mkShape [3] 1) (mkShape [2] 1) half F32.zero F32.one).
  - vm_compute. reflexivity.
  - vm_compute. reflexivity.
Defined.

Lemma tensor_to_vector_reads_only_witness :
  tensor_to_vector_impl (tensor_at 1 [3] 1) process_signs
  = Returns (floats [-1; 0; 2]%Z) process_signs
  ∧ N.of_nat (length (floats [-1; 0; 2]%Z)) = 3
  ∧ ∃ block, heap process_signs !! 1 = Some block
             ∧ 3 <= N.of_nat (length block)
             ∧ floats [-1; 0; 2]%Z = take 3 block.
Proof.
  assert (tensor_to_vector_impl (tensor_at 1 [3] 1) process_signs
          = Returns (floats [-1; 0; 2]%Z) process_signs) as Hrun
    by (vm_compute; reflexivity).
  split; [exact Hrun |].
  exact (proj2 (tensor_to_vector_reads_only process_signs process_signs
                  (tensor_at 1 [3] 1) (floats [-1; 0; 2]%Z) Hrun)).
Defined.

Lemma with_tensor_live (σ : Process N) x xs :
  registry_live σ -> registry_live (with_tensor σ x xs).
Proof.
  intros Hlive q Hq. cbn in *.
  apply lookup_insert_is_Some' in Hq as [-> | Hq];
    apply lookup_insert_is_Some'; [by left | right; by apply Hlive].
Qed.

Lemma kernel_result_witness :
  (∀ f, leaves_its_result process_batched
          (unary_impl bump_malloc 7 f (tensor_at 1 [2] 2)))
  ∧ leaves_its_result process_batched
      (duplicate_impl bump_malloc 7 (tensor_at 1 [2] 2))
  ∧ (∀ op b xb,
       holds process_batched b xb -> valid_shape (shape_ b) ->
       fits (shape_ b) ->
       broadcast_compatible (mkShape [2] 2) (shape_ b) ->
       leaves_its_result process_batched
         (binary_impl bump_malloc 7 op (tensor_at 1 [2] 2) b))
  ∧ (∀ dim offset len,
       1 <= len -> offset + len <= shape_at (mkShape [2] 2) dim ->
       leaves_its_result process_batched
         (slice_impl bump_malloc 7 (tensor_at 1 [2] 2) dim offset
            (resize_dim (mkShape [2] 2) dim len))).
Proof.
  apply (kernel_result_is_one_handle bump_malloc bump_malloc_spec 7
           bump_malloc_total process_batched (tensor_at 1 [2] 2)
           (floats [1; 2; 3; 4]%Z)).
  - repeat apply with_tensor_live. exact fresh_process_live.
  - block_ok.
  - shape_ok.
  - vm_compute. reflexivity.
Defined.

Lemma batch_sum_accumulated_witness :
  ∃ σ1 σ2 ys,
    reset_tensor_impl (tensor_at 2 [2] 1) F32.zero process_batched
    = Returns tt σ1
    ∧ add_gradient_impl (tensor_at 2 [2] 1) (tensor_at 1 [2] 2) σ1
      = Returns tt σ2
    ∧ tensor_to_vector_impl (tensor_at 2 [2] 1) σ2 = Returns ys σ2
    ∧ computes process_batched
        (batch_sum_impl bump_malloc 7 (tensor_at 1 [2] 2)) (mkShape [2] 1) ys.
Proof.
  eapply (batch_sum_is_accumulated_gradient bump_malloc bump_malloc_spec 7
            process_batched (tensor_at 1 [2] 2) (tensor_at 2 [2] 1)).
  - block_ok.
  - block_ok.
  - discriminate.
  - shape_ok.
  - vm_compute. reflexivity.
  - reflexivity.
  - reflexivity.
Defined.

Lemma use_after_delete_witness :
  tensor_to_vector_impl (tensor_at 1 [3] 1) fresh_process = Undefined
  ∧ (∀ k, reset_tensor_impl (tensor_at 1 [3] 1) k fresh_process = Undefined)
  ∧ (∀ values,
       reset_tensor_impl_values (tensor_at 1 [3] 1) values fresh_process
       = Undefined).
Proof.
  apply (use_after_delete_undefined process_signs fresh_process
           (tensor_at 1 [3] 1)).
  - vm_compute. reflexivity.
  - reflexivity.
Defined.

Lemma oversized_shape_witness :
  mem_size_of (mkShape [1073741824] 1)
  < sizeof_float * num_total_elements (mkShape [1073741824] 1)
  ∧ ∃ r σ',
      new_tensor bump_malloc 7 (mkShape [1073741824] 1) fresh_process
      = Returns r σ'
      ∧ shape_ r = mkShape [1073741824] 1
      ∧ tensor_to_vector_impl r σ' = Undefined
      ∧ (∀ k, reset_tensor_impl r k σ' = Undefined)
      ∧ (∀ dist prob,
           random_bernoulli_impl bump_malloc dist 7 (mkShape [1073741824] 1)
             prob fresh_process = Undefined)
      ∧ (∀ dist lower upper,
           random_uniform_impl bump_malloc dist 7 (mkShape [1073741824] 1)
             lower upper fresh_process = Undefined).
Proof.
  eapply (oversized_shape_overruns_its_block bump_malloc bump_malloc_spec 7
            fresh_process (mkShape [1073741824] 1)).
  - split; [vm_compute; discriminate | vm_compute; reflexivity].
  - reflexivity.
Defined.

Lemma scalar_operand_witness :
  ∃ σ1,
    reset_tensor_impl (tensor_at 2 [2] 1) half process_batched
    = Returns tt σ1
    ∧ (∃ ys, computes σ1
               (λ σ, add_impl_xk bump_malloc 7 (tensor_at 1 [2] 2) half σ)
               (mkShape [2] 2) ys
             ∧ computes σ1
                 (add_impl bump_malloc 7 (tensor_at 1 [2] 2)
                    (tensor_at 2 [2] 1)) (mkShape [2] 2) ys)
    ∧ (∃ ys, computes σ1
               (λ σ, subtract_impl_xk bump_malloc 7 (tensor_at 1 [2] 2) half σ)
               (mkShape [2] 2) ys
             ∧ computes σ1
                 (subtract_impl bump_malloc 7 (tensor_at 1 [2] 2)
                    (tensor_at 2 [2] 1)) (mkShape [2] 2) ys)
    ∧ (∃ ys, computes σ1
               (λ σ, multiply_impl_xk bump_malloc 7 (tensor_at 1 [2] 2) half σ)
               (mkShape [2] 2) ys
             ∧ computes σ1
                 (multiply_impl bump_malloc 7 (tensor_at 1 [2] 2)
                    (tensor_at 2 [2] 1)) (mkShape [2] 2) ys)
    ∧ (∃ ys, computes σ1
               (λ σ, divide_impl_xk bump_malloc 7 (tensor_at 1 [2] 2) half σ)
               (mkShape [2] 2) ys
             ∧ computes σ1
                 (divide_impl bump_malloc 7 (tensor_at 1 [2] 2)
                    (tensor_at 2 [2] 1)) (mkShape [2] 2) ys)
    ∧ (∃ ys, computes σ1
               (λ σ, subtract_impl_kx bump_malloc 7 half (tensor_at 1 [2] 2) σ)
               (mkShape [2] 2) ys
             ∧ computes σ1
                 (subtract_impl bump_malloc 7 (tensor_at 2 [2] 1)
                    (tensor_at 1 [2] 2)) (mkShape [2] 2) ys)
    ∧ (∃ ys, computes σ1
               (λ σ, divide_impl_kx bump_malloc 7 half (tensor_at 1 [2] 2) σ)
               (mkShape [2] 2) ys
             ∧ computes σ1
                 (divide_impl bump_malloc 7 (tensor_at 2 [2] 1)
                    (tensor_at 1 [2] 2)) (mkShape [2] 2) ys).
Proof.
  apply (scalar_operand_is_constant_tensor bump_malloc bump_malloc_spec 7
           bump_malloc_total process_batched (tensor_at 1 [2] 2)
           (tensor_at 2 [2] 1) (floats [1; 2; 3; 4]%Z) (floats [10; 20]%Z)
           half).
  - block_ok.
  - block_ok.
  - discriminate.
  - shape_ok.
  - shape_ok.
  - vm_compute. reflexivity.
  - reflexivity.
  - by right.
Defined.
